(** * slickgrid-universal: sort service, extension service and utilities

    A shallow embedding of

      - packages/common/src/services/utilities.ts
          parseBoolean, dedupePrimitiveArray,
          convertParentChildFlatArrayToHierarchicalView,
          convertHierarchicalViewToFlatArray(ByOutputArrayReference),
          modifyDatasetToAddTreeItemsMapping, getDescendantProperty,
          addToArrayWhenNotExists, uniqueArray, uniqueObjectArray,
          findItemInHierarchicalStructure, htmlEncode, htmlEntityEncode,
          htmlEntityDecode, thousandSeparatorFormatted, setDeepValue,
          charArraysEqual
      - packages/common/src/services/sort.service.ts
          sortComparer, sortComparers, loadGridSorters, emitSortChanged,
          updateSorting, sortTreeChild
      - packages/common/src/services/extension.service.ts
          removeColumnByIndex, createExtensionsBeforeGridCreation,
          createExtensionByTheirColumnIndex
      - packages/common/src/extensions/extensionCommonUtils.ts
          updateColumnPickerOrder

    The first part of the file holds the definitions, the second part the
    lemmas and theorems about them. *)

From Stdlib Require Import ZArith Ascii String Bool.
From Stdlib Require OrdersEx.
From stdpp Require Import base option list strings pretty relations sorting.

Set Warnings "-register-all,-clear-no-such-hyp".
Local Open Scope string_scope.
Local Open Scope Z_scope.
Local Open Scope list_scope.

(* ===================================================================== *)
(** * Part 1: definitions *)
(* ===================================================================== *)

(** ** JavaScript values

    Plain data as the functions see it.  Numbers are the integers (their
    string form is the decimal one, which is JavaScript's for the integers
    below 10^21) and [NaN], the one number that [===] tells apart from
    itself; a number with a fraction compares and prints as an integer does,
    and has no value of its own here.  Nested arrays and
    objects are trees.  An object is its list of own properties. *)
Module Js.

Inductive value : Type :=
| VUndef
| VNull
| VBool (b : bool)
| VNum (n : Z)
| VNaN
| VStr (s : string)
| VArr (elems : list value)
| VObj (props : list (string * value)).

(** [Array.prototype.join] with a comma. *)
Fixpoint joinComma (parts : list string) : string :=
  match parts with
  | [] => ""
  | [p] => p
  | p :: rest => p +:+ "," +:+ joinComma rest
  end.

(** [ToString]: what [x + ''] and a property key [o[x]] convert with. *)
Fixpoint toStr (v : value) : string :=
  match v with
  | VUndef => "undefined"
  | VNull => "null"
  | VBool true => "true"
  | VBool false => "false"
  | VNum n => pretty n
  | VNaN => "NaN"
  | VStr s => s
  | VArr elems =>
      joinComma (map (fun e => match e with
                               | VUndef | VNull => ""
                               | _ => toStr e
                               end) elems)
  | VObj _ => "[object Object]"
  end.

(** [===].  Two object or array values are never identical here: the code
    below compares identifiers of different nodes of a tree only.  [NaN] is
    not identical to itself. *)
Definition strictEq (a b : value) : bool :=
  match a, b with
  | VUndef, VUndef => true
  | VNull, VNull => true
  | VBool x, VBool y => Bool.eqb x y
  | VNum x, VNum y => Z.eqb x y
  | VStr x, VStr y => String.eqb x y
  | _, _ => false
  end.

(** [if (v)]. *)
Definition truthy (v : value) : bool :=
  match v with
  | VUndef | VNull | VNaN => false
  | VBool b => b
  | VNum n => negb (Z.eqb n 0)
  | VStr s => negb (String.eqb s "")
  | VArr _ | VObj _ => true
  end.

Definition isArray (v : value) : bool :=
  match v with VArr _ => true | _ => false end.

(** The equality of the keys of a [Map]: [===], but for [NaN], which is
    the same key as itself. *)
Definition sameValueZero (a b : value) : bool :=
  match a, b with
  | VNaN, VNaN => true
  | _, _ => strictEq a b
  end.

(** *** Strings *)

Definition lowerChar (c : ascii) : ascii :=
  let n := nat_of_ascii c in
  if ((65 <=? n)%nat && (n <=? 90)%nat)%bool then ascii_of_nat (n + 32) else c.

Fixpoint toLowerCase (s : string) : string :=
  match s with
  | EmptyString => EmptyString
  | String c s' => String (lowerChar c) (toLowerCase s')
  end.

Definition upperChar (c : ascii) : ascii :=
  let n := nat_of_ascii c in
  if ((97 <=? n)%nat && (n <=? 122)%nat)%bool then ascii_of_nat (n - 32) else c.

Fixpoint toUpperCase (s : string) : string :=
  match s with
  | EmptyString => EmptyString
  | String c s' => String (upperChar c) (toUpperCase s')
  end.

Fixpoint startsWith (p s : string) : bool :=
  match p, s with
  | EmptyString, _ => true
  | String a p', String b s' => Ascii.eqb a b && startsWith p' s'
  | String _ _, EmptyString => false
  end.

(** [s.indexOf(p) >= 0] *)
Fixpoint includes (p s : string) : bool :=
  startsWith p s ||
  match s with
  | EmptyString => false
  | String _ s' => includes p s'
  end.

(** [s.split(sep)] for a one-character separator. *)
Fixpoint splitOn (sep : ascii) (s : string) : list string :=
  match s with
  | EmptyString => [""]
  | String c s' =>
      if Ascii.eqb c sep then "" :: splitOn sep s'
      else match splitOn sep s' with
           | [] => [String c ""]
           | w :: ws => String c w :: ws
           end
  end.

(** *** Objects as property lists

    Own string-keyed properties in the order [Object.keys] lists them:
    array indices first, ascending, then the other keys in the order they
    were created. *)
Section Props.
Context {V : Type}.

Fixpoint own (o : list (string * V)) (k : string) : option V :=
  match o with
  | [] => None
  | (k', v) :: o' => if String.eqb k' k then Some v else own o' k
  end.

Definition hasOwnProperty (o : list (string * V)) (k : string) : bool :=
  match own o k with Some _ => true | None => false end.

Fixpoint delete (o : list (string * V)) (k : string) : list (string * V) :=
  match o with
  | [] => []
  | (k', v) :: o' => if String.eqb k' k then delete o' k else (k', v) :: delete o' k
  end.

Definition keys (o : list (string * V)) : list string := map fst o.
End Props.

Definition digitOf (c : ascii) : option N :=
  let n := nat_of_ascii c in
  if ((48 <=? n)%nat && (n <=? 57)%nat)%bool then Some (N.of_nat (n - 48)) else None.

Fixpoint digitsValue (acc : N) (s : string) : option N :=
  match s with
  | EmptyString => Some acc
  | String c s' =>
      match digitOf c with
      | Some d => digitsValue (acc * 10 + d)%N s'
      | None => None
      end
  end.

(** An array index: the canonical decimal form of an integer below 2^32 - 1. *)
Definition arrayIndex (k : string) : option N :=
  match k with
  | EmptyString => None
  | String c rest =>
      if (Ascii.eqb c "0" && negb (String.eqb rest ""))%bool then None
      else match digitsValue 0 k with
           | Some n => if (n <? 4294967295)%N then Some n else None
           | None => None
           end
  end.

Section PropsSet.
Context {V : Type}.

(** Where a new key goes among the existing ones. *)
Fixpoint insertNew (o : list (string * V)) (k : string) (v : V) : list (string * V) :=
  match o with
  | [] => [(k, v)]
  | (k', v') :: o' =>
      match arrayIndex k, arrayIndex k' with
      | Some n, Some n' =>
          if (n <? n')%N then (k, v) :: o else (k', v') :: insertNew o' k v
      | Some _, None => (k, v) :: o
      | None, _ => (k', v') :: insertNew o' k v
      end
  end.

Fixpoint replace (o : list (string * V)) (k : string) (v : V) : list (string * V) :=
  match o with
  | [] => []
  | (k', v') :: o' =>
      if String.eqb k' k then (k', v) :: o' else (k', v') :: replace o' k v
  end.

(** [o[k] = v] on an own data property. *)
Definition set (o : list (string * V)) (k : string) (v : V) : list (string * V) :=
  if hasOwnProperty o k then replace o k v else insertNew o k v.
End PropsSet.

(** [o[k]] on a row object: an absent property reads as [undefined]. *)
Definition get (o : list (string * value)) (k : string) : value :=
  match own o k with Some v => v | None => VUndef end.

(** [v[k]] on any value; a primitive has no such property.  On [null] and
    [undefined] the access throws, which the callers below rule out first. *)
Definition getProp (v : value) (k : string) : value :=
  match v with
  | VObj props => get props k
  | _ => VUndef
  end.

(** *** A literal [{}] used as a dictionary

    The names every [{}] inherits from [Object.prototype]. *)
Definition objectPrototypeNames : list string :=
  [ "constructor"; "hasOwnProperty"; "isPrototypeOf"; "propertyIsEnumerable";
    "toLocaleString"; "toString"; "valueOf"; "__proto__";
    "__defineGetter__"; "__defineSetter__"; "__lookupGetter__"; "__lookupSetter__" ].

Definition inherited (k : string) : bool :=
  existsb (String.eqb k) objectPrototypeNames.

(** [k in o] for [o] created by [{}]. *)
Definition hasProperty {V : Type} (o : list (string * V)) (k : string) : bool :=
  hasOwnProperty o k || inherited k.

(** [o[k]] for [o] created by [{}] holding primitives: an inherited name
    reads as the built-in function or object it names, written [VObj []]. *)
Definition dictGet (o : list (string * value)) (k : string) : value :=
  match own o k with
  | Some v => v
  | None => if inherited k then VObj [] else VUndef
  end.

(** [o[k] = v] for [o] created by [{}] and a primitive [v]: the inherited
    setter of ["__proto__"] ignores a primitive and creates no own property. *)
Definition dictSetPrim (o : list (string * value)) (k : string) (v : value)
  : list (string * value) :=
  if String.eqb k "__proto__" then o else set o k v.

(** A primitive: compared by value with [===]; arrays and objects are
    compared by reference. *)
Definition isPrimitive (v : value) : bool :=
  match v with
  | VArr _ | VObj _ => false
  | _ => true
  end.

(** [\d] and [\w] of a regular expression. *)
Definition isDigit (c : ascii) : bool :=
  let n := nat_of_ascii c in ((48 <=? n)%nat && (n <=? 57)%nat)%bool.

Definition isWordChar (c : ascii) : bool :=
  let n := nat_of_ascii c in
  (isDigit c || ((65 <=? n)%nat && (n <=? 90)%nat) || ((97 <=? n)%nat && (n <=? 122)%nat)
   || (n =? 95)%nat)%bool.

(** *** [Array.prototype.sort]

    The sort is stable: an item goes before the first of the items after it
    that it may stay before, [before x y] telling that [x] may stay before
    [y].  (With a comparer that is no order, what an engine returns is its
    own business; it is a rearrangement of the array in any case.) *)
Section Sort.
Context {A : Type}.
Variable before : A -> A -> bool.

Fixpoint insertSorted (x : A) (sorted : list A) : list A :=
  match sorted with
  | [] => [x]
  | y :: rest => if before x y then x :: sorted else y :: insertSorted x rest
  end.

Definition sortBy (a : list A) : list A := foldr insertSorted [] a.
End Sort.

End Js.

(** ** utilities.ts *)
Module Utilities.
Import Js.

(** [/(true|1)/i.test(s)]: some substring of [s] is ["true"] in any letter
    case, or ["1"]. *)
Definition testTrueOr1 (s : string) : bool :=
  includes "true" (toLowerCase s) || includes "1" (toLowerCase s).

Definition parseBoolean (input : value) : bool :=
  testTrueOr1 (toStr input +:+ "").

(** The loop of [dedupePrimitiveArray]; [out[j++] = item] appends. *)
Fixpoint dedupeLoop (inputArray : list value) (seen : list (string * value))
    (out : list value) : list value :=
  match inputArray with
  | [] => out
  | item :: rest =>
      if negb (strictEq (dictGet seen (toStr item)) (VNum 1))
      then dedupeLoop rest (dictSetPrim seen (toStr item) (VNum 1)) (out ++ [item])
      else dedupeLoop rest seen out
  end.

Definition dedupePrimitiveArray (inputArray : list value) : list value :=
  dedupeLoop inputArray [] [].

(** *** Outcomes of a call: it returns, it throws, or it is stuck (the
    fuel of the model ran out, or the input is outside the model). *)
Inductive outcome (A : Type) : Type :=
| Returns (a : A)
| Throws
| Stuck.
Arguments Returns {A} a.
Arguments Throws {A}.
Arguments Stuck {A}.

#[global] Instance outcome_ret : MRet outcome := fun A a => Returns a.
#[global] Instance outcome_bind : MBind outcome := fun A B k m =>
  match m with
  | Returns a => k a
  | Throws => Throws
  | Stuck => Stuck
  end.

(** The options object of the tree functions; an absent field is [None]. *)
Record TreeOptions : Type := {
  childrenPropName : option string;
  parentPropName : option string;
  identifierPropName : option string;
  parentIdPropName : option string;
  hasChildrenFlagPropName : option string;
  treeLevelPropName : option string
}.

Definition noOptions : TreeOptions :=
  {| childrenPropName := None; parentPropName := None; identifierPropName := None;
     parentIdPropName := None; hasChildrenFlagPropName := None;
     treeLevelPropName := None |}.

(** [options?.name || fallback]: an absent or empty name gives the fallback. *)
Definition orDefault (name : option string) (fallback : string) : string :=
  match name with
  | Some s => if String.eqb s "" then fallback else s
  | None => fallback
  end.

(** Deep [$.extend(true, [], v)] of jQuery on plain data: arrays and plain
    objects are rebuilt, a property whose value is [undefined] is not copied. *)
Fixpoint extendDeep (v : value) : value :=
  match v with
  | VArr elems => VArr (map extendDeep elems)
  | VObj props =>
      VObj ((fix copyProps (ps : list (string * value)) : list (string * value) :=
               match ps with
               | [] => []
               | (k, x) :: ps' =>
                   match x with
                   | VUndef => copyProps ps'
                   | _ => (k, extendDeep x) :: copyProps ps'
                   end
               end) props)
  | _ => v
  end.

(** Nesting depth of arrays and objects. *)
Fixpoint height (v : value) : nat :=
  match v with
  | VArr elems => S (foldr (fun e n => Nat.max (height e) n) O elems)
  | VObj props => S (foldr (fun kv n => Nat.max (height kv.2) n) O props)
  | _ => O
  end.

(** [item[k] = v]: on an object; on a primitive the assignment throws (the
    module is strict code); an array used as a node is outside the model. *)
Definition assign (item : value) (k : string) (v : value) : outcome value :=
  match item with
  | VObj props => Returns (VObj (set props k v))
  | VArr _ => Stuck
  | _ => Throws
  end.

(** [outputArray.find((itm) => itm[identifierPropName] === id)]; reading a
    property of a [null] or [undefined] element throws. *)
Fixpoint findById (identifierPropName : string) (outputArray : list value) (id : value)
  : outcome (option value) :=
  match outputArray with
  | [] => Returns None
  | itm :: rest =>
      match itm with
      | VUndef | VNull => Throws
      | _ => if strictEq (getProp itm identifierPropName) id then Returns (Some itm)
             else findById identifierPropName rest id
      end
  end.

(** [item[hasChildrenFlagPropName] = true; delete item[childrenPropName]] *)
Definition markAsParent (hasChildrenFlagPropName childrenPropName : string) (item : value)
  : value :=
  match item with
  | VObj props => VObj (delete (set props hasChildrenFlagPropName (VBool true)) childrenPropName)
  | _ => item
  end.

(** The [for (const item of hierarchicalArray)] loop, over the items that
    are left; [recurse] is the function itself, called on the children.

    The output array holds references: the item pushed at index [k] is the
    one the statements after the recursive call update, so they act on the
    element at [k].  An item that was not pushed is reachable from the input
    only, and its update does not show in the output. *)
Fixpoint flattenItems
    (recurse : value -> list value -> Z -> value -> outcome (list value))
    (childrenPropName identifierPropName hasChildrenFlagPropName
       treeLevelPropName parentIdPropName : string)
    (items : list value) (outputArray : list value) (treeLevel : Z) (parentId : value)
  : outcome (list value) :=
  match items with
  | [] => Returns outputArray
  | item :: rest =>
      if truthy item then
        if isArray item then Stuck else
        found ← findById identifierPropName outputArray (getProp item identifierPropName);
        let itemExist := match found with Some itm => truthy itm | None => false end in
        pushed ← (if negb itemExist then
                    item1 ← assign item treeLevelPropName (VNum treeLevel);
                    item2 ← assign item1 parentIdPropName
                               (if truthy parentId then parentId else VNull);
                    Returns (item2, outputArray ++ [item2], Some (length outputArray))
                  else Returns (item, outputArray, None));
        let '(item, outputArray, index) := pushed in
        outputArray ←
          (match getProp item childrenPropName with
           | VArr children =>
               outputArray ← recurse (VArr children) outputArray (treeLevel + 1)
                                (getProp item identifierPropName);
               Returns (match index with
                        | Some k => alter (markAsParent hasChildrenFlagPropName
                                             childrenPropName) k outputArray
                        | None => outputArray
                        end)
           | _ => Returns outputArray
           end);
        flattenItems recurse childrenPropName identifierPropName hasChildrenFlagPropName
          treeLevelPropName parentIdPropName rest outputArray treeLevel parentId
      else
        flattenItems recurse childrenPropName identifierPropName hasChildrenFlagPropName
          treeLevelPropName parentIdPropName rest outputArray treeLevel parentId
  end.

Fixpoint convertHierarchicalViewToFlatArrayByOutputArrayReference (fuel : nat)
    (hierarchicalArray : value) (outputArray : list value) (options : TreeOptions)
    (treeLevel : Z) (parentId : value) {struct fuel} : outcome (list value) :=
  let childrenPropName := orDefault (childrenPropName options) "children" in
  let identifierPropName := orDefault (identifierPropName options) "id" in
  let hasChildrenFlagPropName := orDefault (hasChildrenFlagPropName options) "__hasChildren" in
  let treeLevelPropName := orDefault (treeLevelPropName options) "__treeLevel" in
  let parentIdPropName := orDefault (parentIdPropName options) "__parentId" in
  match fuel with
  | O => Stuck
  | S fuel' =>
      match hierarchicalArray with
      | VArr items =>
          flattenItems
            (fun children outputArray treeLevel parentId =>
               convertHierarchicalViewToFlatArrayByOutputArrayReference fuel'
                 children outputArray options treeLevel parentId)
            childrenPropName identifierPropName hasChildrenFlagPropName
            treeLevelPropName parentIdPropName items outputArray treeLevel parentId
      | _ => Returns outputArray
      end
  end.

Definition convertHierarchicalViewToFlatArray (hierarchicalArray : list value)
    (options : TreeOptions) : outcome (list value) :=
  let copy := extendDeep (VArr hierarchicalArray) in
  convertHierarchicalViewToFlatArrayByOutputArrayReference (S (height copy))
    copy [] options 0 VUndef.

(** [getDescendantProperty(obj, path)] *)
Definition getDescendantProperty (obj : value) (path : option string) : value :=
  match path with
  | None => obj
  | Some p =>
      if negb (truthy obj) || String.eqb p "" then obj
      else fold_left (fun acc part => if truthy acc then getProp acc part else acc)
             (splitOn "." p) obj
  end.

(** *** The store of row objects

    [convertParentChildFlatArrayToHierarchicalView] links row objects to
    one another and updates them in place, so rows live in a store and are
    named by their location.  A property of a stored row is plain data, or
    an array that holds references to rows (a children array). *)
Abbreviation loc := nat.

Inductive cell : Type :=
| CVal (v : value)
| CKids (items : list (value + loc)).

Abbreviation store := (list (list (string * cell))).

(** [o[k]] on a stored row. *)
Definition cellGet (o : list (string * cell)) (k : string) : cell :=
  match own o k with Some c => c | None => CVal VUndef end.

(** [ToString] of a property of a stored row; a row inside an array prints
    as any object does. *)
Definition cellStr (c : cell) : string :=
  match c with
  | CVal v => toStr v
  | CKids items =>
      joinComma (map (fun e => match e with
                               | inl VUndef | inl VNull => ""
                               | inl v => toStr v
                               | inr _ => "[object Object]"
                               end) items)
  end.

(** What a deep [$.extend] copies from the properties of a stored row;
    [copyRow] copies a referenced row.  A property whose value is
    [undefined] is not copied. *)
Fixpoint copyProps (copyRow : loc -> option (list (string * value)))
    (ps : list (string * cell)) : option (list (string * value)) :=
  match ps with
  | [] => Some []
  | (k, c) :: ps' =>
      match c with
      | CVal VUndef => copyProps copyRow ps'
      | CVal v => rest ← copyProps copyRow ps'; Some ((k, extendDeep v) :: rest)
      | CKids items =>
          arr ← mapM (fun e => match e with
                               | inl v => Some (extendDeep v)
                               | inr l' => VObj <$> copyRow l'
                               end) items;
          rest ← copyProps copyRow ps';
          Some ((k, VArr arr) :: rest)
      end
  end.

(** What a deep [$.extend] reads from a stored row: its own properties as
    plain data, the rows it references included ([None]: out of fuel, or a
    location that holds no row). *)
Fixpoint snapshot (fuel : nat) (st : store) (l : loc) {struct fuel}
  : option (list (string * value)) :=
  match fuel with
  | O => None
  | S fuel' => o ← st !! l; copyProps (snapshot fuel' st) o
  end.

(** A fresh row for a copy. *)
Definition rowOfProps (props : list (string * value)) : list (string * cell) :=
  map (fun kv => (kv.1, CVal kv.2)) props.

(** The rows that the row at [l] refers to, to any depth, are plain
    objects ([false] also when the fuel runs out): a deep [$.extend] clones
    them all. *)
Fixpoint clonable (fuel : nat) (plain : loc -> bool) (st : store) (l : loc) {struct fuel}
  : bool :=
  match fuel with
  | O => false
  | S fuel' =>
      match st !! l with
      | None => false
      | Some o =>
          forallb (fun kc : string * cell =>
                     match kc.2 with
                     | CVal _ => true
                     | CKids items =>
                         forallb (fun e : value + loc =>
                                    match e with
                                    | inl _ => true
                                    | inr r => plain r && clonable fuel' plain st r
                                    end) items
                     end) o
      end
  end.

(** [$.extend(true, [], flatArray)], jQuery's deep copy: a row that is a
    plain object is cloned, as plain data, into a new row; the new rows go
    to the end of the store, from the location [next] on.  A row that is
    not a plain object (an instance of a class) is not cloned: the copy of
    the array holds the row itself.  [plain l] tells that the row at [l] is
    a plain object; a row that is not is taken to inherit what every object
    inherits, and nothing that the function reads besides.  The result is
    the clones and the items of the copy of the array.  Outside the model
    ([None]) are a row that is not plain inside a row that is cloned, and a
    row with a property ["__proto__"] of its own, which jQuery copies in a
    way of its own, or skips, depending on its version. *)
Fixpoint cloneRows (fuel : nat) (plain : loc -> bool) (st : store) (flatArray : list loc)
    (next : loc) : option (list (list (string * value)) * list loc) :=
  match flatArray with
  | [] => Some ([], [])
  | l :: rest =>
      if plain l then
        if clonable fuel plain st l then
          copy ← snapshot fuel st l;
          if hasOwnProperty copy "__proto__" then None
          else
            more ← cloneRows fuel plain st rest (S next);
            Some (copy :: more.1, next :: more.2)
        else None
      else
        more ← cloneRows fuel plain st rest next;
        Some (more.1, l :: more.2)
  end.

(** [item[identifierPropName]] as a property key.  A row without the
    property of its own reads what it inherits: for a name of
    [Object.prototype] that is a built-in function, outside the model. *)
Definition identifierKey (identifierPropName : string) (o : list (string * cell))
  : option string :=
  match own o identifierPropName with
  | Some c => Some (cellStr c)
  | None => if inherited identifierPropName then None else Some "undefined"
  end.

(** [inputArray.forEach((item) => all[item[identifierPropName]] = item)].
    [all] is created by [{}]: the assignment at the key ["__proto__"] goes
    to the setter that [all] inherits, which makes the row the prototype of
    [all] and creates no property.  [proto] is the row that was made the
    prototype of [all], if any.  (Once a row is the prototype, a property
    ["__proto__"] of its own would hide the setter: outside the model.) *)
Fixpoint indexAll (identifierPropName : string) (st : store) (inputArray : list loc)
    (all : list (string * loc)) (proto : option loc)
  : option (list (string * loc) * option loc) :=
  match inputArray with
  | [] => Some (all, proto)
  | item :: rest =>
      o ← st !! item;
      id ← identifierKey identifierPropName o;
      if String.eqb id "__proto__" then
        let hidden := match proto with
                      | Some q => match st !! q with
                                  | Some qo => hasOwnProperty qo "__proto__"
                                  | None => true
                                  end
                      | None => false
                      end in
        if hidden then None else indexAll identifierPropName st rest all (Some item)
      else indexAll identifierPropName st rest (set all id item) proto
  end.

(** [if (!(childrenPropName in p)) { p[childrenPropName] = []; }
    p[childrenPropName].push(item)] on the row [p].  A name that the row
    inherits is [in] the row, and what the row inherits has no [push]; a
    children property that is not an array has none either. *)
Definition pushChild (childrenPropName : string) (po : list (string * cell)) (item : loc)
  : outcome (list (string * cell)) :=
  match own po childrenPropName with
  | Some (CKids items) =>
      Returns (set po childrenPropName (CKids (items ++ [inr item])))
  | Some (CVal (VArr elems)) =>
      Returns (set po childrenPropName (CKids (map inl elems ++ [inr item])))
  | Some (CVal _) => Throws
  | None =>
      if inherited childrenPropName then Throws
      else Returns (set po childrenPropName (CKids [inr item]))
  end.

(** [item[parentPropName] === null || !item.hasOwnProperty(parentPropName)],
    when the call of [hasOwnProperty] returns. *)
Definition isRootRow (parentPropName : string) (o : list (string * cell)) : bool :=
  match own o parentPropName with
  | Some (CVal VNull) | None => true
  | Some _ => false
  end.

(** The same test calls [item.hasOwnProperty] unless [item[parentPropName]]
    is [null].  The method is looked up on the row: a row that has a
    property [hasOwnProperty] of its own has data there, and calling it
    throws. *)
Definition rootTestThrows (parentPropName : string) (o : list (string * cell)) : bool :=
  match own o parentPropName with
  | Some (CVal VNull) => false
  | _ => hasOwnProperty o "hasOwnProperty"
  end.

(** The row [item] is pushed to the children of the row at [p]. *)
Definition pushTo (childrenPropName : string) (p item : loc) (st : store) (roots : list loc)
  : store * outcome (list loc) :=
  match st !! p with
  | None => (st, Stuck)
  | Some po =>
      match pushChild childrenPropName po item with
      | Returns po' => (<[p := po']> st, Returns roots)
      | Throws => (st, Throws)
      | Stuck => (st, Stuck)
      end
  end.

(** The branch [else if (item[parentPropName] in all)]: the row [item] is
    pushed to the children of [all[key]]; a [key] that is not [in all]
    leaves the row out.  [all] has its own properties, those of the row that
    is its prototype, if one was set, and those of [Object.prototype]:
      - an own property is a row;
      - a property of the prototype row is anything: [in] throws on a
        primitive, and an object or an array that is not a row is outside
        the model;
      - ["__proto__"] reads as the prototype row;
      - the other names of [Object.prototype], and ["__proto__"] without a
        prototype row, read as built-in objects, outside the model. *)
Definition attach (childrenPropName : string) (all : list (string * loc))
    (proto : option loc) (key : string) (item : loc) (st : store) (roots : list loc)
  : store * outcome (list loc) :=
  match own all key with
  | Some p => pushTo childrenPropName p item st roots
  | None =>
      match proto with
      | Some q =>
          match st !! q with
          | None => (st, Stuck)
          | Some qo =>
              match own qo key with
              | Some (CVal v) => if isPrimitive v then (st, Throws) else (st, Stuck)
              | Some (CKids _) => (st, Stuck)
              | None =>
                  if String.eqb key "__proto__" then pushTo childrenPropName q item st roots
                  else if inherited key then (st, Stuck)
                  else (st, Returns roots)
              end
          end
      | None => if inherited key then (st, Stuck) else (st, Returns roots)
      end
  end.

(** The body of [Object.keys(all).forEach((id) => ...)], over the keys that
    are left.  The result is the store as the call leaves it, with the
    outcome. *)
Fixpoint connect (childrenPropName parentPropName : string) (all : list (string * loc))
    (proto : option loc) (ids : list string) (st : store) (roots : list loc)
  : store * outcome (list loc) :=
  match ids with
  | [] => (st, Returns roots)
  | id :: rest =>
      match own all id with
      | None => (st, Stuck)
      | Some item =>
          match st !! item with
          | None => (st, Stuck)
          | Some o =>
              let linked : store * outcome (list loc) :=
                if rootTestThrows parentPropName o then (st, Throws)
                else if isRootRow parentPropName o then (st, Returns (roots ++ [item]))
                else attach childrenPropName all proto
                       (cellStr (cellGet o parentPropName)) item st roots
              in
              match linked with
              | (st, Returns roots) =>
                  let st := alter (fun o => delete (delete o "__treeLevel") "__hasChildren")
                              item st in
                  connect childrenPropName parentPropName all proto rest st roots
              | stopped => stopped
              end
          end
      end
  end.

(** The rows of the flat array are at the locations [flatArray] of the
    store [st]; the clones that [$.extend] makes are new rows, at the end of
    the store. *)
Definition convertParentChildFlatArrayToHierarchicalView (fuel : nat) (plain : loc -> bool)
    (st : store) (flatArray : list loc) (options : TreeOptions)
  : store * outcome (list loc) :=
  let childrenPropName := orDefault (childrenPropName options) "children" in
  let parentPropName := orDefault (parentPropName options) "parentId" in
  let identifierPropName := orDefault (identifierPropName options) "id" in
  match cloneRows fuel plain st flatArray (length st) with
  | None => (st, Stuck)
  | Some (copies, inputArray) =>
      let st := st ++ map rowOfProps copies in
      match indexAll identifierPropName st inputArray [] None with
      | None => (st, Stuck)
      | Some (all, proto) =>
          connect childrenPropName parentPropName all proto (keys all) st []
      end
  end.

(** The hierarchical view as the plain data that [$.extend] copies when the
    roots are handed to [convertHierarchicalViewToFlatArray]. *)
Definition hierarchicalView (fuel : nat) (st : store) (roots : list loc)
  : option (list value) :=
  mapM (fun r => VObj <$> snapshot fuel st r) roots.

(** Flat rows to the hierarchical view and back.  The roots, and the rows
    below them, are plain objects, which [convertHierarchicalViewToFlatArray]
    clones before it flattens them; other roots are outside the model. *)
Definition roundTrip (fuel : nat) (plain : loc -> bool) (st : store) (flatArray : list loc)
    (options : TreeOptions) : outcome (list value) :=
  match convertParentChildFlatArrayToHierarchicalView fuel plain st flatArray options with
  | (st', Returns roots) =>
      if forallb (fun r => plain r && clonable fuel plain st' r) roots then
        match hierarchicalView fuel st' roots with
        | Some view => convertHierarchicalViewToFlatArray view options
        | None => Stuck
        end
      else Stuck
  | (_, Throws) => Throws
  | (_, Stuck) => Stuck
  end.

(** *** Roll-up of the tree items

    The rows are shared with the data view, which hands out references to
    them: rows live in a store of their own, [getItemById] gives the
    location of the row with an identifier. *)
Abbreviation rows := (list (list (string * value))).

(** [a.concat(x)] *)
Definition concat (a : list value) (x : value) : list value :=
  match x with
  | VArr b => a ++ b
  | _ => a ++ [x]
  end.

(** The [while (parent)] loop. *)
Fixpoint walkUp (fuel : nat) (getItemById : value -> option loc)
    (parentPropName treeItemsPropName : string)
    (st : rows) (item : loc) (parent : option loc) {struct fuel} : outcome rows :=
  match parent with
  | None => Returns st
  | Some p =>
      match fuel with
      | O => Stuck
      | S fuel' =>
          match st !! p, st !! item with
          | Some po, Some io =>
              match get po treeItemsPropName with
              | VArr a =>
                  let po := set po treeItemsPropName
                              (VArr (dedupePrimitiveArray
                                       (concat a (get io treeItemsPropName)))) in
                  let st := <[p := po]> st in
                  walkUp fuel' getItemById parentPropName treeItemsPropName st p
                    (getItemById (get po parentPropName))
              | VStr _ => Stuck
              | _ => Throws
              end
          | _, _ => Stuck
          end
      end
  end.

(** The [for] loop over the items that are left. *)
Fixpoint rollUp (fuel : nat) (getItemById : value -> option loc)
    (columnId parentPropName treeItemsPropName : string)
    (items : list loc) (st : rows) : outcome rows :=
  match items with
  | [] => Returns st
  | i :: rest =>
      match st !! i with
      | None => Stuck
      | Some o =>
          let o := set o treeItemsPropName (VArr [get o columnId]) in
          let st := <[i := o]> st in
          st ← (if negb (strictEq (get o parentPropName) VNull)
                then walkUp fuel getItemById parentPropName treeItemsPropName st i
                       (getItemById (get o parentPropName))
                else Returns st);
          rollUp fuel getItemById columnId parentPropName treeItemsPropName rest st
      end
  end.

(** The part of a column definition the roll-up reads. *)
Module TreeData.
Record t : Type := {
  parentPropName : option string;
  itemMapPropName : option string
}.
End TreeData.

Module Column.
Record t : Type := {
  id : string;
  treeData : option TreeData.t
}.
End Column.

Definition modifyDatasetToAddTreeItemsMapping (fuel : nat) (items : list loc)
    (treeDataColumn : Column.t) (getItemById : value -> option loc) (st : rows)
  : outcome rows :=
  let parentPropName :=
    orDefault (Column.treeData treeDataColumn ≫= TreeData.parentPropName) "__parentId" in
  let treeItemsPropName :=
    orDefault (Column.treeData treeDataColumn ≫= TreeData.itemMapPropName) "__treeItems" in
  rollUp fuel getItemById (Column.id treeDataColumn) parentPropName treeItemsPropName
    items st.

(** *** Arrays of items *)

(** [inputArray.findIndex((item) => item.id === id)], from the index [i]
    on; reading [id] off a [null] or [undefined] item throws. *)
Fixpoint findIndexById (inputArray : list value) (id : value) (i : Z) : outcome Z :=
  match inputArray with
  | [] => Returns (-1)
  | item :: rest =>
      match item with
      | VUndef | VNull => Throws
      | _ => if strictEq (getProp item "id") id then Returns i
             else findIndexById rest id (i + 1)
      end
  end.

(** [inputArray.findIndex((item) => item === x)], from the index [i] on;
    it is [inputArray.indexOf(x)] too. *)
Fixpoint findIndexOf (inputArray : list value) (x : value) (i : Z) : Z :=
  match inputArray with
  | [] => -1
  | item :: rest => if strictEq item x then i else findIndexOf rest x (i + 1)
  end.

(** The array as the call leaves it.  [typeof null] is ['object'], and
    [null.hasOwnProperty] throws.  The method is looked up on the object: a
    property [hasOwnProperty] of its own is data, and calling it throws.  An
    object without an own [id], an array, and an object whose [id] is an
    object or an array are looked up by reference: outside the model. *)
Definition addToArrayWhenNotExists (inputArray : list value) (inputItem : value)
  : outcome (list value) :=
  arrayRowIndex ←
    match inputItem with
    | VNull => Throws
    | VObj props =>
        if hasOwnProperty props "hasOwnProperty" then Throws
        else if hasOwnProperty props "id" then
          if isPrimitive (get props "id")
          then findIndexById inputArray (get props "id") 0
          else Stuck
        else Stuck
    | VArr _ => Stuck
    | _ => Returns (findIndexOf inputArray inputItem 0)
    end;
  Returns (if arrayRowIndex <? 0 then inputArray ++ [inputItem] else inputArray).

(** [arr.filter((item, index) => arr.indexOf(item) >= index)], over the
    items from the index [index] on. *)
Fixpoint keepFirsts (arr : list value) (items : list value) (index : Z) : list value :=
  match items with
  | [] => []
  | item :: rest =>
      if index <=? findIndexOf arr item 0
      then item :: keepFirsts arr rest (index + 1)
      else keepFirsts arr rest (index + 1)
  end.

(** An item that is an object or an array is found by reference: outside
    the model. *)
Definition uniqueArray (arr : value) : outcome value :=
  match arr with
  | VArr (item :: rest) =>
      if forallb isPrimitive (item :: rest)
      then Returns (VArr (keepFirsts (item :: rest) (item :: rest) 0))
      else Stuck
  | _ => Returns arr
  end.

(** [item[propertyName]] for an item of the array: reading it off [null]
    or [undefined] throws; a string or an array has index properties, which
    are outside the model. *)
Definition itemProp (item : value) (propertyName : string) : outcome value :=
  match item with
  | VUndef | VNull => Throws
  | VObj props => Returns (get props propertyName)
  | VBool _ | VNum _ | VNaN => Returns VUndef
  | VStr _ | VArr _ => Stuck
  end.

(** The [for (const item of arr)] loop; [map] is the list of the keys of
    the [Map].  A key that is an object or an array is looked up by
    reference: outside the model. *)
Fixpoint uniqueObjectLoop (propertyName : string) (items : list value)
    (map : list value) (result : list value) : outcome (list value) :=
  match items with
  | [] => Returns result
  | item :: rest =>
      key ← itemProp item propertyName;
      if negb (isPrimitive key) then Stuck
      else if negb (existsb (sameValueZero key) map)
      then name ← itemProp item "name";
           uniqueObjectLoop propertyName rest (map ++ [key])
             (result ++ [VObj [("id", key); ("name", name)]])
      else uniqueObjectLoop propertyName rest map result
  end.

(** [propertyName] is [None] when the argument is left out. *)
Definition uniqueObjectArray (arr : value) (propertyName : option string)
  : outcome value :=
  let propertyName := match propertyName with Some name => name | None => "id" end in
  match arr with
  | VArr (item :: rest) =>
      result ← uniqueObjectLoop propertyName (item :: rest) [] [];
      Returns (VArr result)
  | _ => Returns arr
  end.

(** *** findItemInHierarchicalStructure *)

(** [x.hasOwnProperty(k)] on an item of an array: on [null] and
    [undefined] the call throws; a number or a boolean has no own property;
    a string or an array has [length] and its indices, which are outside
    the model. *)
Definition itemHasOwn (x : value) (k : string) : outcome bool :=
  match x with
  | VUndef | VNull => Throws
  | VObj props => Returns (hasOwnProperty props k)
  | VBool _ | VNum _ | VNaN => Returns false
  | VStr _ | VArr _ =>
      if String.eqb k "length" || bool_decide (is_Some (arrayIndex k)) then Stuck
      else Returns false
  end.

(** [x.hasOwnProperty(k) && x[k]], as a condition. *)
Definition hasOwnTruthy (x : value) (k : string) : outcome bool :=
  has ← itemHasOwn x k;
  if has : bool then v ← itemProp x k; Returns (truthy v) else Returns false.

(** [items.filter(test)] *)
Fixpoint filterItems (test : value -> outcome bool) (items : list value)
  : outcome (list value) :=
  match items with
  | [] => Returns []
  | x :: rest =>
      keep ← test x;
      kept ← filterItems test rest;
      Returns (if keep : bool then x :: kept else kept)
  end.

(** The items [...v] spreads: those of an array, the characters of a
    string; anything else is not iterable. *)
Definition spread (v : value) : outcome (list value) :=
  match v with
  | VArr elems => Returns elems
  | VStr s => Returns (map (fun c => VStr (String c "")) (list_ascii_of_string s))
  | _ => Throws
  end.

(** The [elementsWithChildren.forEach] loop, over the items that are left. *)
Fixpoint collectChildren (childrenPropertyName : string) (items : list value)
    (childElements : list value) : outcome (list value) :=
  match items with
  | [] => Returns childElements
  | item :: rest =>
      has ← itemHasOwn item childrenPropertyName;
      if has : bool then
        v ← itemProp item childrenPropertyName;
        more ← spread v;
        collectChildren childrenPropertyName rest (childElements ++ more)
      else collectChildren childrenPropertyName rest childElements
  end.

(** The predicate looks at the item it is handed. *)
Fixpoint findItemInHierarchicalStructure (fuel : nat) (hierarchicalArray : list value)
    (predicate : value -> bool) (childrenPropertyName : string) {struct fuel}
  : outcome value :=
  if String.eqb childrenPropertyName "" then Throws
  else
    match fuel with
    | O => Stuck
    | S fuel' =>
        let initialFind :=
          match List.find predicate hierarchicalArray with
          | Some x => x
          | None => VUndef
          end in
        elementsWithChildren ←
          filterItems (fun x => hasOwnTruthy x childrenPropertyName) hierarchicalArray;
        if truthy initialFind then Returns initialFind
        else
          match elementsWithChildren with
          | _ :: _ =>
              childElements ← collectChildren childrenPropertyName elementsWithChildren [];
              findItemInHierarchicalStructure fuel' childElements predicate
                childrenPropertyName
          | [] => Returns VUndef
          end
    end.

(** *** HTML encoding *)

(** The entity the map has for a character. *)
Definition entityMap (c : ascii) : option string :=
  if Ascii.eqb c "&" then Some "&amp;"
  else if Ascii.eqb c "<" then Some "&lt;"
  else if Ascii.eqb c ">" then Some "&gt;"
  else if Ascii.eqb c "034" then Some "&quot;"
  else if Ascii.eqb c "'" then Some "&#39;"
  else None.

(** [s.replace(pattern, (c) => entityMap[c])], the pattern being the class
    of the five characters of the map, with the flag [g]. *)
Fixpoint replaceSpecials (s : string) : string :=
  match s with
  | EmptyString => EmptyString
  | String c s' =>
      match entityMap c with
      | Some entity => entity +:+ replaceSpecials s'
      | None => String c (replaceSpecials s')
      end
  end.

Definition htmlEncode (inputValue : value) : string :=
  replaceSpecials (if truthy inputValue then toStr inputValue else "").

(** [['&#', c.charCodeAt(), ';'].join('')] *)
Definition entityOfChar (c : ascii) : string :=
  "&#" +:+ pretty (N_of_ascii c) +:+ ";".

(** The loop goes from the last character to the first, and [unshift] puts
    each entity in front of the ones it has; [buf.join('')] at the end. *)
Definition htmlEntityEncode (input : string) : string :=
  String.concat ""
    (fold_left (fun buf c => entityOfChar c :: buf) (rev (list_ascii_of_string input)) []).

(** The longest run of digits [s] starts with. *)
Fixpoint takeDigits (s : string) : string :=
  match s with
  | EmptyString => EmptyString
  | String c s' => if isDigit c then String c (takeDigits s') else EmptyString
  end.

Fixpoint dropChars (n : nat) (s : string) : string :=
  match n, s with
  | S n', String _ s' => dropChars n' s'
  | _, _ => s
  end.

(** [/&#(\d+);/] at the start of [s]: the digits of the group, when it
    matches there. *)
Definition matchEntity (s : string) : option string :=
  match s with
  | String c1 (String c2 rest) =>
      if (Ascii.eqb c1 "&" && Ascii.eqb c2 "#")%bool then
        let dec := takeDigits rest in
        if String.eqb dec "" then None
        else match dropChars (String.length dec) rest with
             | String c3 _ => if Ascii.eqb c3 ";" then Some dec else None
             | EmptyString => None
             end
      else None
  | _ => None
  end.

(** [String.fromCharCode(dec)] for a string of digits: the code is taken
    modulo 2^16.  The strings of the model hold the characters below 256;
    another character, and a number too large to be exact, are outside the
    model. *)
Definition fromCharCode (dec : string) : outcome string :=
  match digitsValue 0 dec with
  | Some n =>
      if (n <? 2 ^ 53)%N then
        let unit := (n mod 65536)%N in
        if (unit <? 256)%N then Returns (String (ascii_of_N unit) "") else Stuck
      else Stuck
  | None => Stuck
  end.

(** [input.replace(/&#(\d+);/g, (match, dec) => String.fromCharCode(dec))],
    from left to right; [skip] characters are left of the last match. *)
Fixpoint decodeEntities (skip : nat) (s : string) : outcome string :=
  match s with
  | EmptyString => Returns EmptyString
  | String c s' =>
      match skip with
      | S skip' => decodeEntities skip' s'
      | O =>
          match matchEntity s with
          | Some dec =>
              char ← fromCharCode dec;
              rest ← decodeEntities (String.length dec + 2) s';
              Returns (char +:+ rest)
          | None =>
              rest ← decodeEntities 0 s';
              Returns (String c rest)
          end
      end
  end.

Definition htmlEntityDecode (input : string) : outcome string :=
  decodeEntities 0 input.

(** *** thousandSeparatorFormatted *)

(** The separators of the signature:
    [separator: ',' | '_' | '.' | ' ' | '' = ',']. *)
Inductive Separator : Type :=
| Comma
| Underscore
| Dot
| Space
| NoSeparator.

Definition separatorString (separator : Separator) : string :=
  match separator with
  | Comma => ","
  | Underscore => "_"
  | Dot => "."
  | Space => " "
  | NoSeparator => ""
  end.

(** [s.replace(/\B(?=(\d{3})+(?!\d))/g, separator)]; [prev] is the
    character before [s].  The pattern matches, at a position that is not a
    word boundary, when the digits that follow up to the first character
    that is not a digit are three, or six, ...  No separator of the
    signature holds a [$], so that [replace] puts the separator in as it
    is. *)
Fixpoint insertSeparators (separator : string) (prev : option ascii) (s : string)
  : string :=
  match s with
  | EmptyString => EmptyString
  | String c s' =>
      let digits := String.length (takeDigits s) in
      let notBoundary :=
        Bool.eqb (match prev with Some p => isWordChar p | None => false end)
                 (isWordChar c) in
      (if (notBoundary && (0 <? digits)%nat && (digits mod 3 =? 0)%nat)%bool
       then separator else "")
      +:+ String c (insertSeparators separator (Some c) s')
  end.

(** [separator] is [None] when the argument is left out. *)
Definition thousandSeparatorFormatted (inputValue : value) (separator : option Separator)
  : value :=
  let separator :=
    separatorString (match separator with Some sep => sep | None => Comma end) in
  match inputValue with
  | VNull | VUndef => inputValue
  | _ =>
      let stringValue := toStr inputValue in
      match splitOn "." stringValue with
      | [whole; decimals] =>
          VStr (insertSeparators separator None whole +:+ "." +:+ decimals)
      | _ => VStr (insertSeparators separator None stringValue)
      end
  end.

(** *** setDeepValue *)

(** [Object.prototype.toString.call(v) === '[object Object]'] *)
Definition isPlainObject (v : value) : bool :=
  match v with
  | VObj _ => true
  | _ => false
  end.

(** The call with [path] an array.  Objects are updated in place; the
    result is [obj] as the call leaves it. *)
Fixpoint setDeepPath (obj : value) (path : list string) (value : Js.value)
  : outcome Js.value :=
  match path with
  | [] => Returns obj
  | [p] =>
      if (truthy obj && negb (String.eqb p ""))%bool then
        has ← itemHasOwn obj p;
        if has : bool then assign obj p value else Returns obj
      else Returns obj
  | e :: rest =>
      if truthy obj then
        has ← itemHasOwn obj e;
        if has : bool then
          let child := if isPlainObject (getProp obj e) then getProp obj e else VObj [] in
          child ← setDeepPath child rest value;
          assign obj e child
        else Returns obj
      else Returns obj
  end.

(** No object of [v] has a property [hasOwnProperty] of its own: a call
    [x.hasOwnProperty(k)] on any of them finds the method that every object
    inherits. *)
Fixpoint inheritsHasOwn (v : value) : bool :=
  match v with
  | VArr elems => forallb inheritsHasOwn elems
  | VObj props =>
      negb (hasOwnProperty props "hasOwnProperty")
      && forallb (fun kv : string * value => inheritsHasOwn kv.2) props
  | _ => true
  end.

(** A path is a string, split at its dots, or an array. *)
Definition pathComponents (path : string + list string) : list string :=
  match path with
  | inl s => splitOn "." s
  | inr components => components
  end.

Definition setDeepValue (obj : value) (path : string + list string) (value : Js.value)
  : outcome Js.value :=
  setDeepPath obj (pathComponents path) value.

(** *** charArraysEqual *)

(** The order of [Array.prototype.sort] without a comparer: [undefined]
    goes last, the other items go by their string forms, character code by
    character code. *)
Definition sortsBefore (x y : value) : bool :=
  match x, y with
  | _, VUndef => true
  | VUndef, _ => false
  | _, _ => String.leb (toStr x) (toStr y)
  end.

(** [a.sort()] *)
Definition sortDefault (a : list value) : list value := sortBy sortsBefore a.

(** The [for] loop, over the items that are left of two arrays of the same
    length.  Two items that are both objects or arrays are compared by
    reference: outside the model. *)
Fixpoint sameItems (a b : list value) : outcome bool :=
  match a, b with
  | x :: a', y :: b' =>
      if (isPrimitive x || isPrimitive y)%bool then
        if negb (strictEq x y) then Returns false else sameItems a' b'
      else Stuck
  | _, _ => Returns true
  end.

(** The result, with the two arrays as the call leaves them.  Only [a] is
    checked to be an array; a string [b] has a length and items, its
    characters, but no [sort]; an object [b] is outside the model. *)
Definition charArraysEqual (a b : value) (orderMatters : bool)
  : outcome (value * value * bool) :=
  match a with
  | VArr itemsA =>
      if negb (truthy b) then Returns (a, b, false)
      else
        match b with
        | VArr itemsB =>
            if negb (length itemsA =? length itemsB)%nat then Returns (a, b, false)
            else
              let itemsA := if orderMatters then itemsA else sortDefault itemsA in
              let itemsB := if orderMatters then itemsB else sortDefault itemsB in
              same ← sameItems itemsA itemsB;
              Returns (VArr itemsA, VArr itemsB, same)
        | VStr s =>
            if negb (length itemsA =? String.length s)%nat then Returns (a, b, false)
            else if orderMatters then
              same ← sameItems itemsA
                       (map (fun c => VStr (String c "")) (list_ascii_of_string s));
              Returns (a, b, same)
            else Throws
        | VObj _ => Stuck
        | _ => Returns (a, b, false)
        end
  | _ => Returns (a, b, false)
  end.

End Utilities.

(** ** sort.service.ts *)
Module SortService.
Import Js Utilities.

(** Modelled from the spec: the enum [SortDirectionNumber] of enums/ (not
    part of the sources at hand).  The spec has a three-way result whose
    neutral value is zero; ascending and descending are the two units. *)
Module SortDirectionNumber.
Definition asc : Z := 1.
Definition desc : Z := -1.
Definition neutral : Z := 0.
End SortDirectionNumber.

(** A column definition, as far as sorting reads it.  A custom
    [sortComparer] is called with the two values and the direction; the
    column and the grid options it is also handed are the same all along a
    sort and are left to its closure. *)
Module Column.
Record t (FieldType : Type) : Type := {
  id : string;
  field : string;
  queryField : option string;
  queryFieldSorter : option string;
  queryFieldNameGetterFn : option (value -> string);
  type : option FieldType;
  sortComparer : option (value -> value -> Z -> Z)
}.
Arguments id {FieldType} _.
Arguments field {FieldType} _.
Arguments queryField {FieldType} _.
Arguments queryFieldSorter {FieldType} _.
Arguments queryFieldNameGetterFn {FieldType} _.
Arguments type {FieldType} _.
Arguments sortComparer {FieldType} _.
End Column.

Module ColumnSort.
Record t (FieldType : Type) : Type := {
  columnId : string;
  sortAsc : bool;
  sortCol : option (Column.t FieldType)
}.
Arguments columnId {FieldType} _.
Arguments sortAsc {FieldType} _.
Arguments sortCol {FieldType} _.
End ColumnSort.

Module CurrentSorter.
Record t : Type := {
  columnId : string;
  direction : string
}.
End CurrentSorter.

(** [a || b] on names: an absent or empty name is falsy. *)
Definition orName (a : option string) (b : option string) : option string :=
  match a with
  | Some s => if String.eqb s "" then b else a
  | None => b
  end.

Section Comparers.
Context {FieldType : Type}.
(** [FieldType.string] and [sortByFieldType] of sortComparers/sortUtilities
    are not part of the sources at hand; the comparer is applied to the
    field type, the two values and the direction. *)
Variable FieldType_string : FieldType.
Variable sortByFieldType : FieldType -> value -> value -> Z -> Z.

(** [querySortField || columnDef.queryFieldSorter || columnDef.queryField
    || columnDef.field], then the getter when the column has one. *)
Definition queryFieldNames (columnDef : Column.t FieldType)
    (dataRow1 dataRow2 : value) (querySortField : option string) : string * string :=
  let queryFieldName :=
    match orName querySortField
            (orName (Column.queryFieldSorter columnDef)
               (Column.queryField columnDef)) with
    | Some name => if String.eqb name "" then Column.field columnDef else name
    | None => Column.field columnDef
    end in
  match Column.queryFieldNameGetterFn columnDef with
  | Some getter => (getter dataRow1, getter dataRow2)
  | None => (queryFieldName, queryFieldName)
  end.

(** [dataRow[name]], or the descendant property for a dotted name. *)
Definition fieldValue (dataRow : value) (name : string) : value :=
  if includes "." name then getDescendantProperty dataRow (Some name)
  else getProp dataRow name.

Definition sortComparer (sortColumn : ColumnSort.t FieldType)
    (dataRow1 dataRow2 : value) (querySortField : option string) : option Z :=
  match ColumnSort.sortCol sortColumn with
  | Some columnDef =>
      let sortDirection := if ColumnSort.sortAsc sortColumn
                           then SortDirectionNumber.asc else SortDirectionNumber.desc in
      let '(queryFieldName1, queryFieldName2) :=
        queryFieldNames columnDef dataRow1 dataRow2 querySortField in
      let fieldType := match Column.type columnDef with
                       | Some t => t
                       | None => FieldType_string
                       end in
      let value1 := fieldValue dataRow1 queryFieldName1 in
      let value2 := fieldValue dataRow2 queryFieldName2 in
      match Column.sortComparer columnDef with
      | Some customComparer =>
          let customSortResult := customComparer value1 value2 sortDirection in
          if negb (Z.eqb customSortResult SortDirectionNumber.neutral)
          then Some customSortResult else None
      | None =>
          let sortResult := sortByFieldType fieldType value1 value2 sortDirection in
          if negb (Z.eqb sortResult SortDirectionNumber.neutral)
          then Some sortResult else None
      end
  | None => None
  end.

Fixpoint sortComparers (sortColumns : list (ColumnSort.t FieldType))
    (dataRow1 dataRow2 : value) : Z :=
  match sortColumns with
  | [] => SortDirectionNumber.neutral
  | sortColumn :: rest =>
      match sortComparer sortColumn dataRow1 dataRow2 None with
      | Some result => result
      | None => sortComparers rest dataRow1 dataRow2
      end
  end.
(** [(a, b) => this.sortComparer(sortColumn, a, b) ?? SortDirectionNumber.neutral],
    as the comparer of [treeArray.sort]: the item [a] may stay before the
    item [b] when the result is not above zero. *)
Definition treeBefore (sortColumn : ColumnSort.t FieldType) (a b : value) : bool :=
  match sortComparer sortColumn a b None with
  | Some result => result
  | None => SortDirectionNumber.neutral
  end <=? 0.

(** The [for (const item of treeArray)] loop, over the items that are
    left; [recurse] is [sortTreeChild] on the children, which are sorted in
    place. *)
Fixpoint sortChildren (recurse : list value -> outcome (list value))
    (childrenPropName : string) (items : list value) : outcome (list value) :=
  match items with
  | [] => Returns []
  | item :: rest =>
      item ←
        (if truthy item then
           has ← itemHasOwn item childrenPropName;
           match getProp item childrenPropName with
           | VArr children =>
               if has : bool then
                 children ← recurse children;
                 assign item childrenPropName (VArr children)
               else Returns item
           | _ => Returns item
           end
         else Returns item);
      rest ← sortChildren recurse childrenPropName rest;
      Returns (item :: rest)
  end.

(** The tree array as the call leaves it.  [childrenPropName] is the name
    the tree data options of the grid give, when they give one.  Items that
    are not objects are outside the model. *)
Fixpoint sortTreeChild (fuel : nat) (childrenPropName : option string)
    (treeArray : list value) (sortColumn : ColumnSort.t FieldType) (treeLevel : Z)
    {struct fuel} : outcome (list value) :=
  match fuel with
  | O => Stuck
  | S fuel' =>
      if forallb isPlainObject treeArray then
        sortChildren
          (fun children =>
             sortTreeChild fuel' childrenPropName children sortColumn (treeLevel + 1))
          (match childrenPropName with Some name => name | None => "children" end)
          (sortBy (treeBefore sortColumn) treeArray)
      else Stuck
  end.

End Comparers.

(** *** The service and its collaborators

    The calls the service makes on the grid, the data view, the backend
    service and the event bus are recorded in the order they are made. *)
Record BackendService : Type := {
  updateSorters : bool;                                  (* the method is there *)
  getCurrentSorters : option (list CurrentSorter.t)      (* its result, if it is there *)
}.

Record BackendServiceApi : Type := {
  service : option BackendService
}.

Record GridOption : Type := {
  enableSorting : bool;
  enableTreeData : bool;
  backendServiceApi : option BackendServiceApi
}.

(** The [{}] the getter falls back to. *)
Definition noGridOption : GridOption :=
  {| enableSorting := false; enableTreeData := false; backendServiceApi := None |}.

Inductive call (FieldType : Type) : Type :=
| BackendUpdateSorters (sorters : list CurrentSorter.t)
| RefreshBackendDataset
| LocalSort (sortColumns : list (ColumnSort.t FieldType))   (* data view sorted, grid invalidated *)
| SetSortColumns (sortColumns : list (string * bool))
| Publish (event : string) (sorters : list CurrentSorter.t).
Arguments BackendUpdateSorters {FieldType} _.
Arguments RefreshBackendDataset {FieldType}.
Arguments LocalSort {FieldType} _.
Arguments SetSortColumns {FieldType} _.
Arguments Publish {FieldType} _ _.

Record SlickGrid (FieldType : Type) : Type := {
  getOptions : option GridOption;            (* [None]: it returns no object *)
  getColumns : list (Column.t FieldType);
  getData : bool                             (* a data view is there *)
}.
Arguments getOptions {FieldType} _.
Arguments getColumns {FieldType} _.
Arguments getData {FieldType} _.

Record t (FieldType : Type) : Type := {
  _grid : option (SlickGrid FieldType);
  _currentLocalSorters : list CurrentSorter.t;
  backendUtilities : bool;                   (* the optional service is there *)
  calls : list (call FieldType)
}.
Arguments _grid {FieldType} _.
Arguments _currentLocalSorters {FieldType} _.
Arguments backendUtilities {FieldType} _.
Arguments calls {FieldType} _.

Section Service.
Context {FieldType : Type}.

Definition record (c : call FieldType) (s : t FieldType) : t FieldType :=
  {| _grid := _grid s; _currentLocalSorters := _currentLocalSorters s;
     backendUtilities := backendUtilities s; calls := calls s ++ [c] |}.

Definition setCurrentLocalSorters (l : list CurrentSorter.t) (s : t FieldType)
  : t FieldType :=
  {| _grid := _grid s; _currentLocalSorters := l;
     backendUtilities := backendUtilities s; calls := calls s |}.

(** The getter [_gridOptions]. *)
Definition _gridOptions (s : t FieldType) : option GridOption :=
  match _grid s with
  | Some grid => getOptions grid
  | None => Some noGridOption
  end.

(** The getter [_columnDefinitions]. *)
Definition _columnDefinitions (s : t FieldType) : list (Column.t FieldType) :=
  match _grid s with
  | Some grid => getColumns grid
  | None => []
  end.

(** [onLocalSortChanged(grid, sortCols)] with its defaults: nothing is
    forced and nothing emitted. *)
Definition onLocalSortChanged (sortColumns : list (ColumnSort.t FieldType))
    (s : t FieldType) : t FieldType :=
  match _grid s with
  | Some grid => if getData grid then record (LocalSort sortColumns) s else s
  | None => s
  end.

Definition loadGridSorters (sorters : list CurrentSorter.t) (s : t FieldType)
  : t FieldType * outcome (list (ColumnSort.t FieldType)) :=
  let s := setCurrentLocalSorters [] s in
  let found :=
    omap (fun sorter =>
            match find (fun col => String.eqb (Column.id col)
                                     (CurrentSorter.columnId sorter))
                    (_columnDefinitions s) with
            | Some gridColumn => Some (gridColumn, sorter)
            | None => None
            end) sorters in
  let sortCols :=
    map (fun cs : Column.t FieldType * CurrentSorter.t =>
           {| ColumnSort.columnId := Column.id cs.1;
              ColumnSort.sortAsc :=
                String.eqb (toUpperCase (CurrentSorter.direction cs.2)) "ASC";
              ColumnSort.sortCol := Some cs.1 |}) found in
  let s := setCurrentLocalSorters
             (map (fun cs : Column.t FieldType * CurrentSorter.t =>
                     {| CurrentSorter.columnId := Column.id cs.1 +:+ "";
                        CurrentSorter.direction :=
                          toUpperCase (CurrentSorter.direction cs.2) |}) found) s in
  let s := onLocalSortChanged sortCols s in
  match _grid s with
  | Some _ =>
      (record (SetSortColumns
                 (map (fun col => (ColumnSort.columnId col, ColumnSort.sortAsc col))
                    sortCols)) s,
       Returns sortCols)
  | None => (s, Throws)
  end.

(** [emitSortChanged(sender)]; [remote] tells the sender. *)
Definition emitSortChanged (remote : bool) (s : t FieldType) : t FieldType :=
  match remote, _gridOptions s ≫= backendServiceApi with
  | true, Some api =>
      record (Publish "onSortChanged"
                (match service api ≫= getCurrentSorters with
                 | Some currentSorters => currentSorters
                 | None => []
                 end)) s
  | true, None => s
  | false, _ => record (Publish "onSortChanged" (_currentLocalSorters s)) s
  end.

(** [sorters] is [None] when the argument is not an array. *)
Definition updateSorting (sorters : option (list CurrentSorter.t))
    (emitChangedEvent triggerBackendQuery : bool) (s : t FieldType)
  : t FieldType * outcome unit :=
  match _gridOptions s with
  | None => (s, Throws)
  | Some gridOptions =>
      if negb (enableSorting gridOptions) then (s, Throws)
      else
        match sorters with
        | None => (s, Returns tt)
        | Some sorters =>
            let backendApi := backendServiceApi gridOptions in
            let updated : t FieldType * outcome unit :=
              match backendApi with
              | Some api =>
                  match service api with
                  | Some backendApiService =>
                      if updateSorters backendApiService then
                        let s := record (BackendUpdateSorters sorters) s in
                        (if triggerBackendQuery && backendUtilities s
                         then record RefreshBackendDataset s else s, Returns tt)
                      else (s, Returns tt)
                  | None => (s, Returns tt)
                  end
              | None =>
                  match loadGridSorters sorters s with
                  | (s, Returns _) => (s, Returns tt)
                  | (s, Throws) => (s, Throws)
                  | (s, Stuck) => (s, Stuck)
                  end
              end in
            match updated with
            | (s, Returns _) =>
                if emitChangedEvent
                then (emitSortChanged (bool_decide (is_Some backendApi)) s, Returns tt)
                else (s, Returns tt)
            | stopped => stopped
            end
        end
  end.
End Service.

End SortService.

(** ** extension.service.ts *)
Module ExtensionService.
Import Js Utilities.

(** [columns.filter((_el, i) => index !== i)], from the position [i] on. *)
Fixpoint removeAt (index : value) (columns : list value) (i : Z) : list value :=
  match columns with
  | [] => []
  | el :: rest =>
      if negb (strictEq index (VNum i)) then el :: removeAt index rest (i + 1)
      else removeAt index rest (i + 1)
  end.

(** What is not an array is handed back. *)
Definition removeColumnByIndex (columns : value) (index : value) : value :=
  match columns with
  | VArr items => VArr (removeAt index items 0)
  | _ => columns
  end.

(** The features that are created before the grid. *)
Inductive ExtensionName : Type :=
| checkboxSelector
| rowMoveManager
| rowDetailView
| draggableGrouping.

#[global] Instance ExtensionName_eq_dec : EqDecision ExtensionName.
Proof. solve_decision. Defined.

(** The grid options the creation reads; a position is [None] when the
    options of the feature, or its [columnIndexPosition], are not there. *)
Record GridOption : Type := {
  enableCheckboxSelector : bool;
  checkboxSelectorPosition : option Z;
  enableRowMoveManager : bool;
  rowMoveManagerPosition : option Z;
  enableRowDetailView : bool;
  rowDetailViewPosition : option Z;
  enableDraggableGrouping : bool
}.

(** The calls the service makes, in the order it makes them: [create] on
    the extension of a feature, and the construction of the draggable
    grouping plugin. *)
Inductive call : Type :=
| Create (name : ExtensionName)
| NewDraggableGroupingPlugin.

Record t : Type := {
  _extensionCreatedList : list ExtensionName;     (* the names that have an entry *)
  calls : list call
}.

(** [!this.getCreatedExtensionByName(name)] *)
Definition notCreated (name : ExtensionName) (s : t) : bool :=
  negb (bool_decide (name ∈ _extensionCreatedList s)).

Definition record (c : call) (s : t) : t :=
  {| _extensionCreatedList := _extensionCreatedList s; calls := calls s ++ [c] |}.

(** [this._extensionCreatedList[name] = ...] *)
Definition setCreated (name : ExtensionName) (s : t) : t :=
  {| _extensionCreatedList :=
       if bool_decide (name ∈ _extensionCreatedList s) then _extensionCreatedList s
       else _extensionCreatedList s ++ [name];
     calls := calls s |}.

(** One [push], when the feature is enabled and was not created yet:
    [position ?? featureWithColumnIndexPositions.length]. *)
Definition pushFeature (enabled : bool) (name : ExtensionName) (position : option Z) (s : t)
    (features : list (ExtensionName * Z)) : list (ExtensionName * Z) :=
  if (enabled && notCreated name s)%bool
  then features ++ [(name, match position with
                           | Some p => p
                           | None => Z.of_nat (length features)
                           end)]
  else features.

Definition featureWithColumnIndexPositions (gridOptions : GridOption) (s : t)
  : list (ExtensionName * Z) :=
  let features := [] in
  let features := pushFeature (enableCheckboxSelector gridOptions) checkboxSelector
                    (checkboxSelectorPosition gridOptions) s features in
  let features := pushFeature (enableRowMoveManager gridOptions) rowMoveManager
                    (rowMoveManagerPosition gridOptions) s features in
  pushFeature (enableRowDetailView gridOptions) rowDetailView
    (rowDetailViewPosition gridOptions) s features.

(** [feat1.columnIndexPosition - feat2.columnIndexPosition] is not above
    zero. *)
Definition positionBefore (feat1 feat2 : ExtensionName * Z) : bool :=
  feat1.2 - feat2.2 <=? 0.

(** [create name] tells whether [feature.extension.create(...)] returns an
    instance. *)
Definition createExtensionByTheirColumnIndex (create : ExtensionName -> bool)
    (featureWithIndexPositions : list (ExtensionName * Z)) (s : t) : t :=
  fold_left (fun s feature =>
               let s := record (Create feature.1) s in
               if create feature.1 then setCreated feature.1 s else s)
    (sortBy positionBefore featureWithIndexPositions) s.

Definition createExtensionsBeforeGridCreation (create : ExtensionName -> bool)
    (gridOptions : GridOption) (s : t) : t :=
  let s := createExtensionByTheirColumnIndex create
             (featureWithColumnIndexPositions gridOptions s) s in
  if (enableDraggableGrouping gridOptions && notCreated draggableGrouping s)%bool
  then setCreated draggableGrouping (record NewDraggableGroupingPlugin s)
  else s.

End ExtensionService.

(** ** extensionCommonUtils.ts *)
Module ExtensionCommonUtils.
Import Js Utilities.

(** The grid, as far as the picker reads it: [getColumnIndex] gives
    [undefined] for the id of a column that is not shown. *)
Record SlickGrid : Type := {
  getColumns : list value;
  getColumnIndex : value -> value
}.

(** The [for] loop over the positions that are left; [current.shift()] on
    an empty array gives [undefined]. *)
Fixpoint fillOrdered (grid : SlickGrid) (columns : list value) (current : list value)
  : outcome (list value) :=
  match columns with
  | [] => Returns []
  | column :: rest =>
      id ← itemProp column "id";
      if strictEq (getColumnIndex grid id) VUndef then
        ordered ← fillOrdered grid rest current;
        Returns (column :: ordered)
      else
        ordered ← fillOrdered grid rest (tail current);
        Returns (match current with
                 | next :: _ => next
                 | [] => VUndef
                 end :: ordered)
  end.

(** The new [context._columns]. *)
Definition updateColumnPickerOrder (grid : SlickGrid) (columns : list value)
  : outcome (list value) :=
  fillOrdered grid columns (getColumns grid).

End ExtensionCommonUtils.

(** ** Definitions that follow the spec's words *)
Module Spec.
Import Js.

(** "The elements in first-occurrence order with at most one element per
    string representation"; [seen] holds the string forms met so far. *)
Fixpoint firstOccurrences (seen : list string) (l : list value) : list value :=
  match l with
  | [] => []
  | x :: rest =>
      if bool_decide (toStr x ∈ seen) then firstOccurrences seen rest
      else x :: firstOccurrences (toStr x :: seen) rest
  end.

(** A row: an object, as opposed to a primitive, an array or a hole. *)
Definition isRow (v : value) : Prop :=
  match v with VObj _ => True | _ => False end.

(** A hierarchical array: each item is a row or is falsy (a hole, [null]),
    and so are the items of the children array of each row. *)
Inductive hierarchical (childrenPropName : string) : list value -> Prop :=
| hierarchical_nil :
    hierarchical childrenPropName []
| hierarchical_hole item rest :
    truthy item = false ->
    hierarchical childrenPropName rest ->
    hierarchical childrenPropName (item :: rest)
| hierarchical_row props rest :
    (forall children, get props childrenPropName = VArr children ->
                      hierarchical childrenPropName children) ->
    hierarchical childrenPropName rest ->
    hierarchical childrenPropName (VObj props :: rest).

(** The identifiers of the rows of an array, in order. *)
Definition identifiers (identifierPropName : string) (l : list value) : list value :=
  (fun itm => getProp itm identifierPropName) <$> l.

(** No identifier is held twice: no two positions hold identifiers that
    [===] equates. *)
Definition distinct (ids : list value) : Prop :=
  forall (i j : nat) (x y : value),
    i <> j -> ids !! i = Some x -> ids !! j = Some y -> strictEq x y = false.

(** What one call of the flattening adds to the output array: rows only,
    no identifier twice, and the identifiers that were there stay where they
    were. *)
Definition extends (identifierPropName : string) (outputArray outputArray' : list value)
  : Prop :=
  Forall isRow outputArray' /\
  distinct (identifiers identifierPropName outputArray') /\
  identifiers identifierPropName outputArray
    `prefix_of` identifiers identifierPropName outputArray'.

(** [st'] is the store [st] with rows from location [n] on updated, on
    the properties [touched] at most. *)
Definition updatedFrom (n : nat) (touched : list string) (st st' : Utilities.store) : Prop :=
  length st' = length st /\
  (forall l : nat, (l < n)%nat -> st' !! l = st !! l) /\
  (forall (l : nat) o, st !! l = Some o ->
     exists o', st' !! l = Some o' /\ forall k, k ∉ touched -> own o' k = own o k).

(** The rows from location [n] on hold references to rows in [P] only. *)
Definition kidsIn (n : nat) (P : nat -> Prop) (st : Utilities.store) : Prop :=
  forall (l : nat) o k items (r : nat),
    (n <= l)%nat -> st !! l = Some o -> own o k = Some (Utilities.CKids items) ->
    inr r ∈ items -> P r.

(** The rows from location [n] on hold references in the relation [R]
    only: [R l r] for each row [r] that a property of the row at [l] holds. *)
Definition kidsRel (n : nat) (R : nat -> nat -> Prop) (st : Utilities.store) : Prop :=
  forall (l : nat) o k items (r : nat),
    (n <= l)%nat -> st !! l = Some o -> (k, Utilities.CKids items) ∈ o ->
    inr r ∈ items -> R l r.

(** The row that [all[key]] is, when it is a row: an own property of
    [all], or, at ["__proto__"], the row that is the prototype of [all]. *)
Definition parentFor (all : list (string * nat)) (proto : option nat) (key : string)
  : option nat :=
  match own all key with
  | Some p => Some p
  | None => if String.eqb key "__proto__" then proto else None
  end.

(** The rows from [x] up: [x], its parent, the parent of its parent, ...,
    to a root. *)
Inductive chainTo (parent : nat -> nat -> Prop) (isRoot : nat -> Prop)
  : nat -> list nat -> Prop :=
| chainTo_root r :
    isRoot r -> chainTo parent isRoot r [r]
| chainTo_step p x path :
    chainTo parent isRoot p path -> parent p x ->
    chainTo parent isRoot x (x :: path).

(** No row from location [n] on holds a reference to a row before [n]. *)
Definition freshKids (n : nat) (st : Utilities.store) : Prop :=
  kidsIn n (fun r => (n <= r)%nat) st.

(** The parent property of a row that becomes a root: [null], or not there. *)
Definition rootLike (parentPropName : string) (o : list (string * Utilities.cell)) : Prop :=
  own o parentPropName = None \/ own o parentPropName = Some (Utilities.CVal VNull).

(** The children property of a row from location [n] on, when it is there,
    is an array of references to rows. *)
Definition childrenAreRows (childrenPropName : string) (n : nat) (st : Utilities.store)
  : Prop :=
  forall (l : nat) o c,
    (n <= l)%nat -> st !! l = Some o -> own o childrenPropName = Some c ->
    exists refs : list nat, c = Utilities.CKids (inr <$> refs).

(** The children property of a row from location [n] on, when it is there,
    is an array. *)
Definition childrenAreArrays (childrenPropName : string) (n : nat) (st : Utilities.store)
  : Prop :=
  forall (l : nat) o c,
    (n <= l)%nat -> st !! l = Some o -> own o childrenPropName = Some c ->
    (exists items, c = Utilities.CKids items) \/
    (exists elems, c = Utilities.CVal (VArr elems)).

(** A hierarchical array all of whose rows, to any depth, have an identifier
    in [S]. *)
Inductive nodesFrom (childrenPropName identifierPropName : string) (S : value -> Prop)
  : list value -> Prop :=
| nodesFrom_nil :
    nodesFrom childrenPropName identifierPropName S []
| nodesFrom_row props rest :
    S (get props identifierPropName) ->
    (forall children, get props childrenPropName = VArr children ->
                      nodesFrom childrenPropName identifierPropName S children) ->
    nodesFrom childrenPropName identifierPropName S rest ->
    nodesFrom childrenPropName identifierPropName S (VObj props :: rest).

(** The identifiers of the flat rows, as the copies made of them hold them. *)
Definition flatIdentifiers (fuel : nat) (st : Utilities.store) (flatArray : list nat)
    (identifierPropName : string) : list value :=
  match mapM (Utilities.snapshot fuel st) flatArray with
  | Some copies => (fun copy => get copy identifierPropName) <$> copies
  | None => []
  end.

(** The row that the data view gives for the parent id of the row at [l]. *)
Definition parentOf (getItemById : value -> option nat) (parentPropName : string)
    (st : Utilities.rows) (l : nat) : option nat :=
  o ← st !! l; getItemById (get o parentPropName).

(** [a] is the row at [l], or its parent, or the parent of its parent, ... *)
Definition ancestorOrSelf (getItemById : value -> option nat) (parentPropName : string)
    (st : Utilities.rows) : relation nat :=
  rtc (fun x y => parentOf getItemById parentPropName st x = Some y).

(** [s] is the string form of the tree-column value of a row among
    [members] that is the row at [x] or one of its descendants. *)
Definition rolledUp (getItemById : value -> option nat)
    (columnId parentPropName : string) (st : Utilities.rows)
    (members : nat -> Prop) (x : nat) (s : string) : Prop :=
  exists d o, members d /\ ancestorOrSelf getItemById parentPropName st d x /\
              st !! d = Some o /\ s = toStr (get o columnId).

(** In the array of the items, the parent of a row comes before the row. *)
Definition parentsFirst (getItemById : value -> option nat) (parentPropName : string)
    (st : Utilities.rows) (items : list nat) : Prop :=
  forall (i : nat) l p,
    items !! i = Some l -> parentOf getItemById parentPropName st l = Some p ->
    exists j : nat, (j < i)%nat /\ items !! j = Some p.

(** [st'] is [st] but for the property [k] of its rows. *)
Definition sameBut (k : string) (st st' : Utilities.rows) : Prop :=
  length st' = length st /\
  forall (l : nat) o, st !! l = Some o ->
    exists o', st' !! l = Some o' /\ forall k', k' <> k -> own o' k' = own o k'.

(** The items before the index [i]. *)
Definition before (items : list nat) (i : nat) (x : nat) : Prop :=
  exists j : nat, (j < i)%nat /\ items !! j = Some x.

(** In the store [st] the row at [p] has the row at [x] among its children. *)
Definition childOf (childrenPropName : string) (st : Utilities.store) (p x : nat) : Prop :=
  exists o items, st !! p = Some o /\
                  own o childrenPropName = Some (Utilities.CKids items) /\ inr x ∈ items.

(** The row [node] is an item of the hierarchical array [items], at any
    depth. *)
Inductive occurs (childrenPropName : string) (node : value) : list value -> Prop :=
| occurs_here items :
    isRow node -> node ∈ items -> occurs childrenPropName node items
| occurs_below props children items :
    VObj props ∈ items -> get props childrenPropName = VArr children ->
    occurs childrenPropName node children ->
    occurs childrenPropName node items.

(** The chain of parent ids of the [i]-th of the flat rows ends at a row
    without a parent id: the parent property of the row is [null] or not
    there, or it reads as the identifier of a row whose chain ends so. *)
Inductive rooted (identifierPropName parentPropName : string) (flatRows : Utilities.rows)
  : nat -> Prop :=
| rooted_root i row :
    flatRows !! i = Some row ->
    own row parentPropName = None \/ own row parentPropName = Some VNull ->
    rooted identifierPropName parentPropName flatRows i
| rooted_child i row j parentRow :
    flatRows !! i = Some row -> flatRows !! j = Some parentRow ->
    toStr (get parentRow identifierPropName) = toStr (get row parentPropName) ->
    rooted identifierPropName parentPropName flatRows j ->
    rooted identifierPropName parentPropName flatRows i.

(** The keys of the flat rows are ordinary ones: no row has a property
    ["__proto__"] of its own, no identifier reads ["__proto__"], and no
    parent id that is there, and is not [null], names a property that every
    object inherits. *)
Definition ordinaryKeys (identifierPropName parentPropName : string)
    (flatRows : Utilities.rows) : Prop :=
  Forall (fun row : list (string * value) =>
            own row "__proto__" = None /\
            toStr (get row identifierPropName) <> "__proto__" /\
            forall v, own row parentPropName = Some v -> v <> VNull ->
                      inherited (toStr v) = false)
         flatRows.

(** No flat row has a property [hasOwnProperty] of its own. *)
Definition inheritsHasOwnProperty (flatRows : Utilities.rows) : Prop :=
  Forall (fun row : list (string * value) => own row "hasOwnProperty" = None) flatRows.

(** The output array holds the identifier of each row of the hierarchical
    array [items]. *)
Definition covers (childrenPropName identifierPropName : string)
    (items outputArray : list value) : Prop :=
  forall node, occurs childrenPropName node items ->
               getProp node identifierPropName ∈ identifiers identifierPropName outputArray.

(** A forest: an array of rows, the children property of each of which
    is an array of rows, to any depth, or is falsy. *)
Inductive forest (childrenPropName : string) : list value -> Prop :=
| forest_nil :
    forest childrenPropName []
| forest_row props rest :
    (forall children, get props childrenPropName = VArr children ->
                      forest childrenPropName children) ->
    isArray (get props childrenPropName) = true \/
      truthy (get props childrenPropName) = false ->
    forest childrenPropName rest ->
    forest childrenPropName (VObj props :: rest).

(** The children of the rows of an array, in order. *)
Definition childrenOf (childrenPropName : string) (items : list value) : list value :=
  flat_map (fun x => match getProp x childrenPropName with
                     | VArr children => children
                     | _ => []
                     end) items.

(** The rows at the depth [k] of a hierarchical array, from left to right. *)
Fixpoint level (childrenPropName : string) (k : nat) (items : list value) : list value :=
  match k with
  | O => items
  | S k' => level childrenPropName k' (childrenOf childrenPropName items)
  end.

(** The path leads through own properties that are plain objects to an own
    property with a name that is not empty. *)
Inductive plainPath : value -> list string -> Prop :=
| plainPath_last props p :
    p <> "" -> hasOwnProperty props p = true -> plainPath (VObj props) [p]
| plainPath_step props e child rest :
    own props e = Some (VObj child) -> rest <> [] -> plainPath (VObj child) rest ->
    plainPath (VObj props) (e :: rest).

(** The grid options ask for the feature, one of the three that take a
    column of their own. *)
Definition requested (gridOptions : ExtensionService.GridOption)
    (name : ExtensionService.ExtensionName) : bool :=
  match name with
  | ExtensionService.checkboxSelector => ExtensionService.enableCheckboxSelector gridOptions
  | ExtensionService.rowMoveManager => ExtensionService.enableRowMoveManager gridOptions
  | ExtensionService.rowDetailView => ExtensionService.enableRowDetailView gridOptions
  | ExtensionService.draggableGrouping => false
  end.

(** The column index position of a feature: the one its options give, or,
    when they give none, the number of the features that come before it, in
    the order checkbox selector, row move manager, row detail view, and
    that the options ask for and were not created yet. *)
Definition columnIndexPosition (gridOptions : ExtensionService.GridOption)
    (s : ExtensionService.t) (name : ExtensionService.ExtensionName) : Z :=
  let waiting (other : ExtensionService.ExtensionName) : bool :=
    (requested gridOptions other && ExtensionService.notCreated other s)%bool in
  let given :=
    match name with
    | ExtensionService.checkboxSelector => ExtensionService.checkboxSelectorPosition gridOptions
    | ExtensionService.rowMoveManager => ExtensionService.rowMoveManagerPosition gridOptions
    | ExtensionService.rowDetailView => ExtensionService.rowDetailViewPosition gridOptions
    | ExtensionService.draggableGrouping => None
    end in
  let earlier :=
    match name with
    | ExtensionService.checkboxSelector | ExtensionService.draggableGrouping => []
    | ExtensionService.rowMoveManager => [ExtensionService.checkboxSelector]
    | ExtensionService.rowDetailView =>
        [ExtensionService.checkboxSelector; ExtensionService.rowMoveManager]
    end in
  match given with
  | Some position => position
  | None => Z.of_nat (length (List.filter waiting earlier))
  end.

(** The row [x'] is the row [x] with its children, and theirs, in another
    order: each row keeps its children. *)
Inductive rearranged (childrenPropName : string) : value -> value -> Prop :=
| rearranged_same x :
    rearranged childrenPropName x x
| rearranged_children props children moved children' :
    get props childrenPropName = VArr children ->
    children ≡ₚ moved ->
    Forall2 (rearranged childrenPropName) moved children' ->
    rearranged childrenPropName (VObj props)
      (VObj (set props childrenPropName (VArr children'))).

(** The same for the rows of an array. *)
Definition rearrangedRows (childrenPropName : string) (rows rows' : list value) : Prop :=
  exists moved, rows ≡ₚ moved /\ Forall2 (rearranged childrenPropName) moved rows'.

(** All that [seen] ever holds is the number 1. *)
Definition onlyOnes (seen : list (string * value)) : Prop :=
  ∀ k v, own seen k = Some v → v = VNum 1.

End Spec.

(** ** Concrete inputs used below *)
Module Examples.
Import Js Utilities SortService.

(** A comparer that answers with the direction it is handed. *)
Definition directionComparer : value -> value -> Z -> Z := fun _ _ sortDirection => sortDirection.

Definition directionColumn : Column.t unit :=
  {| Column.id := "a"; Column.field := "a"; Column.queryField := None;
     Column.queryFieldSorter := None; Column.queryFieldNameGetterFn := None;
     Column.type := None; Column.sortComparer := Some directionComparer |}.

(** A service that was not bound to a grid. *)
Definition unboundService : SortService.t unit :=
  {| _grid := None; _currentLocalSorters := []; backendUtilities := false; calls := [] |}.

(** [[{id:1, children:[{id:1},{id:2}]}, null, {id:2}]]: the identifiers 1
    and 2 occur twice. *)
Definition treeWithDuplicates : list value :=
  [ VObj [("id", VNum 1); ("children", VArr [VObj [("id", VNum 1)]; VObj [("id", VNum 2)]])];
    VNull;
    VObj [("id", VNum 2)] ].

(** The flat array [[{id:1}, {id:2, parentId:1}, {id:3, parentId:2}]], its
    rows at the locations 0, 1 and 2 of the store. *)
Definition chainStore : store :=
  [ [("id", CVal (VNum 1))];
    [("id", CVal (VNum 2)); ("parentId", CVal (VNum 1))];
    [("id", CVal (VNum 3)); ("parentId", CVal (VNum 2))] ].

(** [[{id:1}, {id:2, parentId:99}]]: no row has the identifier 99. *)
Definition danglingStore : store :=
  [ [("id", CVal (VNum 1))];
    [("id", CVal (VNum 2)); ("parentId", CVal (VNum 99))] ].

(** The chain of the claim as the rows of a data view: row 1, its child
    row 2, and the child row 3 of row 2; the data view finds a row by its
    identifier. *)
Definition chainRows : rows :=
  [ [("id", VNum 1); ("__parentId", VNull)];
    [("id", VNum 2); ("__parentId", VNum 1)];
    [("id", VNum 3); ("__parentId", VNum 2)] ].

Definition chainById (id : value) : option loc :=
  match id with
  | VNum 1 => Some 0%nat
  | VNum 2 => Some 1%nat
  | VNum 3 => Some 2%nat
  | _ => None
  end.

Definition idColumn : Utilities.Column.t :=
  {| Utilities.Column.id := "id"; Utilities.Column.treeData := None |}.

(** [[{id:1, children:[{id:3}]}, {id:2}]] *)
Definition smallForest : list value :=
  [ VObj [("id", VNum 1); ("children", VArr [VObj [("id", VNum 3)]])];
    VObj [("id", VNum 2)] ].

(** [(x) => x.id === id] *)
Definition hasId (id : Z) : value -> bool :=
  fun x => strictEq (getProp x "id") (VNum id).

(** Grid options that ask for the checkbox selector at the position 2, the
    row move manager at no position, and the draggable grouping. *)
Definition selectorOptions : ExtensionService.GridOption :=
  {| ExtensionService.enableCheckboxSelector := true;
     ExtensionService.checkboxSelectorPosition := Some 2;
     ExtensionService.enableRowMoveManager := true;
     ExtensionService.rowMoveManagerPosition := None;
     ExtensionService.enableRowDetailView := false;
     ExtensionService.rowDetailViewPosition := None;
     ExtensionService.enableDraggableGrouping := true |}.

(** An extension service that has created nothing. *)
Definition freshExtensionService : ExtensionService.t :=
  {| ExtensionService._extensionCreatedList := []; ExtensionService.calls := [] |}.

(** The picker has the columns a, c, b; the grid shows b and a, in that
    order, and c is hidden. *)
Definition pickerColumns : list value :=
  [ VObj [("id", VStr "a")]; VObj [("id", VStr "c")]; VObj [("id", VStr "b")] ].

Definition pickerGrid : ExtensionCommonUtils.SlickGrid :=
  {| ExtensionCommonUtils.getColumns := [ VObj [("id", VStr "b")]; VObj [("id", VStr "a")] ];
     ExtensionCommonUtils.getColumnIndex := fun id =>
       if strictEq id (VStr "b") then VNum 0
       else if strictEq id (VStr "a") then VNum 1
       else VUndef |}.

(** A comparer of numbers: [(a - b) * direction], as a sign. *)
Definition numberComparer : value -> value -> Z -> Z :=
  fun value1 value2 sortDirection =>
    match value1, value2 with
    | VNum a, VNum b => Z.sgn (a - b) * sortDirection
    | _, _ => 0
    end.

Definition numberColumn : Column.t unit :=
  {| Column.id := "id"; Column.field := "id"; Column.queryField := None;
     Column.queryFieldSorter := None; Column.queryFieldNameGetterFn := None;
     Column.type := None; Column.sortComparer := Some numberComparer |}.

(** [[{id:2}, {id:1, children:[{id:4}, {id:3}]}]] *)
Definition unsortedForest : list value :=
  [ VObj [("id", VNum 2)];
    VObj [("id", VNum 1); ("children", VArr [VObj [("id", VNum 4)]; VObj [("id", VNum 3)]])] ].

(** A grid with the columns a and id, and a data view. *)
Definition twoColumnGrid : SlickGrid unit :=
  {| getOptions := Some {| enableSorting := true; enableTreeData := false;
                           backendServiceApi := None |};
     getColumns := [directionColumn; numberColumn];
     getData := true |}.

Definition twoColumnService : SortService.t unit :=
  {| _grid := Some twoColumnGrid; _currentLocalSorters := [];
     backendUtilities := false; calls := [] |}.

(** Sorters by id, by a column the grid does not have, and by a. *)
Definition threeSorters : list CurrentSorter.t :=
  [ {| CurrentSorter.columnId := "id"; CurrentSorter.direction := "desc" |};
    {| CurrentSorter.columnId := "zip"; CurrentSorter.direction := "asc" |};
    {| CurrentSorter.columnId := "a"; CurrentSorter.direction := "Asc" |} ].

(** Grid options with a backend service that takes sorters and has none
    of its own yet. *)
Definition backendOptions : GridOption :=
  {| enableSorting := true; enableTreeData := false;
     backendServiceApi :=
       Some {| service := Some {| updateSorters := true;
                                  getCurrentSorters := Some [] |} |} |}.

Definition backendService : SortService.t unit :=
  {| _grid := Some {| getOptions := Some backendOptions;
                      getColumns := [directionColumn; numberColumn];
                      getData := true |};
     _currentLocalSorters := [];
     backendUtilities := true; calls := [] |}.

End Examples.

(* ===================================================================== *)
(** * Part 2: lemmas and theorems *)
(* ===================================================================== *)

Import Js Utilities Spec Examples.

(** ** Property lists *)
Section PropsFacts.
Context {V : Type}.
Implicit Types (o : list (string * V)) (k : string) (v : V).

Lemma own_replace o k v (k' : string) :
  own (replace o k v) k' =
  if String.eqb k k' then match own o k with Some _ => Some v | None => None end
  else own o k'.
Proof.
  induction o as [|[k1 v1] o IH]; simpl.
  - by destruct (String.eqb k k').
  - destruct (String.eqb_spec k1 k) as [->|Hk1]; simpl.
    + by destruct (String.eqb_spec k k').
    + rewrite IH. destruct (String.eqb_spec k k') as [Hkk'|Hkk']; [|done].
      rewrite <- Hkk'. by destruct (String.eqb_spec k1 k).
Qed.

Lemma own_insertNew o k v (k' : string) :
  own o k = None →
  own (insertNew o k v) k' = if String.eqb k k' then Some v else own o k'.
Proof.
  induction o as [|[k1 v1] o IH]; simpl; [done|].
  destruct (String.eqb_spec k1 k) as [->|Hk1]; [done|]. intros Hnone.
  assert (own ((k1, v1) :: insertNew o k v) k'
          = if String.eqb k k' then Some v else own ((k1, v1) :: o) k') as Hskip.
  { simpl. rewrite IH by done.
    destruct (String.eqb_spec k k') as [Hkk'|?]; [|done].
    rewrite <- Hkk'. by destruct (String.eqb_spec k1 k). }
  destruct (arrayIndex k), (arrayIndex k1); try exact Hskip.
  - destruct (_ <? _)%N; [done | exact Hskip].
  - done.
Qed.

Lemma own_set o k v (k' : string) :
  own (set o k v) k' = if String.eqb k k' then Some v else own o k'.
Proof.
  unfold set, hasOwnProperty. destruct (own o k) eqn:Hk.
  - rewrite own_replace, Hk. done.
  - by apply own_insertNew.
Qed.

Lemma own_set_eq o k v : own (set o k v) k = Some v.
Proof. by rewrite own_set, String.eqb_refl. Qed.

Lemma own_set_ne o k v (k' : string) : k ≠ k' → own (set o k v) k' = own o k'.
Proof. intros Hne. rewrite own_set. by destruct (String.eqb_spec k k'). Qed.

Lemma own_delete o k (k' : string) :
  own (delete o k) k' = if String.eqb k k' then None else own o k'.
Proof.
  induction o as [|[k1 v1] o IH]; simpl.
  - by destruct (String.eqb k k').
  - destruct (String.eqb_spec k1 k) as [->|Hk1]; simpl.
    + rewrite IH. by destruct (String.eqb_spec k k').
    + rewrite IH. destruct (String.eqb_spec k k') as [Hkk'|?]; [|done].
      rewrite <- Hkk'. by destruct (String.eqb_spec k1 k).
Qed.

Lemma own_delete_ne o k (k' : string) : k ≠ k' → own (delete o k) k' = own o k'.
Proof. intros Hne. rewrite own_delete. by destruct (String.eqb_spec k k'). Qed.
End PropsFacts.

Lemma get_set_eq o k v : get (set o k v) k = v.
Proof. unfold get. by rewrite own_set_eq. Qed.

Lemma get_set_ne o k v k' : k ≠ k' → get (set o k v) k' = get o k'.
Proof. intros. unfold get. by rewrite own_set_ne. Qed.

Lemma get_delete_ne o k k' : k ≠ k' → get (delete o k) k' = get o k'.
Proof. intros. unfold get. by rewrite own_delete_ne. Qed.

Lemma strictEq_refl_prim v :
  strictEq v v = match v with VNaN | VArr _ | VObj _ => false | _ => true end.
Proof.
  destruct v; simpl; try done.
  - by destruct b.
  - apply Z.eqb_refl.
  - apply String.eqb_refl.
Qed.

Lemma strictEq_true a b : strictEq a b = true → a = b.
Proof.
  destruct a, b; simpl; try done.
  - intros ->%Bool.eqb_prop. done.
  - intros ->%Z.eqb_eq. done.
  - intros ->%String.eqb_eq. done.
Qed.

(** ** parseBoolean *)

Example parseBoolean_accepts :
  parseBoolean (VStr "true") = true /\ parseBoolean (VStr "TRUE") = true /\
  parseBoolean (VStr "1") = true /\ parseBoolean (VBool true) = true /\
  parseBoolean (VNum 1) = true /\ parseBoolean (VStr "abc") = false /\
  parseBoolean (VBool false) = false /\ parseBoolean VUndef = false.
Proof. repeat split; vm_compute; reflexivity. Qed.

Lemma parseBoolean_true_any_case s :
  toLowerCase s = "true" → parseBoolean (VStr s) = true.
Proof.
  intros Hs. unfold parseBoolean, testTrueOr1. simpl.
  assert (s +:+ "" = s) as ->.
  { clear. induction s as [|c s IH]; [done|].
    change (String c (s +:+ "") = String c s). by rewrite IH. }
  rewrite Hs. reflexivity.
Qed.

(** C7.  [parseBoolean] is a search: the pattern [/(true|1)/i] is not
    anchored, so an input whose string form merely contains ["1"] or
    ["true"] is accepted too: the strings "10" and "untrue" and the number
    10 all give [true], where the claim has [false]. *)
Theorem parseBoolean_accepts_more :
  parseBoolean (VStr "10") = true /\
  parseBoolean (VStr "untrue") = true /\
  parseBoolean (VNum 10) = true /\
  parseBoolean (VNum (-1)) = true.
Proof. repeat split; vm_compute; reflexivity. Qed.

(** ** dedupePrimitiveArray *)

Example dedupe_examples :
  dedupePrimitiveArray [VNum 1; VStr "1"; VNum 2; VNum 1] = [VNum 1; VNum 2] /\
  dedupePrimitiveArray [VStr "constructor"; VStr "constructor"] = [VStr "constructor"].
Proof. repeat split; vm_compute; reflexivity. Qed.

Lemma onlyOnes_nil : onlyOnes [].
Proof. intros k v. done. Qed.

Lemma onlyOnes_set seen k : onlyOnes seen → onlyOnes (dictSetPrim seen k (VNum 1)).
Proof.
  intros Hs k' v. unfold dictSetPrim. destruct (String.eqb k "__proto__"); [apply Hs|].
  rewrite own_set. destruct (String.eqb k k'); [congruence | apply Hs].
Qed.

Lemma seen_test seen k :
  onlyOnes seen →
  strictEq (dictGet seen k) (VNum 1) = true ↔ is_Some (own seen k).
Proof.
  intros Hs. unfold dictGet. destruct (own seen k) as [v|] eqn:Hk.
  - rewrite (Hs _ _ Hk). simpl. split; eauto.
  - split; [|by intros [? ?]]. by destruct (inherited k).
Qed.

Lemma own_dictSetPrim seen k k' :
  k ≠ "__proto__" →
  own (dictSetPrim seen k (VNum 1)) k' = if String.eqb k k' then Some (VNum 1) else own seen k'.
Proof.
  intros Hk. unfold dictSetPrim.
  destruct (String.eqb_spec k "__proto__"); [done|]. apply own_set.
Qed.

(** The loop against the spec's words, as long as no element reads
    ["__proto__"]. *)
Lemma dedupeLoop_firstOccurrences input : ∀ seen out keys,
  onlyOnes seen →
  (∀ k, is_Some (own seen k) ↔ k ∈ keys) →
  Forall (λ x, toStr x ≠ "__proto__") input →
  dedupeLoop input seen out = out ++ firstOccurrences keys input.
Proof.
  induction input as [|item rest IH]; intros seen out keys Hones Hkeys Hproto; simpl.
  - by rewrite app_nil_r.
  - apply Forall_cons in Hproto as [Hitem Hrest].
    pose proof (seen_test seen (toStr item) Hones) as Htest.
    destruct (strictEq (dictGet seen (toStr item)) (VNum 1)); simpl.
    + rewrite bool_decide_eq_true_2 by (apply Hkeys, Htest; done).
      by apply IH.
    + rewrite bool_decide_eq_false_2.
      2:{ intros Hin. apply Hkeys, Htest in Hin. done. }
      rewrite (IH _ _ (toStr item :: keys)); [by rewrite <- app_assoc | | | done].
      * by apply onlyOnes_set.
      * intros k. rewrite own_dictSetPrim by done. rewrite elem_of_cons.
        destruct (String.eqb_spec (toStr item) k) as [->|Hne].
        -- split; eauto.
        -- rewrite Hkeys. naive_solver.
Qed.

Lemma firstOccurrences_fresh l : ∀ seen x,
  x ∈ firstOccurrences seen l → toStr x ∉ seen.
Proof.
  induction l as [|y l IH]; intros seen x; simpl; [by rewrite elem_of_nil|].
  case_bool_decide as Hy.
  - apply IH.
  - rewrite elem_of_cons. intros [->|Hx]; [done|].
    apply IH in Hx. rewrite not_elem_of_cons in Hx. tauto.
Qed.

Lemma firstOccurrences_NoDup l : ∀ seen,
  NoDup (toStr <$> firstOccurrences seen l).
Proof.
  induction l as [|y l IH]; intros seen; simpl; [constructor|].
  case_bool_decide as Hy; [apply IH|].
  rewrite fmap_cons. apply NoDup_cons. split; [|apply IH].
  rewrite list_elem_of_fmap. intros (x & Hx & Hin).
  apply firstOccurrences_fresh in Hin. rewrite not_elem_of_cons in Hin.
  destruct Hin as [Hne _]. congruence.
Qed.

Lemma firstOccurrences_sublist l : ∀ seen, firstOccurrences seen l `sublist_of` l.
Proof.
  induction l as [|y l IH]; intros seen; simpl; [constructor|].
  case_bool_decide; [apply sublist_cons, IH | apply sublist_skip, IH].
Qed.

Lemma firstOccurrences_covers l : ∀ seen x,
  x ∈ l → toStr x ∈ seen ∨ toStr x ∈ toStr <$> firstOccurrences seen l.
Proof.
  induction l as [|y l IH]; intros seen x; simpl; [by rewrite elem_of_nil|].
  rewrite elem_of_cons. intros [->|Hx].
  - case_bool_decide; [by left|]. right. rewrite fmap_cons. apply elem_of_cons. by left.
  - case_bool_decide as Hy; [by apply IH|].
    destruct (IH (toStr y :: seen) x Hx) as [Hin|Hin].
    + apply elem_of_cons in Hin as [Heq|Hin]; [|by left].
      right. rewrite fmap_cons, Heq. apply elem_of_cons. by left.
    + right. rewrite fmap_cons. apply elem_of_cons. by right.
Qed.

(** What the claim of C10 says, on every input none of whose elements reads
    ["__proto__"]: the result is the input's first occurrences, in order,
    and no two of its elements have the same string form. *)
Lemma dedupePrimitiveArray_first_occurrences (inputArray : list value) :
  Forall (λ x, toStr x ≠ "__proto__") inputArray →
  dedupePrimitiveArray inputArray = firstOccurrences [] inputArray ∧
  NoDup (toStr <$> dedupePrimitiveArray inputArray) ∧
  dedupePrimitiveArray inputArray `sublist_of` inputArray ∧
  (∀ x, x ∈ inputArray → toStr x ∈ toStr <$> dedupePrimitiveArray inputArray).
Proof.
  intros Hproto.
  assert (dedupePrimitiveArray inputArray = firstOccurrences [] inputArray) as ->.
  { unfold dedupePrimitiveArray.
    rewrite (dedupeLoop_firstOccurrences _ [] [] []); [done | apply onlyOnes_nil | | done].
    intros k. simpl. rewrite elem_of_nil. split; [by intros [? ?] | done]. }
  split_and!; [done | apply firstOccurrences_NoDup | apply firstOccurrences_sublist |].
  intros x Hx. destruct (firstOccurrences_covers _ [] x Hx) as [Hin|Hin]; [|done].
  by apply elem_of_nil in Hin.
Qed.

(** The string forms of the result are those of the input, on every input. *)
Lemma dedupeLoop_keys input : ∀ seen out s,
  onlyOnes seen →
  (∀ k, is_Some (own seen k) → k ∈ toStr <$> out) →
  s ∈ toStr <$> dedupeLoop input seen out ↔ s ∈ toStr <$> out ∨ s ∈ toStr <$> input.
Proof.
  induction input as [|item rest IH]; intros seen out s Hones Hseen; simpl.
  - rewrite elem_of_nil. tauto.
  - pose proof (seen_test seen (toStr item) Hones) as Htest.
    rewrite elem_of_cons.
    destruct (strictEq (dictGet seen (toStr item)) (VNum 1)); simpl.
    + rewrite IH by done.
      assert (toStr item ∈ toStr <$> out) by (apply Hseen, Htest; done).
      naive_solver.
    + rewrite IH.
      * rewrite fmap_app, elem_of_app. simpl. rewrite list_elem_of_singleton. tauto.
      * by apply onlyOnes_set.
      * intros k. rewrite fmap_app, elem_of_app. simpl. rewrite list_elem_of_singleton.
        unfold dictSetPrim. destruct (String.eqb (toStr item) "__proto__"); [by left; apply Hseen|].
        rewrite own_set. destruct (String.eqb_spec (toStr item) k) as [->|?]; [by right|].
        left. by apply Hseen.
Qed.

Lemma dedupePrimitiveArray_keys (inputArray : list value) s :
  s ∈ toStr <$> dedupePrimitiveArray inputArray ↔ s ∈ toStr <$> inputArray.
Proof.
  unfold dedupePrimitiveArray. rewrite dedupeLoop_keys.
  - simpl. rewrite elem_of_nil. tauto.
  - apply onlyOnes_nil.
  - intros k [? ?]. done.
Qed.

(** C10.  An element that reads ["__proto__"] is never recorded in [seen]:
    the assignment [seen[item] = 1] is ignored by the inherited setter, so
    every occurrence of the element is kept, where the claim has one. *)
Theorem dedupePrimitiveArray_proto_kept_twice :
  dedupePrimitiveArray [VStr "__proto__"; VStr "a"; VStr "__proto__"]
    = [VStr "__proto__"; VStr "a"; VStr "__proto__"] /\
  ~ NoDup (toStr <$> dedupePrimitiveArray [VStr "__proto__"; VStr "a"; VStr "__proto__"]).
Proof.
  split; [vm_compute; reflexivity|].
  assert (dedupePrimitiveArray [VStr "__proto__"; VStr "a"; VStr "__proto__"]
          = [VStr "__proto__"; VStr "a"; VStr "__proto__"]) as -> by (vm_compute; reflexivity).
  simpl. intros Hnd. apply NoDup_cons in Hnd as [Hnotin _].
  apply Hnotin. right. left.
Qed.

(** ** sortComparer and sortComparers *)
Import SortService.

Section ComparerFacts.
Context {FieldType : Type}.
Variable FieldType_string : FieldType.
Variable sortByFieldType : FieldType -> value -> value -> Z -> Z.

Local Abbreviation sortComparer := (sortComparer FieldType_string sortByFieldType).
Local Abbreviation sortComparers := (sortComparers FieldType_string sortByFieldType).

Lemma sortComparer_non_neutral sortColumn dataRow1 dataRow2 querySortField result :
  sortComparer sortColumn dataRow1 dataRow2 querySortField = Some result →
  result ≠ SortDirectionNumber.neutral.
Proof.
  unfold SortService.sortComparer.
  destruct (ColumnSort.sortCol sortColumn) as [columnDef|]; [|done].
  destruct (queryFieldNames _ _ _ _) as [n1 n2].
  destruct (Column.sortComparer columnDef) as [cmp|]; simpl.
  - destruct (Z.eqb_spec (cmp (fieldValue dataRow1 n1) (fieldValue dataRow2 n2)
                            (if ColumnSort.sortAsc sortColumn then SortDirectionNumber.asc
                             else SortDirectionNumber.desc))
                SortDirectionNumber.neutral); simpl; congruence.
  - destruct (Z.eqb_spec (sortByFieldType
                            match Column.type columnDef with
                            | Some t => t | None => FieldType_string end
                            (fieldValue dataRow1 n1) (fieldValue dataRow2 n2)
                            (if ColumnSort.sortAsc sortColumn then SortDirectionNumber.asc
                             else SortDirectionNumber.desc))
                SortDirectionNumber.neutral); simpl; congruence.
Qed.

Lemma sortComparers_skip before : ∀ after dataRow1 dataRow2,
  Forall (λ c, sortComparer c dataRow1 dataRow2 None = None) before →
  sortComparers (before ++ after) dataRow1 dataRow2 = sortComparers after dataRow1 dataRow2.
Proof.
  induction before as [|c before IH]; intros after r1 r2 Hall; [done|].
  apply Forall_cons in Hall as [Hc Hall]. simpl. rewrite Hc. by apply IH.
Qed.

(** C5.  [sortComparers] gives the result of the first directive whose
    comparison is not neutral, the directives before it having been
    neutral; when every directive is neutral, and so for no directive at
    all, it gives neutral, which is zero. *)
Theorem sortComparers_first_non_neutral sortColumns dataRow1 dataRow2 :
  (∃ before sortColumn after result,
      sortColumns = before ++ sortColumn :: after ∧
      Forall (λ c, sortComparer c dataRow1 dataRow2 None = None) before ∧
      sortComparer sortColumn dataRow1 dataRow2 None = Some result ∧
      result ≠ SortDirectionNumber.neutral ∧
      sortComparers sortColumns dataRow1 dataRow2 = result)
  ∨ (Forall (λ c, sortComparer c dataRow1 dataRow2 None = None) sortColumns ∧
     sortComparers sortColumns dataRow1 dataRow2 = SortDirectionNumber.neutral ∧
     SortDirectionNumber.neutral = 0).
Proof.
  induction sortColumns as [|c rest IH].
  - right. by split; [constructor|].
  - destruct (sortComparer c dataRow1 dataRow2 None) as [result|] eqn:Hc.
    + left. exists [], c, rest, result. simpl. rewrite Hc.
      split_and!; try done. by eapply sortComparer_non_neutral.
    + destruct IH as [(before & sc & after & result & -> & Hbefore & Hsc & Hne & Hres)
                     |(Hall & Hres & Hzero)].
      * left. exists (c :: before), sc, after, result. simpl. rewrite Hc.
        split_and!; try done. by constructor.
      * right. simpl. rewrite Hc. split_and!; try done. by constructor.
Qed.

(** C4, as amended.  When the column has a custom comparer and it answers
    something else than neutral, [sortComparer] returns this very answer,
    whatever the generic comparer would say, and [sortComparers] returns
    it without a look at the later directives.  The comparer is handed the
    direction; [sortComparer] does not invert its answer, so the answer to
    an ascending and to a descending directive is the same whenever the
    comparer itself does not tell them apart. *)
Theorem sortComparer_custom_result
    (columnDef : Column.t FieldType) (customComparer : value -> value -> Z -> Z)
    (columnId : string) (sortAsc : bool) (dataRow1 dataRow2 : value)
    (later : list (ColumnSort.t FieldType)) :
  let directive asc := {| ColumnSort.columnId := columnId; ColumnSort.sortAsc := asc;
                          ColumnSort.sortCol := Some columnDef |} in
  let sortDirection := if sortAsc then SortDirectionNumber.asc
                       else SortDirectionNumber.desc in
  let names := queryFieldNames columnDef dataRow1 dataRow2 None in
  let value1 := fieldValue dataRow1 names.1 in
  let value2 := fieldValue dataRow2 names.2 in
  Column.sortComparer columnDef = Some customComparer →
  customComparer value1 value2 sortDirection ≠ SortDirectionNumber.neutral →
  sortComparer (directive sortAsc) dataRow1 dataRow2 None
    = Some (customComparer value1 value2 sortDirection) ∧
  sortComparers (directive sortAsc :: later) dataRow1 dataRow2
    = customComparer value1 value2 sortDirection ∧
  (customComparer value1 value2 SortDirectionNumber.asc
     = customComparer value1 value2 SortDirectionNumber.desc →
   sortComparer (directive true) dataRow1 dataRow2 None
     = sortComparer (directive false) dataRow1 dataRow2 None).
Proof.
  intros directive sortDirection names value1 value2 Hcustom Hresult.
  assert (∀ asc, sortComparer (directive asc) dataRow1 dataRow2 None
                 = let r := customComparer value1 value2
                              (if asc then SortDirectionNumber.asc
                               else SortDirectionNumber.desc) in
                   if negb (r =? SortDirectionNumber.neutral) then Some r else None)
    as Hunfold.
  { intros asc. unfold SortService.sortComparer, directive. simpl.
    subst value1 value2 names. destruct (queryFieldNames _ _ _ _) as [n1 n2].
    simpl. by rewrite Hcustom. }
  assert (sortComparer (directive sortAsc) dataRow1 dataRow2 None
          = Some (customComparer value1 value2 sortDirection)) as Hone.
  { rewrite Hunfold. simpl. fold sortDirection.
    by destruct (Z.eqb_spec (customComparer value1 value2 sortDirection)
                   SortDirectionNumber.neutral). }
  split_and!; [done | simpl; by rewrite Hone |].
  intros Hsame. rewrite !Hunfold. simpl. by rewrite Hsame.
Qed.
End ComparerFacts.

(** C4, the claim as it stands fails: the custom comparer receives the
    direction, and one that uses it answers with opposite signs to an
    ascending and to a descending directive on the same two rows. *)
Lemma sortComparer_custom_sign_follows_direction :
  let directive asc := {| ColumnSort.columnId := "a"; ColumnSort.sortAsc := asc;
                          ColumnSort.sortCol := Some directionColumn |} in
  sortComparer tt (fun _ _ _ _ => 0) (directive true) (VObj []) (VObj []) None = Some 1 ∧
  sortComparer tt (fun _ _ _ _ => 0) (directive false) (VObj []) (VObj []) None = Some (-1) ∧
  Z.sgn 1 ≠ Z.sgn (-1).
Proof. split_and!; [reflexivity | reflexivity | done]. Qed.

Lemma sortComparer_custom_result_witness :
  sortComparer tt (fun _ _ _ _ => 0)
    {| ColumnSort.columnId := "a"; ColumnSort.sortAsc := false;
       ColumnSort.sortCol := Some directionColumn |} (VObj []) (VObj []) None = Some (-1).
Proof.
  refine (proj1 (sortComparer_custom_result tt (fun _ _ _ _ => 0) directionColumn
                   directionComparer "a" false (VObj []) (VObj []) [] _ _)).
  - reflexivity.
  - vm_compute. discriminate.
Defined.

(** ** updateSorting *)
Section ServiceFacts.
Context {FieldType : Type}.

(** C8.  Without grid options, or without [enableSorting] in them,
    [updateSorting] throws at once: the service is as it was, and no call
    was made on a collaborator, so nothing was published. *)
Theorem updateSorting_throws_when_sorting_is_off
    (sorters : option (list CurrentSorter.t)) (emitChangedEvent triggerBackendQuery : bool)
    (s : SortService.t FieldType) :
  (∀ gridOptions, _gridOptions s = Some gridOptions → enableSorting gridOptions = false) →
  updateSorting sorters emitChangedEvent triggerBackendQuery s = (s, Throws).
Proof.
  intros Hoff. unfold updateSorting.
  destruct (_gridOptions s) as [gridOptions|]; [|done].
  by rewrite (Hoff gridOptions eq_refl).
Qed.

(** With sorting enabled, and sorters that are an array, nothing is
    thrown by the check. *)
Lemma updateSorting_checks_only_enableSorting
    (emitChangedEvent triggerBackendQuery : bool) (s : SortService.t FieldType)
    gridOptions :
  _gridOptions s = Some gridOptions → enableSorting gridOptions = true →
  updateSorting None emitChangedEvent triggerBackendQuery s = (s, Returns tt).
Proof. intros Ho He. unfold updateSorting. by rewrite Ho, He. Qed.
End ServiceFacts.

Lemma updateSorting_throws_witness :
  updateSorting (Some [ {| CurrentSorter.columnId := "a"; CurrentSorter.direction := "asc" |} ])
    true true unboundService = (unboundService, Throws).
Proof.
  apply updateSorting_throws_when_sorting_is_off.
  intros gridOptions Hopt. vm_compute in Hopt. injection Hopt as <-. reflexivity.
Defined.

(** ** convertHierarchicalViewToFlatArrayByOutputArrayReference *)

#[local] Arguments get _ _ : simpl never.
#[local] Arguments set {V} _ _ _ : simpl never.

Lemma identifiers_snoc idn out x :
  identifiers idn (out ++ [x]) = identifiers idn out ++ [getProp x idn].
Proof. unfold identifiers. by rewrite fmap_app. Qed.

Lemma strictEq_sym a b : strictEq a b = strictEq b a.
Proof.
  destruct a, b; simpl; try done.
  - by destruct b, b0.
  - apply Z.eqb_sym.
  - apply String.eqb_sym.
Qed.

Lemma height_get props k :
  (height (get props k) < height (VObj props))%nat.
Proof.
  unfold get. simpl. apply Nat.lt_succ_r.
  induction props as [|[k1 v1] props IH]; simpl; [lia|].
  destruct (String.eqb k1 k); simpl in *; lia.
Qed.

Lemma height_elem x items : x ∈ items → (height x < height (VArr items))%nat.
Proof.
  simpl. intros Hx. apply Nat.lt_succ_r.
  induction Hx; simpl; lia.
Qed.

Lemma distinct_snoc ids id :
  distinct ids → (∀ x, x ∈ ids → strictEq x id = false) → distinct (ids ++ [id]).
Proof.
  intros Hd Hnew i j x y Hij Hi Hj.
  apply lookup_app_Some in Hi as [Hi|[Hil Hi]];
    apply lookup_app_Some in Hj as [Hj|[Hjl Hj]].
  - by eapply Hd.
  - apply list_lookup_singleton_Some in Hj as [_ <-].
    apply Hnew. by eapply list_elem_of_lookup_2.
  - apply list_lookup_singleton_Some in Hi as [_ <-].
    rewrite strictEq_sym. apply Hnew. by eapply list_elem_of_lookup_2.
  - apply list_lookup_singleton_Some in Hi as [Hi' _].
    apply list_lookup_singleton_Some in Hj as [Hj' _]. lia.
Qed.

Lemma identifiers_alter idn f k out :
  (∀ x, getProp (f x) idn = getProp x idn) →
  identifiers idn (alter f k out) = identifiers idn out.
Proof.
  intros Hf. unfold identifiers. revert k.
  induction out as [|x out IH]; intros [|k]; csimpl; try done.
  - by rewrite Hf.
  - by rewrite IH.
Qed.

Lemma isRow_alter f k out :
  (∀ x, isRow x → isRow (f x)) → Forall isRow out → Forall isRow (alter f k out).
Proof.
  intros Hf Hout. revert k. induction Hout as [|x out Hx Hout IH]; intros [|k]; simpl.
  - constructor.
  - constructor.
  - constructor; [by apply Hf | done].
  - constructor; [done | apply IH].
Qed.

(** On an output array of rows the search does not throw. *)
Lemma findById_rows idn out id :
  Forall isRow out →
  (findById idn out id = Returns None ∧
   ∀ x, x ∈ identifiers idn out → strictEq x id = false)
  ∨ (∃ itm, findById idn out id = Returns (Some itm) ∧ truthy itm = true ∧
            id ∈ identifiers idn out).
Proof.
  induction 1 as [|x out Hx Hout IH]; simpl.
  - left. split; [done|]. intros x. unfold identifiers. simpl. by rewrite elem_of_nil.
  - destruct x; try done. simpl.
    destruct (strictEq (get props idn) id) eqn:Heq.
    + right. eexists. split_and!; [done..|].
      apply strictEq_true in Heq as <-. unfold identifiers. csimpl. by left.
    + destruct IH as [[-> Hnone]|(itm & -> & Htruthy & Hin)].
      * left. split; [done|]. intros x. unfold identifiers. csimpl. rewrite elem_of_cons.
        intros [->|Hin]; [done | by apply Hnone].
      * right. exists itm. split_and!; [done..|]. unfold identifiers. csimpl. by right.
Qed.

Lemma occurs_nil cn node : ¬ occurs cn node [].
Proof. intros Hoccurs. inversion Hoccurs as [? ? Hin|? ? ? Hin]; by apply elem_of_nil in Hin. Qed.

Lemma occurs_cons cn node item rest :
  occurs cn node (item :: rest) →
  (isRow node ∧ node = item) ∨
  (∃ props children, item = VObj props ∧ get props cn = VArr children ∧
                     occurs cn node children) ∨
  occurs cn node rest.
Proof.
  intros Hoccurs. inversion Hoccurs as [? Hrow Hin|props children ? Hin Hget Hbelow]; subst.
  - apply elem_of_cons in Hin as [->|Hin]; [by left|].
    right. right. by apply occurs_here.
  - apply elem_of_cons in Hin as [<-|Hin].
    + right. left. by exists props, children.
    + right. right. by eapply occurs_below.
Qed.

Section FlattenFacts.
Variables childrenPropName identifierPropName hasChildrenFlagPropName
          treeLevelPropName parentIdPropName : string.
Hypothesis id_not_level : identifierPropName ≠ treeLevelPropName.
Hypothesis id_not_parent : identifierPropName ≠ parentIdPropName.
Hypothesis id_not_flag : identifierPropName ≠ hasChildrenFlagPropName.
Hypothesis id_not_children : identifierPropName ≠ childrenPropName.
Hypothesis children_not_level : childrenPropName ≠ treeLevelPropName.
Hypothesis children_not_parent : childrenPropName ≠ parentIdPropName.

Local Abbreviation extends := (extends identifierPropName).
Local Abbreviation covers := (covers childrenPropName identifierPropName).

Lemma extends_refl outputArray :
  Forall isRow outputArray →
  distinct (identifiers identifierPropName outputArray) →
  extends outputArray outputArray.
Proof. intros. unfold Spec.extends. split_and!; [done..|reflexivity]. Qed.

Lemma extends_trans out1 out2 out3 :
  extends out1 out2 → extends out2 out3 → extends out1 out3.
Proof.
  intros (_ & _ & H12) (? & ? & H23). unfold Spec.extends.
  split_and!; [done..|by etrans].
Qed.

Lemma extends_identifier out1 out2 id :
  extends out1 out2 →
  id ∈ identifiers identifierPropName out1 → id ∈ identifiers identifierPropName out2.
Proof. intros (_ & _ & [more ->]) Hin. apply elem_of_app. by left. Qed.

Lemma markAsParent_identifier x :
  getProp (markAsParent hasChildrenFlagPropName childrenPropName x) identifierPropName
  = getProp x identifierPropName.
Proof.
  destruct x; simpl; try done.
  rewrite get_delete_ne, get_set_ne; done.
Qed.

Lemma markAsParent_row x :
  isRow x → isRow (markAsParent hasChildrenFlagPropName childrenPropName x).
Proof. by destruct x. Qed.

Section Loop.
Variable recurse : value → list value → Z → value → outcome (list value).
Variable small : list value → Prop.
Hypothesis recurse_extends :
  ∀ children outputArray treeLevel parentId,
    small children → hierarchical childrenPropName children →
    Forall isRow outputArray →
    distinct (identifiers identifierPropName outputArray) →
    ∃ outputArray', recurse (VArr children) outputArray treeLevel parentId
                    = Returns outputArray' ∧
                    extends outputArray outputArray' ∧ covers children outputArray'.

(** The children of one row, and the update of the row when it was
    pushed at [index]. *)
Lemma children_extends props outputArray (index : option nat) treeLevel parentId :
  (∀ children, get props childrenPropName = VArr children →
               small children ∧ hierarchical childrenPropName children) →
  Forall isRow outputArray →
  distinct (identifiers identifierPropName outputArray) →
  ∃ outputArray',
    match get props childrenPropName with
    | VArr children =>
        outputArray ← recurse (VArr children) outputArray treeLevel parentId;
        Returns (match index with
                 | Some k => alter (markAsParent hasChildrenFlagPropName
                                      childrenPropName) k outputArray
                 | None => outputArray
                 end)
    | _ => Returns outputArray
    end = Returns outputArray' ∧
    extends outputArray outputArray' ∧
    ∀ children, get props childrenPropName = VArr children → covers children outputArray'.
Proof.
  intros Hkids Hrows Hdist.
  destruct (get props childrenPropName) as [| | | | | |children|] eqn:Hc;
    try (by exists outputArray; split_and!; [|apply extends_refl|]).
  destruct (Hkids children eq_refl) as [Hsmall Hhier].
  destruct (recurse_extends children outputArray treeLevel parentId)
    as (out2 & -> & (Hrows2 & Hdist2 & Hpre2) & Hcovers2); [done..|].
  simpl. eexists. split; [done|]. unfold Spec.extends.
  destruct index as [k|].
  - split_and!.
    + by apply isRow_alter; [apply markAsParent_row|].
    + by rewrite identifiers_alter by apply markAsParent_identifier.
    + by rewrite identifiers_alter by apply markAsParent_identifier.
    + intros ? [= <-] node Hnode.
      rewrite identifiers_alter by apply markAsParent_identifier. by apply Hcovers2.
  - split_and!; [done..|]. by intros ? [= <-].
Qed.

Lemma flattenItems_extends items :
  hierarchical childrenPropName items →
  ∀ outputArray treeLevel parentId,
    (∀ props children, VObj props ∈ items →
                       get props childrenPropName = VArr children → small children) →
    Forall isRow outputArray →
    distinct (identifiers identifierPropName outputArray) →
    ∃ outputArray',
      flattenItems recurse childrenPropName identifierPropName hasChildrenFlagPropName
        treeLevelPropName parentIdPropName items outputArray treeLevel parentId
      = Returns outputArray' ∧
      extends outputArray outputArray' ∧ covers items outputArray'.
Proof.
  induction 1 as [|item rest Hhole _ IH|props rest Hkids _ _ IH];
    intros out lvl pid Hsmall Hrows Hdist.
  - exists out. split_and!; [done | by apply extends_refl |].
    intros node Hnode. by apply occurs_nil in Hnode.
  - simpl. rewrite Hhole.
    destruct (IH out lvl pid) as (out' & -> & Hext & Hcov); [|done..|].
    { intros props children Hin. apply Hsmall. by right. }
    exists out'. split_and!; [done..|].
    intros node [[Hrow ->]|[(props & ? & -> & _)|Hrest]]%occurs_cons;
      [by destruct item | done | by apply Hcov].
  - assert (∀ children, get props childrenPropName = VArr children →
              small children ∧ hierarchical childrenPropName children) as Hkids'.
    { intros children Hc. split; [|by apply Hkids]. eapply Hsmall; [by left|done]. }
    assert (∀ props' children, VObj props' ∈ rest →
              get props' childrenPropName = VArr children → small children) as Hrest.
    { intros props' children Hin. apply Hsmall. by right. }
    (* once the row is in the output, the rest of the loop *)
    assert (∀ out1 index,
              extends out out1 →
              get props identifierPropName ∈ identifiers identifierPropName out1 →
              ∃ out',
                (outputArray ←
                   (match get props childrenPropName with
                    | VArr children =>
                        outputArray ← recurse (VArr children) out1 (lvl + 1)
                                         (get props identifierPropName);
                        Returns (match index with
                                 | Some k => alter (markAsParent hasChildrenFlagPropName
                                                      childrenPropName) k outputArray
                                 | None => outputArray
                                 end)
                    | _ => Returns out1
                    end);
                 flattenItems recurse childrenPropName identifierPropName
                   hasChildrenFlagPropName treeLevelPropName parentIdPropName rest
                   outputArray lvl pid) = Returns out' ∧
                extends out out' ∧ covers (VObj props :: rest) out') as Hafter.
    { intros out1 index Hext1 Hid1. pose proof Hext1 as (Hrows1 & Hdist1 & _).
      destruct (children_extends props out1 index (lvl + 1)
                  (get props identifierPropName) Hkids' Hrows1 Hdist1)
        as (out2 & -> & Hext2 & Hcov2).
      simpl. pose proof Hext2 as (Hrows2 & Hdist2 & _).
      destruct (IH out2 lvl pid Hrest Hrows2 Hdist2) as (out3 & -> & Hext3 & Hcov3).
      exists out3. split_and!; [done | by do 2 (eapply extends_trans; [done|]) |].
      intros node [[Hrow ->]|[(props' & children & [= <-] & Hget & Hbelow)|Hnode]]%occurs_cons.
      - simpl. by do 2 (eapply extends_identifier; [done|]).
      - eapply extends_identifier; [done|]. by eapply Hcov2.
      - by apply Hcov3. }
    simpl.
    destruct (findById_rows identifierPropName out (get props identifierPropName) Hrows)
      as [[-> Hfresh]|(itm & -> & Htruthy & Hfound)]; simpl.
    + rewrite !get_set_ne by done.
      apply (Hafter _ (Some (length out))).
      * unfold Spec.extends. split_and!.
        -- apply Forall_app. split; [done|]. by repeat constructor.
        -- rewrite identifiers_snoc. simpl.
           rewrite get_set_ne, get_set_ne by done. by apply distinct_snoc.
        -- rewrite identifiers_snoc. by apply prefix_app_r.
      * rewrite identifiers_snoc. simpl. rewrite !get_set_ne by done.
        apply elem_of_app. right. by left.
    + rewrite Htruthy. simpl. apply (Hafter _ None); [by apply extends_refl | done].
Qed.
End Loop.

Lemma flatten_unfold options fuel items outputArray treeLevel parentId :
  convertHierarchicalViewToFlatArrayByOutputArrayReference (S fuel) (VArr items)
    outputArray options treeLevel parentId
  = flattenItems
      (fun children outputArray treeLevel parentId =>
         convertHierarchicalViewToFlatArrayByOutputArrayReference fuel
           children outputArray options treeLevel parentId)
      (orDefault (Utilities.childrenPropName options) "children")
      (orDefault (Utilities.identifierPropName options) "id")
      (orDefault (Utilities.hasChildrenFlagPropName options) "__hasChildren")
      (orDefault (Utilities.treeLevelPropName options) "__treeLevel")
      (orDefault (Utilities.parentIdPropName options) "__parentId")
      items outputArray treeLevel parentId.
Proof. reflexivity. Qed.

(** With fuel for the depth of the array, the call returns. *)
Lemma flatten_extends options fuel :
  orDefault (Utilities.childrenPropName options) "children" = childrenPropName →
  orDefault (Utilities.identifierPropName options) "id" = identifierPropName →
  orDefault (Utilities.hasChildrenFlagPropName options) "__hasChildren"
    = hasChildrenFlagPropName →
  orDefault (Utilities.treeLevelPropName options) "__treeLevel" = treeLevelPropName →
  orDefault (Utilities.parentIdPropName options) "__parentId" = parentIdPropName →
  ∀ items outputArray treeLevel parentId,
    hierarchical childrenPropName items →
    Forall (λ item, (height item ≤ fuel)%nat) items →
    Forall isRow outputArray →
    distinct (identifiers identifierPropName outputArray) →
    ∃ outputArray',
      convertHierarchicalViewToFlatArrayByOutputArrayReference (S fuel) (VArr items)
        outputArray options treeLevel parentId = Returns outputArray' ∧
      extends outputArray outputArray' ∧ covers items outputArray'.
Proof.
  intros Hc Hi Hf Hl Hp.
  induction fuel as [|fuel IH]; intros items out lvl pid Hhier Hheight Hrows Hdist.
  - rewrite flatten_unfold, Hc, Hi, Hf, Hl, Hp.
    apply (flattenItems_extends _ (λ _, False)); [by intros | done | | done..].
    intros props children Hin _.
    rewrite Forall_forall in Hheight. apply Hheight in Hin. simpl in Hin. lia.
  - rewrite flatten_unfold, Hc, Hi, Hf, Hl, Hp.
    apply (flattenItems_extends _ (λ children, Forall (λ item, (height item ≤ fuel)%nat)
                                                 children)); [|done| |done..].
    + intros children out' lvl' pid' Hsmall Hhier' Hrows' Hdist'. by apply IH.
    + intros props children Hin Hget.
      rewrite Forall_forall in Hheight. apply Hheight in Hin.
      pose proof (height_get props childrenPropName) as Hlt. rewrite Hget in Hlt.
      apply Forall_forall. intros item Hitem. apply height_elem in Hitem. lia.
Qed.
End FlattenFacts.

Ltac hierarchical_by_computation :=
  repeat first
    [ apply hierarchical_nil
    | apply hierarchical_hole; [reflexivity|]
    | apply hierarchical_row;
      [ let Hc := fresh "Hc" in
        intros ? Hc; vm_compute in Hc; first [discriminate Hc | injection Hc as <-] |] ].

Lemma distinct_nil : distinct [].
Proof. intros i j x y _ Hi. done. Qed.



Example flatten_treeWithDuplicates :
  convertHierarchicalViewToFlatArray treeWithDuplicates noOptions
  = Returns
      [ VObj [("id", VNum 1); ("__treeLevel", VNum 0); ("__parentId", VNull);
              ("__hasChildren", VBool true)];
        VObj [("id", VNum 2); ("__treeLevel", VNum 1); ("__parentId", VNum 1)] ].
Proof. vm_compute. reflexivity. Qed.

(** ** convertParentChildFlatArrayToHierarchicalView *)

Lemma updatedFrom_refl n touched st : updatedFrom n touched st st.
Proof. split_and!; [done..|]. intros l o Hl. by exists o. Qed.

Lemma updatedFrom_trans n touched st1 st2 st3 :
  updatedFrom n touched st1 st2 → updatedFrom n touched st2 st3 →
  updatedFrom n touched st1 st3.
Proof.
  intros (Hlen12 & Hlow12 & Hup12) (Hlen23 & Hlow23 & Hup23). split_and!.
  - congruence.
  - intros l Hl. rewrite Hlow23, Hlow12; done.
  - intros l o Hl. destruct (Hup12 l o Hl) as (o2 & Hl2 & Hk2).
    destruct (Hup23 l o2 Hl2) as (o3 & Hl3 & Hk3).
    exists o3. split; [done|]. intros k Hk. rewrite Hk3, Hk2; done.
Qed.

(** One row, from [n] on, is replaced by a row that differs on [touched]. *)
Lemma updatedFrom_insert n touched st (p : nat) po po' :
  (n ≤ p)%nat → st !! p = Some po →
  (∀ k, k ∉ touched → own po' k = own po k) →
  updatedFrom n touched st (<[p := po']> st).
Proof.
  intros Hp Hpo Hsame. split_and!.
  - apply length_insert.
  - intros l Hl. apply list_lookup_insert_ne. lia.
  - intros l o Hl. destruct (decide (p = l)) as [<-|Hne].
    + exists po'. split; [|by simplify_eq].
      apply list_lookup_insert_eq. by eapply lookup_lt_Some.
    + exists o. split; [|done]. by rewrite list_lookup_insert_ne.
Qed.

(** *** The entries of a property list *)
Section EntryFacts.
Context {V : Type}.
Implicit Types o : list (string * V).

Lemma own_elem o k v : own o k = Some v → (k, v) ∈ o.
Proof.
  induction o as [|[k1 v1] o IH]; simpl; [done|].
  destruct (String.eqb_spec k1 k) as [->|Hne].
  - intros [= ->]. by left.
  - intros Hown. right. by apply IH.
Qed.

Lemma elem_of_replace o k0 v0 k v :
  (k, v) ∈ replace o k0 v0 → (k, v) ∈ o ∨ (k = k0 ∧ v = v0).
Proof.
  induction o as [|[k1 v1] o IH]; simpl; [by left|].
  destruct (String.eqb_spec k1 k0) as [->|Hne].
  - intros [[= -> ->]|Hin]%elem_of_cons; [by right|]. left. by right.
  - intros [[= -> ->]|Hin]%elem_of_cons; [left; by left|].
    destruct (IH Hin) as [?|?]; [left; by right|by right].
Qed.

Lemma elem_of_insertNew o k0 v0 k v :
  (k, v) ∈ insertNew o k0 v0 → (k, v) ∈ o ∨ (k = k0 ∧ v = v0).
Proof.
  induction o as [|[k1 v1] o IH]; simpl.
  - intros [= -> ->]%list_elem_of_singleton. by right.
  - destruct (arrayIndex k0) as [i0|], (arrayIndex k1) as [i1|];
      try destruct (i0 <? i1)%N;
      try (intros [[= -> ->]|Hin]%elem_of_cons; [by right|by left]);
      (intros [[= -> ->]|Hin]%elem_of_cons; [left; by left|]);
      (destruct (IH Hin) as [?|?]; [left; by right|by right]).
Qed.

Lemma elem_of_set o k0 v0 k v :
  (k, v) ∈ set o k0 v0 → (k, v) ∈ o ∨ (k = k0 ∧ v = v0).
Proof.
  unfold set. destruct (hasOwnProperty o k0);
    [apply elem_of_replace | apply elem_of_insertNew].
Qed.

Lemma elem_of_delete o k0 k v : (k, v) ∈ delete o k0 → (k, v) ∈ o.
Proof.
  induction o as [|[k1 v1] o IH]; simpl; [done|].
  destruct (String.eqb k1 k0).
  - intros Hin. right. by apply IH.
  - intros [[= -> ->]|Hin]%elem_of_cons; [by left|]. right. by apply IH.
Qed.
End EntryFacts.

Lemma pushChild_own c po item po' k :
  pushChild c po item = Returns po' → k ≠ c → own po' k = own po k.
Proof.
  unfold pushChild. intros Hpush Hk.
  destruct (own po c) as [[v|items]|]; [destruct v| |destruct (inherited c)];
    simplify_eq; by rewrite own_set_ne.
Qed.

(** The rows that a row holds after a push: the pushed one, and those it
    held. *)
Lemma pushChild_entries c po item po' k items :
  pushChild c po item = Returns po' → (k, CKids items) ∈ po' →
  ∀ r : nat, inr r ∈ items →
    r = item ∨ ∃ k0 items0, (k0, CKids items0) ∈ po ∧ inr r ∈ items0.
Proof.
  unfold pushChild. intros Hpush Hin r Hr.
  destruct (own po c) as [[v|items1]|] eqn:Hc;
    [destruct v| |destruct (inherited c)]; simplify_eq;
    (apply elem_of_set in Hin as [Hin|[-> [= ->]]]; [right; by eexists _, _|]).
  - apply elem_of_app in Hr as [Hr|Hr%list_elem_of_singleton]; [|left; congruence].
    by apply list_elem_of_fmap in Hr as (? & ? & ?).
  - apply elem_of_app in Hr as [Hr|Hr%list_elem_of_singleton]; [|left; congruence].
    right. exists c, items1. split; [by apply own_elem|done].
  - apply list_elem_of_singleton in Hr. left. congruence.
Qed.

(** What a call of [attach] comes to: nothing, or a push to the row that
    [all] gives for the key. *)
Lemma attach_cases childrenPropName all proto key (item : loc) st roots st' r :
  attach childrenPropName all proto key item st roots = (st', r) →
  (st' = st ∧ (∀ roots', r = Returns roots' → roots' = roots)) ∨
  ∃ (p : loc) po po',
    parentFor all proto key = Some p ∧ st !! p = Some po ∧
    pushChild childrenPropName po item = Returns po' ∧
    st' = <[p := po']> st ∧ r = Returns roots.
Proof.
  assert (∀ p : loc, parentFor all proto key = Some p →
            pushTo childrenPropName p item st roots = (st', r) →
            (st' = st ∧ (∀ roots', r = Returns roots' → roots' = roots)) ∨
            ∃ (p : loc) po po',
              parentFor all proto key = Some p ∧ st !! p = Some po ∧
              pushChild childrenPropName po item = Returns po' ∧
              st' = <[p := po']> st ∧ r = Returns roots) as Hpush.
  { intros p Hp. unfold pushTo. destruct (st !! p) as [po|] eqn:Hpo.
    - destruct (pushChild childrenPropName po item) as [po'| |] eqn:Hpushed;
        intros [= <- <-]; [|by left..].
      right. by exists p, po, po'.
    - intros [= <- <-]. by left. }
  unfold attach. destruct (own all key) as [p|] eqn:Hown.
  { apply Hpush. unfold parentFor. by rewrite Hown. }
  destruct proto as [q|].
  - destruct (st !! q) as [qo|]; [|intros [= <- <-]; by left].
    destruct (own qo key) as [[v|items]|].
    + destruct (isPrimitive v); intros [= <- <-]; by left.
    + intros [= <- <-]. by left.
    + destruct (String.eqb_spec key "__proto__") as [->|Hne].
      * apply Hpush. unfold parentFor. by rewrite Hown.
      * destruct (inherited key); intros [= <- <-]; left; split; try done;
          by intros ? [= <-].
  - destruct (inherited key); intros [= <- <-]; left; split; try done;
      by intros ? [= <-].
Qed.

Section ConnectFacts.
Variables childrenPropName parentPropName : string.
Variable all : list (string * loc).
Variable proto : option loc.
Variable n : nat.
Variable st0 : store.
Variable R : loc → loc → Prop.
Hypothesis all_fresh : ∀ k (l : loc), own all k = Some l → (n ≤ l)%nat.
Hypothesis proto_fresh : ∀ q : loc, proto = Some q → (n ≤ q)%nat.

Local Abbreviation touched := [childrenPropName; "__treeLevel"; "__hasChildren"].
Local Abbreviation parentKey := (λ o, cellStr (cellGet o parentPropName)).

Hypothesis parent_not_touched : parentPropName ∉ touched.

Lemma parentFor_fresh key (p : loc) : parentFor all proto key = Some p → (n ≤ p)%nat.
Proof.
  unfold parentFor. destruct (own all key) as [p'|] eqn:Hown.
  - intros [= <-]. by eapply all_fresh.
  - destruct (String.eqb key "__proto__"); [apply proto_fresh | done].
Qed.

Lemma delete_bookkeeping_updated st (item : loc) :
  (n ≤ item)%nat →
  updatedFrom n touched st
    (alter (λ o, delete (delete o "__treeLevel") "__hasChildren") item st).
Proof.
  intros Hitem. split_and!.
  - apply length_alter.
  - intros l Hl. apply list_lookup_alter_ne. lia.
  - intros l o Hl. destruct (decide (item = l)) as [<-|Hne].
    + eexists. split; [by rewrite list_lookup_alter_eq, Hl|].
      intros k Hk. repeat rewrite not_elem_of_cons in Hk. destruct Hk as (_ & ? & ? & _).
      rewrite !own_delete_ne; done.
    + exists o. split; [|done]. by rewrite list_lookup_alter_ne.
Qed.

Lemma delete_bookkeeping_kids st (item : loc) :
  kidsRel n R st →
  kidsRel n R (alter (λ o, delete (delete o "__treeLevel") "__hasChildren") item st).
Proof.
  intros Hkids l o k items r Hl Ho Hk Hr.
  destruct (decide (item = l)) as [<-|Hne].
  - rewrite list_lookup_alter_eq in Ho.
    destruct (st !! item) as [o0|] eqn:Ho0; simplify_eq/=.
    do 2 apply elem_of_delete in Hk. by eapply Hkids.
  - rewrite list_lookup_alter_ne in Ho by done. by eapply Hkids.
Qed.

Lemma isRootRow_rootLike o :
  isRootRow parentPropName o = true ↔ rootLike parentPropName o.
Proof.
  unfold isRootRow, rootLike. destruct (own o parentPropName) as [[v|items]|].
  - destruct v; split; try done; try (by intros [?|?]); by right.
  - split; [done | by intros [?|?]].
  - split; [by left | done].
Qed.

Lemma attach_invariant key (item : loc) st roots st' r :
  attach childrenPropName all proto key item st roots = (st', r) →
  (∀ p, parentFor all proto key = Some p → R p item) →
  kidsRel n R st →
  updatedFrom n touched st st' ∧ kidsRel n R st' ∧
  ∀ roots', r = Returns roots' → roots' = roots.
Proof.
  intros Hattach HR Hkids.
  destruct (attach_cases _ _ _ _ _ _ _ _ _ Hattach)
    as [[-> Hroots]|(p & po & po' & Hp & Hpo & Hpush & -> & ->)].
  { split_and!; [apply updatedFrom_refl|done..]. }
  pose proof (parentFor_fresh _ _ Hp) as Hfresh.
  split_and!.
  - apply (updatedFrom_insert _ _ _ _ po); [done..|].
    intros k Hk. eapply pushChild_own; [done|].
    rewrite not_elem_of_cons in Hk. tauto.
  - intros l o' k items r0 Hl Ho' Hk Hr.
    destruct (decide (p = l)) as [<-|Hne].
    + rewrite list_lookup_insert_eq in Ho' by (by eapply lookup_lt_Some).
      simplify_eq.
      destruct (pushChild_entries _ _ _ _ _ _ Hpush Hk r0 Hr)
        as [->|(k0 & items0 & Hk0 & Hr0)]; [by apply HR|]. by eapply Hkids.
    + rewrite list_lookup_insert_ne in Ho' by done. by eapply Hkids.
  - by intros roots' [= <-].
Qed.

(** A row of [all] in the store of the loop, and what it was when the loop
    started: the parent property is the same. *)
Lemma row_of_loop st (item : loc) o :
  updatedFrom n touched st0 st → st !! item = Some o →
  ∃ o0, st0 !! item = Some o0 ∧
        isRootRow parentPropName o = isRootRow parentPropName o0 ∧
        parentKey o = parentKey o0.
Proof.
  intros (Hlen & _ & Hsame) Ho.
  assert (is_Some (st0 !! item)) as [o0 Ho0].
  { apply lookup_lt_is_Some. apply lookup_lt_Some in Ho. lia. }
  destruct (Hsame item o0 Ho0) as (o' & Ho' & Hown). simplify_eq.
  exists o0. split; [done|]. unfold isRootRow, cellGet.
  by rewrite (Hown _ parent_not_touched).
Qed.

Lemma row_of_loop_own st (item : loc) o o0 k :
  updatedFrom n touched st0 st → st !! item = Some o → st0 !! item = Some o0 →
  k ∉ touched → own o k = own o0 k.
Proof.
  intros (_ & _ & Hsame) Ho Ho0 Hk.
  destruct (Hsame item o0 Ho0) as (o' & Ho' & Hown). simplify_eq. by apply Hown.
Qed.

Lemma connect_invariant ids : ∀ st roots st' r,
  connect childrenPropName parentPropName all proto ids st roots = (st', r) →
  updatedFrom n touched st0 st →
  kidsRel n R st →
  (∀ id (item : loc) o0 p,
     id ∈ ids → own all id = Some item → st0 !! item = Some o0 →
     isRootRow parentPropName o0 = false →
     parentFor all proto (parentKey o0) = Some p → R p item) →
  updatedFrom n touched st0 st' ∧
  kidsRel n R st' ∧
  (∀ roots', r = Returns roots' →
     ∀ x : loc, x ∈ roots' →
       x ∈ roots ∨
       ∃ id o0, id ∈ ids ∧ own all id = Some x ∧ st0 !! x = Some o0 ∧
                rootLike parentPropName o0).
Proof.
  induction ids as [|id rest IH]; intros st roots st' r Hconnect Hup Hkids HR.
  { simpl in Hconnect. simplify_eq. split_and!; [done..|].
    intros roots' [= <-] x Hx. by left. }
  simpl in Hconnect.
  destruct (own all id) as [item|] eqn:Hitem.
  2:{ simplify_eq. by split_and!. }
  pose proof (all_fresh _ _ Hitem) as Hitem_fresh.
  destruct (st !! item) as [o|] eqn:Ho.
  2:{ simplify_eq. by split_and!. }
  destruct (row_of_loop _ _ _ Hup Ho) as (o0 & Ho0 & Hroot0 & Hkey0).
  destruct (rootTestThrows parentPropName o).
  { simplify_eq. by split_and!. }
  (* the linking step *)
  assert (∃ st1 r1,
            (if isRootRow parentPropName o then (st, Returns (roots ++ [item]))
             else attach childrenPropName all proto (parentKey o) item st roots)
            = (st1, r1) ∧
            updatedFrom n touched st st1 ∧ kidsRel n R st1 ∧
            ∀ roots1, r1 = Returns roots1 →
              ∀ x : loc, x ∈ roots1 →
                x ∈ roots ∨ (x = item ∧ rootLike parentPropName o0))
    as (st1 & r1 & Hlinked & Hup1 & Hkids1 & Hroots1).
  { destruct (isRootRow parentPropName o) eqn:Hroot.
    - eexists _, _. split; [done|]. split_and!; [apply updatedFrom_refl | done |].
      intros roots1 [= <-] x [Hx|Hx%list_elem_of_singleton]%elem_of_app; [by left|].
      right. split; [done|]. apply isRootRow_rootLike. by rewrite <- Hroot0.
    - destruct (attach _ _ _ _ _ _ _) as [st1 r1] eqn:Hattach.
      eexists _, _. split; [done|].
      destruct (attach_invariant _ _ _ _ _ _ Hattach) as (Hup1 & Hkids1 & Hroots1);
        [|done|].
      { intros p Hp. apply (HR id item o0 p); [by left|done..| |by rewrite <- Hkey0].
        by rewrite <- Hroot0. }
      split_and!; [done..|]. intros roots1 Hr1 x Hx.
      rewrite (Hroots1 _ Hr1) in Hx. by left. }
  rewrite Hlinked in Hconnect.
  destruct r1 as [roots1| |].
  - pose proof (delete_bookkeeping_updated st1 item Hitem_fresh) as Hup2.
    pose proof (delete_bookkeeping_kids st1 item Hkids1) as Hkids2.
    destruct (IH _ _ _ _ Hconnect) as (Hup3 & Hkids3 & Hroots3); [|done| |].
    { eapply updatedFrom_trans; [done|]. by eapply updatedFrom_trans. }
    { intros id' item' o0' p Hid'. apply HR. by right. }
    split_and!; [done..|].
    intros roots' -> x Hx.
    destruct (Hroots3 _ eq_refl x Hx) as [Hx1|(id' & o0' & Hid' & ? & ? & ?)].
    + destruct (Hroots1 _ eq_refl x Hx1) as [?|[-> Hroot]]; [by left|].
      right. exists id, o0. split_and!; [by left|done..].
    + right. exists id', o0'. split_and!; [by right|done..].
  - simplify_eq. split_and!; [by eapply updatedFrom_trans|done..].
  - simplify_eq. split_and!; [by eapply updatedFrom_trans|done..].
Qed.

(** What each update of the loop keeps, the loop keeps. *)
Lemma connect_preserves (J : store → Prop) :
  (∀ st (p item : loc) po po',
      J st → st !! p = Some po → pushChild childrenPropName po item = Returns po' →
      J (<[p := po']> st)) →
  (∀ st (item : loc),
      J st → J (alter (λ o, delete (delete o "__treeLevel") "__hasChildren") item st)) →
  ∀ ids st roots st' r,
    connect childrenPropName parentPropName all proto ids st roots = (st', r) →
    J st → J st'.
Proof.
  intros Jpush Jdelete ids.
  induction ids as [|id rest IH]; intros st roots st' r Hconnect HJ; simpl in Hconnect.
  { by simplify_eq. }
  destruct (own all id) as [item|]; [|by simplify_eq].
  destruct (st !! item) as [o|]; [|by simplify_eq].
  destruct (rootTestThrows parentPropName o); [by simplify_eq|].
  destruct (isRootRow parentPropName o).
  - eapply IH; [done|]. by apply Jdelete.
  - destruct (attach _ _ _ _ _ _ _) as [st1 r1] eqn:Hattach.
    destruct (attach_cases _ _ _ _ _ _ _ _ _ Hattach)
      as [[-> Hroots]|(p & po & po' & Hp & Hpo & Hpush & -> & ->)].
    + destruct r1; [|by simplify_eq..]. eapply IH; [done|]. by apply Jdelete.
    + eapply IH; [done|]. apply Jdelete. by eapply Jpush.
Qed.

Lemma pushChild_rows po (item : loc) po' :
  (∀ c, own po childrenPropName = Some c → ∃ refs : list loc, c = CKids (inr <$> refs)) →
  pushChild childrenPropName po item = Returns po' →
  ∀ c, own po' childrenPropName = Some c → ∃ refs : list loc, c = CKids (inr <$> refs).
Proof.
  unfold pushChild. intros Hpo Hpush c Hc.
  destruct (own po childrenPropName) as [c0|] eqn:Hc0.
  - destruct (Hpo c0 eq_refl) as (refs & ->). simplify_eq.
    rewrite own_set_eq in Hc. simplify_eq. exists (refs ++ [item]). by rewrite fmap_app.
  - destruct (inherited childrenPropName); simplify_eq.
    rewrite own_set_eq in Hc. simplify_eq. by exists [item].
Qed.

Lemma connect_childrenAreRows ids st roots st' r :
  connect childrenPropName parentPropName all proto ids st roots = (st', r) →
  childrenAreRows childrenPropName n st → childrenAreRows childrenPropName n st'.
Proof.
  apply (connect_preserves (childrenAreRows childrenPropName n)).
  - intros st1 p item po po' HJ Hpo Hpush l o c Hl Ho Hc.
    destruct (decide (p = l)) as [<-|Hne].
    + rewrite list_lookup_insert_eq in Ho by (by eapply lookup_lt_Some). simplify_eq.
      eapply pushChild_rows; [|done..]. intros c0 Hc0. by eapply HJ.
    + rewrite list_lookup_insert_ne in Ho by done. by eapply HJ.
  - intros st1 item HJ l o c Hl Ho Hc.
    destruct (decide (item = l)) as [<-|Hne].
    + rewrite list_lookup_alter_eq in Ho.
      destruct (st1 !! item) as [o1|] eqn:Ho1; simplify_eq/=.
      rewrite !own_delete in Hc. repeat case_match; simplify_eq. by eapply HJ.
    + rewrite list_lookup_alter_ne in Ho by done. by eapply HJ.
Qed.

Lemma pushChild_array po (item : loc) po' c :
  pushChild childrenPropName po item = Returns po' →
  own po' childrenPropName = Some c → ∃ items, c = CKids items.
Proof.
  unfold pushChild. intros Hpush Hc.
  destruct (own po childrenPropName) as [[v|items]|];
    [destruct v| |destruct (inherited childrenPropName)]; simplify_eq;
    rewrite own_set_eq in Hc; simplify_eq; by eexists.
Qed.

Lemma childrenAreArrays_insert st (p item : loc) po po' :
  childrenAreArrays childrenPropName n st → st !! p = Some po →
  pushChild childrenPropName po item = Returns po' →
  childrenAreArrays childrenPropName n (<[p := po']> st).
Proof.
  intros HJ Hpo Hpush l o c Hl Ho Hc.
  destruct (decide (p = l)) as [<-|Hne].
  - rewrite list_lookup_insert_eq in Ho by (by eapply lookup_lt_Some). simplify_eq.
    left. by eapply pushChild_array.
  - rewrite list_lookup_insert_ne in Ho by done. by eapply HJ.
Qed.

Lemma childrenAreArrays_delete st (item : loc) :
  childrenAreArrays childrenPropName n st →
  childrenAreArrays childrenPropName n
    (alter (λ o, delete (delete o "__treeLevel") "__hasChildren") item st).
Proof.
  intros HJ l o c Hl Ho Hc.
  destruct (decide (item = l)) as [<-|Hne].
  - rewrite list_lookup_alter_eq in Ho.
    destruct (st !! item) as [o1|] eqn:Ho1; simplify_eq/=.
    rewrite !own_delete in Hc. repeat case_match; simplify_eq. by eapply HJ.
  - rewrite list_lookup_alter_ne in Ho by done. by eapply HJ.
Qed.

Lemma attach_without_prototype key (item : loc) st roots :
  proto = None →
  attach childrenPropName all proto key item st roots =
  match own all key with
  | Some p => pushTo childrenPropName p item st roots
  | None => if inherited key then (st, Stuck) else (st, Returns roots)
  end.
Proof. intros Hproto. unfold attach. by rewrite Hproto. Qed.

(** The loop does not leave the model when [all] has no prototype row, the
    rows of [all] are in the store, and no parent id names a property that
    [all] inherits; it throws only when a children property is not an array,
    or is a name that rows inherit, or a row has a property [hasOwnProperty]
    of its own. *)
Lemma connect_progress ids : ∀ st roots,
  updatedFrom n touched st0 st →
  proto = None →
  (∀ id, id ∈ ids → is_Some (own all id)) →
  (∀ k (l : loc), own all k = Some l → is_Some (st0 !! l)) →
  (∀ id (item : loc) o0,
     id ∈ ids → own all id = Some item → st0 !! item = Some o0 →
     isRootRow parentPropName o0 = false → inherited (parentKey o0) = false) →
  ∃ st' r,
    connect childrenPropName parentPropName all proto ids st roots = (st', r) ∧
    r ≠ Stuck ∧
    (inherited childrenPropName = false → childrenAreArrays childrenPropName n st →
     (∀ k (l : loc) o0, own all k = Some l → st0 !! l = Some o0 →
                        own o0 "hasOwnProperty" = None) →
     ∃ roots', r = Returns roots').
Proof.
  intros st roots Hup Hproto. revert st roots Hup.
  induction ids as [|id rest IH]; intros st roots Hup Hids Hrows Hkeys.
  { eexists _, _. split; [done|]. split; [done|]. intros _ _ _. by eexists. }
  simpl. destruct (Hids id) as [item Hitem]; [by left|]. rewrite Hitem.
  pose proof (all_fresh _ _ Hitem) as Hitem_fresh.
  assert (∀ l : loc, is_Some (st0 !! l) → is_Some (st !! l)) as Hstore.
  { intros l Hl. apply lookup_lt_is_Some. apply lookup_lt_is_Some in Hl.
    destruct Hup as (Hlen & _). lia. }
  destruct (Hstore item (Hrows _ _ Hitem)) as [o Ho]. rewrite Ho.
  destruct (row_of_loop _ _ _ Hup Ho) as (o0 & Ho0 & Hroot0 & Hkey0).
  assert (∀ st2 roots2,
            updatedFrom n touched st st2 →
            ∃ st' r,
              connect childrenPropName parentPropName all proto rest
                (alter (λ o, delete (delete o "__treeLevel") "__hasChildren") item st2)
                roots2 = (st', r) ∧
              r ≠ Stuck ∧
              (inherited childrenPropName = false →
               childrenAreArrays childrenPropName n st2 →
               (∀ k (l : loc) o0, own all k = Some l → st0 !! l = Some o0 →
                                  own o0 "hasOwnProperty" = None) →
               ∃ roots', r = Returns roots'))
    as Hrest.
  { intros st2 roots2 Hup2.
    destruct (IH (alter (λ o, delete (delete o "__treeLevel") "__hasChildren") item st2)
                roots2) as (st' & r & Hconnect & Hstuck & Hreturns).
    - eapply updatedFrom_trans; [done|]. eapply updatedFrom_trans; [done|].
      by apply delete_bookkeeping_updated.
    - intros id' Hid'. apply Hids. by right.
    - done.
    - intros id' item' o0' Hid'. apply Hkeys. by right.
    - exists st', r. split_and!; [done..|]. intros Hcn HJ Hcall.
      apply Hreturns; [done| |done]. by apply childrenAreArrays_delete. }
  destruct (rootTestThrows parentPropName o) eqn:Hthrows.
  { eexists _, _. split; [done|]. split; [done|]. intros Hcn _ Hcall.
    assert (own o "hasOwnProperty" = None) as Hnone.
    { rewrite (row_of_loop_own _ _ _ _ "hasOwnProperty" Hup Ho Ho0); [by eapply Hcall|].
      repeat rewrite not_elem_of_cons. split_and!; [|done..|apply not_elem_of_nil].
      by intros <-. }
    unfold rootTestThrows, hasOwnProperty in Hthrows. rewrite Hnone in Hthrows.
    by destruct (own o parentPropName) as [[[]|]|]. }
  destruct (isRootRow parentPropName o) eqn:Hroot.
  { destruct (Hrest st (roots ++ [item])) as (st' & r & ? & ? & ?);
      [apply updatedFrom_refl|]. by exists st', r. }
  rewrite (attach_without_prototype _ _ _ _ Hproto).
  destruct (own all (parentKey o)) as [p|] eqn:Hp.
  - unfold pushTo. destruct (Hstore p (Hrows _ _ Hp)) as [po Hpo]. rewrite Hpo.
    destruct (pushChild childrenPropName po item) as [po'| |] eqn:Hpush.
    + destruct (Hrest (<[p := po']> st) roots) as (st' & r & Hconnect & Hstuck & Hreturns).
      { apply (updatedFrom_insert _ _ _ _ po); [by eapply all_fresh|done|].
        intros k Hk. eapply pushChild_own; [done|].
        rewrite not_elem_of_cons in Hk. tauto. }
      exists st', r. split_and!; [done..|]. intros Hcn HJ Hcall.
      apply Hreturns; [done| |done]. by eapply childrenAreArrays_insert.
    + eexists _, _. split; [done|]. split; [done|]. intros Hcn HJ _.
      unfold pushChild in Hpush. rewrite Hcn in Hpush.
      destruct (own po childrenPropName) as [c|] eqn:Hc; [|done].
      destruct (HJ p po c (all_fresh _ _ Hp) Hpo Hc) as [[items ->]|[elems ->]]; done.
    + unfold pushChild in Hpush.
      destruct (own po childrenPropName) as [[v|items]|];
        [destruct v| |destruct (inherited childrenPropName)]; done.
  - rewrite Hkey0, (Hkeys id item o0); [|by left|done..|by rewrite <- Hroot0].
    destruct (Hrest st roots) as (st' & r & ? & ? & ?); [apply updatedFrom_refl|].
    by exists st', r.
Qed.

Lemma attach_updated key (item : loc) st roots st' r :
  attach childrenPropName all proto key item st roots = (st', r) →
  updatedFrom n touched st st'.
Proof.
  intros Hattach.
  destruct (attach_cases _ _ _ _ _ _ _ _ _ Hattach)
    as [[-> Hroots]|(p & po & po' & Hp & Hpo & Hpush & -> & ->)];
    [apply updatedFrom_refl|].
  apply (updatedFrom_insert _ _ _ _ po); [by eapply parentFor_fresh|done|].
  intros k Hk. eapply pushChild_own; [done|].
  rewrite not_elem_of_cons in Hk. tauto.
Qed.

(** *** What the loop links *)

Lemma pushChild_adds po (item : loc) po' :
  pushChild childrenPropName po item = Returns po' →
  ∃ items, own po' childrenPropName = Some (CKids items) ∧ inr item ∈ items.
Proof.
  unfold pushChild. intros Hpush.
  destruct (own po childrenPropName) as [[v|items]|];
    [destruct v| |destruct (inherited childrenPropName)]; simplify_eq;
    eexists; (split; [apply own_set_eq|]);
    try (apply elem_of_app; right); by left.
Qed.

Lemma pushChild_grows po (item : loc) po' items (r : loc) :
  pushChild childrenPropName po item = Returns po' →
  own po childrenPropName = Some (CKids items) → inr r ∈ items →
  ∃ items', own po' childrenPropName = Some (CKids items') ∧ inr r ∈ items'.
Proof.
  unfold pushChild. intros Hpush Hown Hr. rewrite Hown in Hpush. simplify_eq.
  eexists. split; [apply own_set_eq|]. apply elem_of_app. by left.
Qed.

Hypothesis children_not_bookkeeping : childrenPropName ∉ ["__treeLevel"; "__hasChildren"].

Lemma childOf_insert st (p item : loc) po po' (q x : loc) :
  st !! p = Some po → pushChild childrenPropName po item = Returns po' →
  childOf childrenPropName st q x → childOf childrenPropName (<[p := po']> st) q x.
Proof.
  intros Hpo Hpush (o & items & Ho & Hitems & Hx).
  destruct (decide (p = q)) as [<-|Hne].
  - simplify_eq. destruct (pushChild_grows _ _ _ _ _ Hpush Hitems Hx) as (items' & ? & ?).
    exists po', items'. split_and!; try done.
    apply list_lookup_insert_eq. by eapply lookup_lt_Some.
  - exists o, items. split_and!; try done. by rewrite list_lookup_insert_ne.
Qed.

Lemma childOf_delete st (item q x : loc) :
  childOf childrenPropName st q x →
  childOf childrenPropName
    (alter (λ o, delete (delete o "__treeLevel") "__hasChildren") item st) q x.
Proof.
  intros (o & items & Ho & Hitems & Hx).
  repeat rewrite not_elem_of_cons in children_not_bookkeeping.
  destruct children_not_bookkeeping as (? & ? & _).
  destruct (decide (item = q)) as [<-|Hne].
  - eexists _, items. split_and!; [by rewrite list_lookup_alter_eq, Ho| |done].
    rewrite !own_delete_ne; done.
  - exists o, items. split_and!; try done. by rewrite list_lookup_alter_ne.
Qed.

Lemma connect_keeps_children ids st roots st' r (q x : loc) :
  connect childrenPropName parentPropName all proto ids st roots = (st', r) →
  childOf childrenPropName st q x → childOf childrenPropName st' q x.
Proof.
  apply (connect_preserves (λ s, childOf childrenPropName s q x)).
  - intros s p item po po' HJ Hpo Hpush. by eapply childOf_insert.
  - intros s item HJ. by apply childOf_delete.
Qed.

(** When the loop returns, each row it went over is a root, or is a child
    of the row that [all] has for its parent id. *)
Lemma connect_links ids : ∀ st roots st' roots',
  connect childrenPropName parentPropName all proto ids st roots = (st', Returns roots') →
  updatedFrom n touched st0 st →
  (∀ x : loc, x ∈ roots → x ∈ roots') ∧
  ∀ id (x : loc) o0, id ∈ ids → own all id = Some x → st0 !! x = Some o0 →
    if isRootRow parentPropName o0 then x ∈ roots'
    else ∀ p, own all (parentKey o0) = Some p → childOf childrenPropName st' p x.
Proof.
  induction ids as [|id0 rest IH]; intros st roots st' roots' Hconnect Hup.
  { simpl in Hconnect. simplify_eq. split; [done|].
    intros id x o Hid. by apply elem_of_nil in Hid. }
  simpl in Hconnect.
  destruct (own all id0) as [x0|] eqn:Hx0; [|done].
  pose proof (all_fresh _ _ Hx0) as Hx0_fresh.
  destruct (st !! x0) as [o|] eqn:Ho; [|done].
  destruct (row_of_loop _ _ _ Hup Ho) as (o0 & Ho0 & Hroot0 & Hkey0).
  destruct (rootTestThrows parentPropName o); [done|].
  (* the linking step *)
  assert (∃ st1 roots1,
            (if isRootRow parentPropName o then (st, Returns (roots ++ [x0]))
             else attach childrenPropName all proto (parentKey o) x0 st roots)
            = (st1, Returns roots1) ∧
            updatedFrom n touched st st1 ∧
            (∀ x : loc, x ∈ roots → x ∈ roots1) ∧
            (∀ q x : loc, childOf childrenPropName st q x → childOf childrenPropName st1 q x) ∧
            if isRootRow parentPropName o0 then x0 ∈ roots1
            else ∀ p, own all (parentKey o0) = Some p →
                      childOf childrenPropName st1 p x0)
    as (st1 & roots1 & Hlinked & Hup1 & Hroots1 & Hchild1 & Hx0linked).
  { rewrite <- Hroot0, <- Hkey0. destruct (isRootRow parentPropName o) eqn:Hroot.
    - eexists _, _. split; [done|].
      split_and!; [apply updatedFrom_refl | | done |].
      + intros x Hx. apply elem_of_app. by left.
      + apply elem_of_app. right. by left.
    - destruct (attach _ _ _ _ _ _ _) as [st1 r1] eqn:Hattach.
      pose proof (attach_updated _ _ _ _ _ _ Hattach) as Hup1.
      destruct r1 as [roots1| |]; [|done..].
      destruct (attach_cases _ _ _ _ _ _ _ _ _ Hattach)
        as [[-> Hroots]|(p & po & po' & Hp & Hpo & Hpush & -> & [= <-])].
      + rewrite (Hroots _ eq_refl). eexists _, _. split; [done|].
        split_and!; [done..|]. intros p Hp. unfold attach in Hattach.
        rewrite Hp in Hattach. unfold pushTo in Hattach.
        destruct (st !! p) as [po|] eqn:Hpo; [|done].
        destruct (pushChild childrenPropName po x0) as [po'| |] eqn:Hpush; [|done..].
        injection Hattach as Hst1.
        destruct (pushChild_adds _ _ _ Hpush) as (items & Hitems & Hin).
        exists po', items. split_and!; [|done..]. rewrite <- Hst1 at 1.
        apply list_lookup_insert_eq. by eapply lookup_lt_Some.
      + eexists _, _. split; [done|]. split_and!; [done..| |].
        * intros q x Hqx. by eapply childOf_insert.
        * intros p' Hp'. unfold parentFor in Hp. rewrite Hp' in Hp. simplify_eq.
          destruct (pushChild_adds _ _ _ Hpush) as (items & Hitems & Hin).
          exists po', items. split_and!; [|done..].
          apply list_lookup_insert_eq. by eapply lookup_lt_Some. }
  rewrite Hlinked in Hconnect.
  set (st2 := alter (λ o, delete (delete o "__treeLevel") "__hasChildren") x0 st1) in *.
  pose proof (delete_bookkeeping_updated st1 x0 Hx0_fresh) as Hup2.
  destruct (IH _ _ _ _ Hconnect) as (Hroots' & Hlinks).
  { eapply updatedFrom_trans; [done|]. by eapply updatedFrom_trans. }
  split; [by auto|].
  intros id x ox Hid Hx Hox.
  assert (∀ q y : loc, childOf childrenPropName st1 q y → childOf childrenPropName st' q y)
    as Hkeep.
  { intros q y Hqy. eapply connect_keeps_children; [done|]. by apply childOf_delete. }
  apply elem_of_cons in Hid as [->|Hid]; [|by eapply Hlinks].
  assert (x = x0) as -> by congruence. assert (ox = o0) as -> by congruence.
  destruct (isRootRow parentPropName o0); [by apply Hroots'|].
  intros p Hp. by apply Hkeep, Hx0linked.
Qed.
End ConnectFacts.

(** *** The copies and the index *)

Lemma own_rowOfProps props k : own (rowOfProps props) k = CVal <$> own props k.
Proof.
  induction props as [|[k1 v1] props IH]; simpl; [done|].
  by destruct (String.eqb k1 k).
Qed.

Lemma cellGet_rowOfProps row k : cellGet (rowOfProps row) k = CVal (get row k).
Proof. unfold cellGet, get. rewrite own_rowOfProps. by destruct (own row k). Qed.

Lemma own_keys {V : Type} (o : list (string * V)) k v : own o k = Some v → k ∈ keys o.
Proof.
  induction o as [|[k1 v1] o IH]; simpl; [done|].
  destruct (String.eqb_spec k1 k) as [->|Hne]; intros Hown.
  - by left.
  - right. by apply IH.
Qed.

Lemma keys_own {V : Type} (o : list (string * V)) k : k ∈ keys o → is_Some (own o k).
Proof.
  induction o as [|[k1 v1] o IH]; simpl; [by intros ?%elem_of_nil|].
  destruct (String.eqb_spec k1 k) as [->|Hne]; [by eexists|].
  intros [?|?]%elem_of_cons; [done|by apply IH].
Qed.

(** A row of plain objects only is cloned whole. *)
Lemma snapshot_clonable plain st fuel : ∀ (l : loc) copy,
  (∀ r, plain r = true) → snapshot fuel st l = Some copy →
  clonable fuel plain st l = true.
Proof.
  intros l copy Hplain. revert l copy.
  induction fuel as [|fuel IH]; intros l copy Hsnap; [done|].
  simpl in *. destruct (st !! l) as [o|]; [|done]. simpl in Hsnap.
  revert copy Hsnap. induction o as [|[k c] o IHo]; intros copy Hsnap; [done|].
  simpl in Hsnap. simpl.
  assert (∀ copy', copyProps (snapshot fuel st) o = Some copy' →
            forallb (λ kc : string * cell,
                       match kc.2 with
                       | CVal _ => true
                       | CKids items =>
                           forallb (λ e : value + loc,
                                      match e with
                                      | inl _ => true
                                      | inr r => plain r && clonable fuel plain st r
                                      end) items
                       end) o = true) as Hrest by (intros; by eapply IHo).
  destruct c as [v|items].
  - simpl. destruct (copyProps (snapshot fuel st) o) as [rest|] eqn:Hcopy.
    + by eapply Hrest.
    + by destruct v.
  - destruct (mapM _ items) as [arr|] eqn:Harr; [|done]. simpl in Hsnap.
    destruct (copyProps (snapshot fuel st) o) as [rest|]; [|done].
    apply andb_true_iff. split; [|by eapply Hrest].
    apply mapM_Some in Harr. clear -Harr IH Hplain.
    induction Harr as [|e x items arr Hex _ IHarr]; [done|]. simpl.
    rewrite IHarr, andb_true_r. destruct e as [v|r]; [done|].
    rewrite Hplain. simpl. destruct (snapshot fuel st r) as [c|] eqn:Hc; [|done].
    by eapply IH.
Qed.

Lemma cloneRows_plain fuel plain st flatArray : ∀ (next : loc) copies,
  (∀ r, plain r = true) →
  mapM (snapshot fuel st) flatArray = Some copies →
  Forall (λ copy : list (string * value), own copy "__proto__" = None) copies →
  cloneRows fuel plain st flatArray next = Some (copies, seq next (length copies)).
Proof.
  induction flatArray as [|l rest IH]; intros next copies Hplain Hcopies Hproto.
  { apply mapM_Some in Hcopies. by apply Forall2_nil_inv_l in Hcopies as ->. }
  apply mapM_Some in Hcopies.
  apply Forall2_cons_inv_l in Hcopies as (copy & copies' & Hcopy & Hcopies' & ->).
  apply mapM_Some in Hcopies'. apply Forall_cons in Hproto as [Hcopy_proto Hproto].
  simpl.
  rewrite Hplain, (snapshot_clonable _ _ _ _ _ Hplain Hcopy), Hcopy. simpl.
  unfold hasOwnProperty. rewrite Hcopy_proto.
  by rewrite (IH (S next) copies' Hplain Hcopies' Hproto).
Qed.

(** The key of a copy. *)
Lemma identifierKey_rowOfProps idn copy :
  inherited idn = false →
  identifierKey idn (rowOfProps copy) = Some (toStr (get copy idn)).
Proof.
  intros Hidn. unfold identifierKey, get. rewrite own_rowOfProps, Hidn.
  by destruct (own copy idn).
Qed.

(** With no row whose key is ["__proto__"], the index is made, and [all]
    keeps the prototype it has. *)
Lemma indexAll_total idn st input : ∀ all0 proto0,
  Forall (λ item, ∃ o id, st !! item = Some o ∧ identifierKey idn o = Some id ∧
                          id ≠ "__proto__") input →
  ∃ all, indexAll idn st input all0 proto0 = Some (all, proto0).
Proof.
  induction input as [|item rest IH]; intros all0 proto0 Hinput; simpl.
  - by eexists.
  - apply Forall_cons in Hinput as [(o & id & Ho & Hkey & Hid) Hrest].
    rewrite Ho. simpl. rewrite Hkey. simpl.
    apply String.eqb_neq in Hid. rewrite Hid. by apply IH.
Qed.

(** A key that no row of the input reads as stays as it was in [all]. *)
Lemma indexAll_other idn st k input : ∀ all0 proto0 all proto,
  indexAll idn st input all0 proto0 = Some (all, proto) →
  (∀ (x : loc) o, x ∈ input → st !! x = Some o → identifierKey idn o ≠ Some k) →
  own all k = own all0 k.
Proof.
  induction input as [|item rest IH]; intros all0 proto0 all proto Hindex Hother;
    simpl in Hindex.
  - by simplify_eq.
  - destruct (st !! item) as [o|] eqn:Ho; [|done]. simpl in Hindex.
    destruct (identifierKey idn o) as [id|] eqn:Hid; [|done]. simpl in Hindex.
    assert (∀ (x : loc) ox, x ∈ rest → st !! x = Some ox → identifierKey idn ox ≠ Some k)
      as Hrest by (intros x ox Hx; apply Hother; by right).
    destruct (String.eqb id "__proto__").
    + destruct (match proto0 with Some q => _ | None => false end); [done|].
      by eapply IH.
    + rewrite (IH _ _ _ _ Hindex Hrest). apply own_set_ne.
      intros ->. eapply Hother; [by left|done..].
Qed.

(** When no two rows of the input read as the same key, and none as
    ["__proto__"], [all] has each row at its key. *)
Lemma indexAll_lookup idn st input : ∀ all0 proto0 all proto,
  indexAll idn st input all0 proto0 = Some (all, proto) →
  (∀ (i j : nat) (x y : loc) ox oy,
     input !! i = Some x → input !! j = Some y → st !! x = Some ox → st !! y = Some oy →
     identifierKey idn ox = identifierKey idn oy → i = j) →
  ∀ (i : nat) (x : loc) o id, input !! i = Some x → st !! x = Some o →
    identifierKey idn o = Some id → id ≠ "__proto__" → own all id = Some x.
Proof.
  induction input as [|item rest IH]; intros all0 proto0 all proto Hindex Hinj i x o id Hi Hx
    Hid Hproto; [done|].
  simpl in Hindex.
  destruct (st !! item) as [o1|] eqn:Ho1; [|done]. simpl in Hindex.
  destruct (identifierKey idn o1) as [id1|] eqn:Hid1; [|done]. simpl in Hindex.
  assert (∀ (i j : nat) (x y : loc) ox oy,
            rest !! i = Some x → rest !! j = Some y → st !! x = Some ox → st !! y = Some oy →
            identifierKey idn ox = identifierKey idn oy → i = j) as Hinj'.
  { intros i' j' x' y' ox oy Hi' Hj' Hox Hoy Heq.
    by specialize (Hinj (S i') (S j') x' y' ox oy Hi' Hj' Hox Hoy Heq) as [= ->]. }
  destruct i as [|i]; simpl in Hi.
  - simplify_eq. apply String.eqb_neq in Hproto. rewrite Hproto in Hindex.
    rewrite (indexAll_other _ _ _ _ _ _ _ _ Hindex); [apply own_set_eq|].
    intros y oy Hy Hoy Heq. apply list_elem_of_lookup in Hy as [j Hj].
    assert (0%nat = S j) as Hfalse; [|done].
    eapply (Hinj 0%nat (S j)); [reflexivity | exact Hj | exact Ho1 | exact Hoy |].
    by rewrite Heq.
  - destruct (String.eqb id1 "__proto__").
    + destruct (match proto0 with Some q => _ | None => false end); [done|].
      by eapply IH.
    + by eapply IH.
Qed.

(** The copies have no references to rows. *)
Lemma kidsRel_copies R st copies : kidsRel (length st) R (st ++ map rowOfProps copies).
Proof.
  intros l o k items r Hl Ho Hk Hr.
  rewrite lookup_app_r in Ho by done.
  apply list_lookup_fmap_Some in Ho as (props & -> & _).
  unfold rowOfProps in Hk. by apply list_elem_of_fmap in Hk as ([k' v] & [= _ ?] & _).
Qed.

Lemma kidsRel_kidsIn n (P : loc → Prop) st : kidsRel n (λ _ r, P r) st → kidsIn n P st.
Proof.
  intros Hkids l o k items r Hl Ho Hk Hr.
  eapply (Hkids l o k items r); [done..| |done]. by apply own_elem.
Qed.

Lemma lookup_copy st (copies : rows) (i : nat) copy :
  copies !! i = Some copy →
  (st ++ map rowOfProps copies) !! (length st + i)%nat = Some (rowOfProps copy).
Proof.
  intros Hcopy. rewrite lookup_app_r by lia.
  replace (length st + i - length st)%nat with i by lia.
  by rewrite list_lookup_fmap, Hcopy.
Qed.

(** Where the rows that [all] holds come from. *)
Lemma indexAll_from idn st input : ∀ all0 proto0 all proto k (l : loc),
  indexAll idn st input all0 proto0 = Some (all, proto) → own all k = Some l →
  own all0 k = Some l ∨
  ∃ o, l ∈ input ∧ st !! l = Some o ∧ identifierKey idn o = Some k.
Proof.
  induction input as [|item rest IH]; intros all0 proto0 all proto k l Hindex Hown;
    simpl in Hindex.
  - simplify_eq. by left.
  - destruct (st !! item) as [o|] eqn:Ho; [|done]. simpl in Hindex.
    destruct (identifierKey idn o) as [id|] eqn:Hid; [|done]. simpl in Hindex.
    destruct (String.eqb id "__proto__").
    + destruct (match proto0 with Some q => _ | None => false end); [done|].
      destruct (IH _ _ _ _ _ _ Hindex Hown) as [?|(o' & ? & ? & ?)]; [by left|].
      right. exists o'. split_and!; [by right|done..].
    + destruct (IH _ _ _ _ _ _ Hindex Hown) as [Hset|(o' & ? & ? & ?)].
      * rewrite own_set in Hset. destruct (String.eqb_spec id k) as [->|Hne]; [|by left].
        simplify_eq. right. exists o. split_and!; [by left|done..].
      * right. exists o'. split_and!; [by right|done..].
Qed.

(** The call on rows that are plain objects and have ordinary keys: the
    copies are at the end of the store, [all] has no prototype row, and the
    rows it holds are copies. *)
Lemma convertParentChild_plain fuel plain st flatArray options copies :
  let cn := orDefault (childrenPropName options) "children" in
  let pn := orDefault (parentPropName options) "parentId" in
  let idn := orDefault (identifierPropName options) "id" in
  (∀ l, plain l = true) →
  mapM (snapshot fuel st) flatArray = Some copies →
  inherited idn = false →
  ordinaryKeys idn pn copies →
  ∃ all,
    indexAll idn (st ++ map rowOfProps copies) (seq (length st) (length copies)) [] None
    = Some (all, None) ∧
    convertParentChildFlatArrayToHierarchicalView fuel plain st flatArray options
    = connect cn pn all None (keys all) (st ++ map rowOfProps copies) [] ∧
    (∀ k (l : loc), own all k = Some l →
       ∃ (i : nat) copy, l = (length st + i)%nat ∧ copies !! i = Some copy ∧
                         k = toStr (get copy idn)).
Proof.
  intros cn pn idn Hplain Hcopies Hidn Hkeys.
  destruct (indexAll_total idn (st ++ map rowOfProps copies)
              (seq (length st) (length copies)) [] None) as [all Hindex].
  { apply Forall_forall. intros item [Hge Hlt]%elem_of_seq.
    destruct (lookup_lt_is_Some_2 copies (item - length st)) as [copy Hcopy]; [lia|].
    exists (rowOfProps copy), (toStr (get copy idn)). split_and!.
    - replace item with (length st + (item - length st))%nat at 1 by lia.
      by apply lookup_copy.
    - by apply identifierKey_rowOfProps.
    - unfold ordinaryKeys in Hkeys. rewrite Forall_forall in Hkeys.
      by destruct (Hkeys copy (list_elem_of_lookup_2 _ _ _ Hcopy)) as (_ & ? & _). }
  exists all. split; [done|]. split.
  - unfold convertParentChildFlatArrayToHierarchicalView.
    rewrite (cloneRows_plain _ _ _ _ _ _ Hplain Hcopies).
    + fold cn pn idn. by rewrite Hindex.
    + eapply Forall_impl; [exact Hkeys|]. by intros copy (? & _).
  - intros k l Hown.
    destruct (indexAll_from _ _ _ _ _ _ _ _ _ Hindex Hown) as [?|(o & Hl & Ho & Hid)];
      [done|].
    apply elem_of_seq in Hl as [Hge Hlt].
    destruct (lookup_lt_is_Some_2 copies (l - length st)) as [copy Hcopy]; [lia|].
    exists (l - length st)%nat, copy. split; [lia|]. split; [done|].
    replace l with (length st + (l - length st))%nat in Ho by lia.
    rewrite (lookup_copy _ _ _ _ Hcopy) in Ho. simplify_eq.
    rewrite identifierKey_rowOfProps in Hid by done. by simplify_eq.
Qed.

(** C9, the claim as it stands fails for rows that are not plain objects:
    [$.extend] does not clone an instance of a class, so the call works on
    the row itself.  The row [{id:1, __treeLevel:0}] at location 0 loses its
    [__treeLevel], and is the root that the call returns. *)
Lemma convertParentChild_changes_row_that_is_not_plain :
  convertParentChildFlatArrayToHierarchicalView 1 (λ _, false)
    [ [("id", CVal (VNum 1)); ("__treeLevel", CVal (VNum 0))] ] [0%nat] noOptions
  = ( [ [("id", CVal (VNum 1))] ], Returns [0%nat] ).
Proof. vm_compute. reflexivity. Qed.

(** C9, as amended.  When the rows are plain objects with ordinary keys,
    the call returns or throws, and leaves every row that was in the store
    as it was: what it deletes and what it attaches goes to the copies,
    which are new rows.  The roots it returns are copies, and no copy holds
    a reference to a row that was there before.  (The rows [copies] are the
    flat rows as [$.extend] copies them, which is what the fuel is for.) *)
Theorem convertParentChild_leaves_input_unchanged
    (fuel : nat) (plain : loc → bool) (st : store) (flatArray : list loc)
    (options : TreeOptions) (copies : rows) :
  let childrenName := orDefault (childrenPropName options) "children" in
  let parentName := orDefault (parentPropName options) "parentId" in
  let identifierName := orDefault (identifierPropName options) "id" in
  let result := convertParentChildFlatArrayToHierarchicalView fuel plain st flatArray options in
  (∀ l, plain l = true) →
  mapM (snapshot fuel st) flatArray = Some copies →
  parentName ∉ [childrenName; "__treeLevel"; "__hasChildren"] →
  inherited identifierName = false →
  ordinaryKeys identifierName parentName copies →
  result.2 ≠ Stuck ∧
  (∀ l : loc, (l < length st)%nat → result.1 !! l = st !! l) ∧
  (∀ roots, result.2 = Returns roots → ∀ x : loc, x ∈ roots → (length st ≤ x)%nat) ∧
  freshKids (length st) result.1.
Proof.
  intros cn pn idn result Hplain Hcopies Hpn Hidn Hkeys. subst result.
  destruct (convertParentChild_plain fuel plain st flatArray options copies
              Hplain Hcopies Hidn Hkeys) as (all & Hindex & -> & Hall).
  fold cn pn.
  set (n := length st). set (st1 := st ++ map rowOfProps copies).
  assert (∀ k (l : loc), own all k = Some l → (n ≤ l)%nat) as Hfresh.
  { intros k l Hown. destruct (Hall k l Hown) as (i & copy & -> & _). unfold n. lia. }
  destruct (connect_progress cn pn all None n st1 (λ _ _, True) Hfresh Hpn (keys all) st1 [])
    as (st' & r & Hconnect & Hstuck & _).
  - apply updatedFrom_refl.
  - done.
  - apply keys_own.
  - intros k l Hown. destruct (Hall k l Hown) as (i & copy & -> & Hcopy & _).
    unfold st1. rewrite (lookup_copy _ _ _ _ Hcopy). by eexists.
  - intros id item o0 Hid Hown Ho0 Hroot.
    destruct (Hall id item Hown) as (i & copy & -> & Hcopy & _).
    unfold st1 in Ho0. rewrite (lookup_copy _ _ _ _ Hcopy) in Ho0. simplify_eq.
    unfold isRootRow in Hroot. rewrite cellGet_rowOfProps. simpl.
    rewrite own_rowOfProps in Hroot. unfold get.
    destruct (own copy pn) as [v|] eqn:Hv; [|done]. simpl in Hroot.
    unfold ordinaryKeys in Hkeys. rewrite Forall_forall in Hkeys.
    destruct (Hkeys copy (list_elem_of_lookup_2 _ _ _ Hcopy)) as (_ & _ & Hparent).
    apply (Hparent v Hv). by intros ->.
  - rewrite Hconnect. simpl.
    destruct (connect_invariant cn pn all None n st1 (λ _ r, n ≤ r)%nat Hfresh
                ltac:(done) Hpn (keys all) st1 [] st' r Hconnect)
      as ((_ & Hlow & _) & Hkids & Hroots).
    + apply updatedFrom_refl.
    + apply kidsRel_copies.
    + intros id item o0 p _ Hown _ _ _. by eapply Hfresh.
    + split_and!; [done| | |by apply kidsRel_kidsIn].
      * intros l Hl. rewrite Hlow by done. by apply lookup_app_l.
      * intros roots -> x Hx.
        destruct (Hroots _ eq_refl x Hx) as [Hin|(id & o0 & _ & Hown & _)];
          [by apply elem_of_nil in Hin|]. by eapply Hfresh.
Qed.

Lemma convertParentChild_leaves_input_unchanged_witness :
  (convertParentChildFlatArrayToHierarchicalView 1 (λ _, true) danglingStore
     [0; 1]%nat noOptions).2 ≠ Stuck ∧
  (∀ l : loc, (l < length danglingStore)%nat →
     (convertParentChildFlatArrayToHierarchicalView 1 (λ _, true) danglingStore
        [0; 1]%nat noOptions).1 !! l = danglingStore !! l) ∧
  (∀ roots,
     (convertParentChildFlatArrayToHierarchicalView 1 (λ _, true) danglingStore
        [0; 1]%nat noOptions).2 = Returns roots →
     ∀ x : loc, x ∈ roots → (length danglingStore ≤ x)%nat) ∧
  freshKids (length danglingStore)
    (convertParentChildFlatArrayToHierarchicalView 1 (λ _, true) danglingStore
       [0; 1]%nat noOptions).1.
Proof.
  apply (convertParentChild_leaves_input_unchanged 1 (λ _, true) danglingStore
           [0; 1]%nat noOptions
           [ [("id", VNum 1)]; [("id", VNum 2); ("parentId", VNum 99)] ]).
  - reflexivity.
  - reflexivity.
  - apply (bool_decide_eq_true_1 _). vm_compute. reflexivity.
  - reflexivity.
  - repeat constructor; try discriminate;
      intros v Hv; vm_compute in Hv; try discriminate Hv;
      injection Hv as <-; intros _; reflexivity.
Defined.




(** ** The round trip *)

(** C1, the flat array of the claim: the round trip returns three rows, with
    the identifiers 1, 2, 3, at the depths 0, 1, 2; the first two have the
    has-children flag, the third has none. *)
Lemma round_trip_of_the_chain :
  ∃ flat,
    roundTrip 3 (λ _, true) chainStore [0; 1; 2]%nat noOptions = Returns flat ∧
    identifiers "id" flat = [VNum 1; VNum 2; VNum 3] ∧
    (λ row, getProp row "__treeLevel") <$> flat = [VNum 0; VNum 1; VNum 2] ∧
    (λ row, truthy (getProp row "__hasChildren")) <$> flat = [true; true; false].
Proof. eexists. split_and!; vm_compute; reflexivity. Qed.


(** *** Plain data and its copies *)

Lemma value_nested_ind (P : value → Prop) :
  P VUndef → P VNull → (∀ b, P (VBool b)) → (∀ n, P (VNum n)) → P VNaN →
  (∀ s, P (VStr s)) →
  (∀ elems, Forall P elems → P (VArr elems)) →
  (∀ props, Forall (λ kv, P kv.2) props → P (VObj props)) →
  ∀ v, P v.
Proof.
  intros Hu Hn Hb Hz Hnan Hs Harr Hobj. fix IH 1.
  intros [| |b|n| |s|elems|props];
    [exact Hu | exact Hn | apply Hb | apply Hz | exact Hnan | apply Hs | |].
  - apply Harr. induction elems as [|e elems IHelems]; constructor; [apply IH | done].
  - apply Hobj. induction props as [|[k x] props IHprops]; constructor; [apply IH | done].
Qed.

Lemma extendDeep_undef v : extendDeep v = VUndef → v = VUndef.
Proof. by destruct v. Qed.

Lemma extendDeep_idempotent v : extendDeep (extendDeep v) = extendDeep v.
Proof.
  induction v as [| | | | | |elems IH|props IH] using value_nested_ind; try done.
  - simpl. f_equal. rewrite map_map. apply map_ext_Forall, IH.
  - simpl. f_equal. induction IH as [|[k x] props Hx _ IHprops]; [done|].
    destruct x; simpl in *; rewrite ?IHprops; try done; by rewrite Hx.
Qed.

(** A row that a deep copy leaves as it is: no property is [undefined], and
    each is a copy of itself. *)
Lemma extendDeep_row_fixed props :
  Forall (λ kv : string * value, kv.2 ≠ VUndef ∧ extendDeep kv.2 = kv.2) props →
  extendDeep (VObj props) = VObj props.
Proof.
  intros Hprops. simpl. f_equal.
  induction Hprops as [|[k x] props [Hx1 Hx2] _ IH]; [done|].
  simpl in *. rewrite IH, Hx2. by destruct x.
Qed.

Lemma get_fixed props k :
  Forall (λ kv : string * value, kv.2 ≠ VUndef ∧ extendDeep kv.2 = kv.2) props →
  extendDeep (get props k) = get props k.
Proof.
  unfold get. induction 1 as [|[k1 x] props [_ Hx] _ IH]; simpl; [done|].
  by destruct (String.eqb k1 k).
Qed.

Lemma own_fixed props k v :
  Forall (λ kv : string * value, kv.2 ≠ VUndef ∧ extendDeep kv.2 = kv.2) props →
  own props k = Some v → v ≠ VUndef ∧ extendDeep v = v.
Proof.
  induction 1 as [|[k1 x] props Hx _ IH]; simpl; [done|].
  destruct (String.eqb k1 k); [by intros [= <-] | done].
Qed.

Lemma copyProps_fixed copyRow o : ∀ copy,
  (∀ l c, copyRow l = Some c → extendDeep (VObj c) = VObj c) →
  copyProps copyRow o = Some copy →
  Forall (λ kv : string * value, kv.2 ≠ VUndef ∧ extendDeep kv.2 = kv.2) copy.
Proof.
  intros copy Hrow. revert copy.
  induction o as [|[k c] o IH]; intros copy Hcopy; simpl in Hcopy.
  - simplify_eq. constructor.
  - destruct c as [v|items].
    + assert (v = VUndef ∨ v ≠ VUndef) as [->|Hv] by (destruct v; auto); [by apply IH|].
      assert ((rest ← copyProps copyRow o; Some ((k, extendDeep v) :: rest)) = Some copy)
        as Hcopy' by (by destruct v).
      destruct (copyProps copyRow o) as [rest|]; [|done]. simplify_eq/=.
      constructor; [|by apply IH]. simpl. split; [|apply extendDeep_idempotent].
      intros Hu. by apply extendDeep_undef in Hu.
    + destruct (mapM _ items) as [arr|] eqn:Harr; [|done]. simpl in Hcopy.
      destruct (copyProps copyRow o) as [rest|]; [|done]. simplify_eq/=.
      constructor; [|by apply IH]. simpl. split; [done|]. f_equal.
      apply mapM_Some in Harr. clear -Harr Hrow.
      induction Harr as [|e x items arr Hex _ IHarr]; [done|]. simpl. f_equal; [|done].
      destruct e as [v|l].
      * simplify_eq. apply extendDeep_idempotent.
      * destruct (copyRow l) as [c|] eqn:Hc; [|done]. simplify_eq/=.
        change (extendDeep (VObj c) = VObj c). by eapply Hrow.
Qed.

Lemma snapshot_fixed st fuel : ∀ (l : loc) copy,
  snapshot fuel st l = Some copy →
  Forall (λ kv : string * value, kv.2 ≠ VUndef ∧ extendDeep kv.2 = kv.2) copy.
Proof.
  induction fuel as [|fuel IH]; intros l copy Hsnap; [done|].
  simpl in Hsnap. destruct (st !! l) as [o|]; [|done]. simpl in Hsnap.
  eapply copyProps_fixed; [|done].
  intros l' c Hc. by apply extendDeep_row_fixed, (IH l').
Qed.

(** What the copy of a row holds at a property, by what the row holds. *)
Lemma copyProps_own_None copyRow o k : ∀ copy,
  copyProps copyRow o = Some copy → own o k = None → own copy k = None.
Proof.
  induction o as [|[k1 c1] o IH]; intros copy Hcopy Hown; simpl in *.
  - by simplify_eq.
  - destruct (String.eqb_spec k1 k) as [->|Hne]; [done|].
    destruct c1 as [v1|items1].
    + assert (v1 = VUndef ∨ v1 ≠ VUndef) as [->|Hv] by (destruct v1; auto); [by apply IH|].
      assert ((rest ← copyProps copyRow o; Some ((k1, extendDeep v1) :: rest)) = Some copy)
        as Hcopy' by (by destruct v1).
      destruct (copyProps copyRow o) as [rest|]; [|done]. simplify_eq/=.
      destruct (String.eqb_spec k1 k); [done|]. by apply IH.
    + destruct (mapM _ items1) as [arr|]; [|done]. simpl in Hcopy.
      destruct (copyProps copyRow o) as [rest|]; [|done]. simplify_eq/=.
      destruct (String.eqb_spec k1 k); [done|]. by apply IH.
Qed.

Lemma copyProps_own_Some copyRow o k c : ∀ copy,
  copyProps copyRow o = Some copy → own o k = Some c →
  match c with
  | CVal v => v = VUndef ∨ own copy k = Some (extendDeep v)
  | CKids items =>
      ∃ arr, own copy k = Some (VArr arr) ∧
             mapM (λ e, match e with
                        | inl v => Some (extendDeep v)
                        | inr l' => VObj <$> copyRow l'
                        end) items = Some arr
  end.
Proof.
  induction o as [|[k1 c1] o IH]; intros copy Hcopy Hown; simpl in *; [done|].
  destruct (String.eqb_spec k1 k) as [->|Hne].
  - simplify_eq. destruct c as [v|items].
    + assert (v = VUndef ∨ v ≠ VUndef) as [->|Hv] by (destruct v; auto); [by left|].
      assert ((rest ← copyProps copyRow o; Some ((k, extendDeep v) :: rest)) = Some copy)
        as Hcopy' by (by destruct v).
      destruct (copyProps copyRow o) as [rest|]; [|done]. simplify_eq/=.
      right. by rewrite String.eqb_refl.
    + destruct (mapM _ items) as [arr|] eqn:Harr; [|done]. simpl in Hcopy.
      destruct (copyProps copyRow o) as [rest|]; [|done]. simplify_eq/=.
      exists arr. by rewrite String.eqb_refl.
  - assert (∀ copy', copyProps copyRow o = Some copy' →
              match c with
              | CVal v => v = VUndef ∨ own ((k1, VNull) :: copy') k = Some (extendDeep v)
              | CKids items =>
                  ∃ arr, own ((k1, VNull) :: copy') k = Some (VArr arr) ∧
                         mapM (λ e, match e with
                                    | inl v => Some (extendDeep v)
                                    | inr l' => VObj <$> copyRow l'
                                    end) items = Some arr
              end) as IH'.
    { intros copy' Hcopy'. simpl. destruct (String.eqb_spec k1 k); [done|]. by apply IH. }
    destruct c1 as [v1|items1].
    + assert (v1 = VUndef ∨ v1 ≠ VUndef) as [->|Hv] by (destruct v1; auto); [by apply IH|].
      assert ((rest ← copyProps copyRow o; Some ((k1, extendDeep v1) :: rest)) = Some copy)
        as Hcopy' by (by destruct v1).
      destruct (copyProps copyRow o) as [rest|]; [|done]. simplify_eq/=.
      specialize (IH' rest eq_refl). simpl in IH'.
      by destruct (String.eqb_spec k1 k).
    + destruct (mapM _ items1) as [arr|]; [|done]. simpl in Hcopy.
      destruct (copyProps copyRow o) as [rest|]; [|done]. simplify_eq/=.
      specialize (IH' rest eq_refl). simpl in IH'.
      by destruct (String.eqb_spec k1 k).
Qed.

Lemma occurs_child cn node props children items :
  occurs cn (VObj props) items → get props cn = VArr children →
  isRow node → node ∈ children → occurs cn node items.
Proof.
  intros Hoccurs Hget Hrow Hin. remember (VObj props) as parent eqn:Hparent.
  induction Hoccurs as [items _ Hhere|props' children' items Hin' Hget' _ IH]; subst.
  - eapply occurs_below; [done..|]. by apply occurs_here.
  - eapply occurs_below; [done..|]. by apply IH.
Qed.

Lemma nodesFrom_hierarchical cn idn (S : value → Prop) :
  ∀ items, nodesFrom cn idn S items → hierarchical cn items.
Proof.
  fix IH 2. intros items [|props rest _ Hkids Hrest].
  - constructor.
  - apply hierarchical_row; [|by apply IH].
    intros children Hchildren. apply IH. by apply Hkids.
Qed.

(** *** The hierarchical view of the store the conversion leaves *)
Section ViewFacts.
Variables childrenPropName identifierPropName : string.
Variable st' : store.
Variable n : nat.
Variable copies : rows.
Hypothesis id_not_touched :
  identifierPropName ∉ [childrenPropName; "__treeLevel"; "__hasChildren"].
Hypothesis copies_fixed :
  Forall (Forall (λ kv : string * value, kv.2 ≠ VUndef ∧ extendDeep kv.2 = kv.2)) copies.
Hypothesis updated :
  ∀ (i : nat) copy, copies !! i = Some copy →
    ∃ o, st' !! (n + i)%nat = Some o ∧
         own o identifierPropName = own (rowOfProps copy) identifierPropName.
Hypothesis kids_are_copies :
  kidsIn n (λ l, n ≤ l < n + length copies)%nat st'.
Hypothesis children_are_rows : childrenAreRows childrenPropName n st'.

Local Abbreviation known :=
  (λ v, v ∈ (λ copy, get copy identifierPropName) <$> copies).

(** A copy of the row at [n + i] has the identifier of the [i]-th copy. *)
Lemma snapshot_identifier fuel (i : nat) copy props :
  copies !! i = Some copy →
  snapshot fuel st' (n + i)%nat = Some props →
  get props identifierPropName = get copy identifierPropName.
Proof.
  intros Hcopy Hsnap. destruct fuel as [|fuel]; [done|]. simpl in Hsnap.
  destruct (updated _ _ Hcopy) as (o & Ho & Hid).
  rewrite Ho in Hsnap. simpl in Hsnap.
  rewrite own_rowOfProps in Hid. unfold get.
  destruct (own copy identifierPropName) as [v|] eqn:Hv; simpl in Hid.
  - rewrite Forall_forall in copies_fixed.
    destruct (own_fixed _ _ _ (copies_fixed copy (list_elem_of_lookup_2 _ _ _ Hcopy)) Hv)
      as [Hundef Hfix].
    destruct (copyProps_own_Some _ _ _ _ _ Hsnap Hid) as [?|Hown]; [done|].
    by rewrite Hown, Hfix.
  - by rewrite (copyProps_own_None _ _ _ _ Hsnap Hid).
Qed.

Lemma snapshot_nodes fuel : ∀ (x : loc) props,
  (n ≤ x < n + length copies)%nat →
  snapshot fuel st' x = Some props →
  known (get props identifierPropName) ∧
  ∀ children, get props childrenPropName = VArr children →
              nodesFrom childrenPropName identifierPropName known children.
Proof.
  induction fuel as [|fuel IH]; intros x props Hx Hsnap; [done|].
  simpl in Hsnap.
  assert (is_Some (copies !! (x - n)%nat)) as [copy Hcopy]
    by (apply lookup_lt_is_Some; lia).
  destruct (updated _ _ Hcopy) as (o & Ho & Hid).
  replace (n + (x - n))%nat with x in Ho by lia.
  rewrite Ho in Hsnap. simpl in Hsnap. split.
  - (* the identifier is the one of the copy *)
    assert (get props identifierPropName = get copy identifierPropName) as ->.
    { rewrite own_rowOfProps in Hid. unfold get.
      destruct (own copy identifierPropName) as [v|] eqn:Hv; simpl in Hid.
      - rewrite Forall_forall in copies_fixed.
        destruct (own_fixed _ _ _ (copies_fixed copy (list_elem_of_lookup_2 _ _ _ Hcopy)) Hv)
          as [Hundef Hfix].
        destruct (copyProps_own_Some _ _ _ _ _ Hsnap Hid) as [?|Hown]; [done|].
        by rewrite Hown, Hfix.
      - by rewrite (copyProps_own_None _ _ _ _ Hsnap Hid). }
    apply list_elem_of_fmap. exists copy. split; [done|].
    by eapply list_elem_of_lookup_2.
  - intros children Hchildren. unfold get in Hchildren.
    destruct (own props childrenPropName) as [v|] eqn:Hv; [|done]. subst v.
    destruct (own o childrenPropName) as [c|] eqn:Hc.
    2:{ by rewrite (copyProps_own_None _ _ _ _ Hsnap Hc) in Hv. }
    destruct (children_are_rows x o c) as (refs & ->); [lia|done..|].
    destruct (copyProps_own_Some _ _ _ _ _ Hsnap Hc) as (arr & Harr & Hrefs).
    rewrite Hv in Harr. simplify_eq.
    assert (Forall (λ r : loc, n ≤ r < n + length copies)%nat refs) as Hin.
    { apply Forall_forall. intros r Hr.
      eapply (kids_are_copies x o childrenPropName (inr <$> refs) r); [lia|done..|].
      by apply list_elem_of_fmap_2. }
    apply mapM_Some in Hrefs. clear Hc Hv.
    revert arr Hrefs. induction Hin as [|r refs Hr _ IHrefs]; intros arr Hrefs.
    + apply Forall2_nil_inv_l in Hrefs as ->. constructor.
    + rewrite fmap_cons in Hrefs.
      apply Forall2_cons_inv_l in Hrefs as (node & arr' & Hnode & Harr' & ->).
      destruct (snapshot fuel st' r) as [props'|] eqn:Hsnap'; [|done]. simplify_eq/=.
      destruct (IH r props' Hr Hsnap') as [Hknown Hkids].
      constructor; [done..|]. by apply IHrefs.
Qed.

Lemma hierarchicalView_nodes fuel (roots : list loc) view :
  Forall (λ x, n ≤ x < n + length copies)%nat roots →
  hierarchicalView fuel st' roots = Some view →
  nodesFrom childrenPropName identifierPropName known view ∧
  extendDeep (VArr view) = VArr view.
Proof.
  unfold hierarchicalView. intros Hroots Hview. apply mapM_Some in Hview.
  revert view Hview. induction Hroots as [|x roots Hx _ IH]; intros view Hview.
  - apply Forall2_nil_inv_l in Hview as ->. split; [constructor | done].
  - apply Forall2_cons_inv_l in Hview as (node & view' & Hnode & Hview' & ->).
    destruct (snapshot fuel st' x) as [props|] eqn:Hsnap; [|done]. simplify_eq/=.
    destruct (snapshot_nodes _ _ _ Hx Hsnap) as [Hknown Hkids].
    destruct (IH _ Hview') as [Hnodes Hfixed]. split.
    + by constructor.
    + injection Hfixed as Hfixed.
      pose proof (extendDeep_row_fixed _ (snapshot_fixed _ _ _ _ Hsnap)) as Hrow.
      simpl in Hrow. injection Hrow as Hrow. by rewrite Hrow, Hfixed.
Qed.
End ViewFacts.

(** A flat row whose chain of parent ids ends at a root is a row of the
    hierarchical view. *)
Lemma rooted_occurs cn idn pn (st0 st' : store) (n : nat) (copies : rows)
    (all : list (string * loc)) (roots : list loc) fuel view :
  (∀ (i : nat) c, copies !! i = Some c →
                  own all (toStr (get c idn)) = Some (n + i)%nat) →
  (∀ (i : nat) c, copies !! i = Some c → st0 !! (n + i)%nat = Some (rowOfProps c)) →
  (∀ id (x : loc) o, id ∈ keys all → own all id = Some x → st0 !! x = Some o →
     if isRootRow pn o then x ∈ roots
     else ∀ p, own all (cellStr (cellGet o pn)) = Some p → childOf cn st' p x) →
  hierarchicalView fuel st' roots = Some view →
  ∀ i : nat, rooted idn pn copies i →
    ∃ f props, snapshot f st' (n + i)%nat = Some props ∧ occurs cn (VObj props) view.
Proof.
  intros Hall Hst0 Hlinks Hview.
  assert (∀ (i : nat) c, copies !! i = Some c → isRootRow pn (rowOfProps c) = true →
            ∃ f props, snapshot f st' (n + i)%nat = Some props ∧
                       occurs cn (VObj props) view) as Hroot.
  { intros i c Hc Hr.
    pose proof (Hlinks _ _ _ (own_keys _ _ _ (Hall i c Hc)) (Hall i c Hc) (Hst0 i c Hc))
      as Hin.
    rewrite Hr in Hin. apply list_elem_of_lookup in Hin as [k Hk].
    unfold hierarchicalView in Hview. apply mapM_Some in Hview.
    destruct (Forall2_lookup_l _ _ _ _ _ Hview Hk) as (node & Hnode & Heq).
    destruct (snapshot fuel st' (n + i)) as [props|] eqn:Hsnap; [|done]. simplify_eq/=.
    exists fuel, props. split; [done|].
    apply occurs_here; [done|]. by eapply list_elem_of_lookup_2. }
  induction 1 as [i row Hrow Hnone|i row j parentRow Hrow Hparent Hkey _ IH].
  - apply (Hroot i row Hrow). unfold isRootRow. rewrite own_rowOfProps.
    by destruct Hnone as [->| ->].
  - destruct (isRootRow pn (rowOfProps row)) eqn:Hr; [by eapply Hroot|].
    destruct IH as (f & pprops & Hsnap & Hocc).
    pose proof (Hlinks _ _ _ (own_keys _ _ _ (Hall i row Hrow)) (Hall i row Hrow)
                  (Hst0 i row Hrow)) as Hchild.
    rewrite Hr in Hchild. specialize (Hchild (n + j)%nat).
    rewrite cellGet_rowOfProps in Hchild. simpl in Hchild. rewrite <- Hkey in Hchild.
    destruct (Hchild (Hall j parentRow Hparent)) as (o & items & Ho & Hitems & Hin).
    destruct f as [|f]; [done|]. simpl in Hsnap. rewrite Ho in Hsnap. simpl in Hsnap.
    destruct (copyProps_own_Some _ _ _ _ _ Hsnap Hitems) as (arr & Harr & Hmap).
    apply mapM_Some in Hmap. apply list_elem_of_lookup in Hin as [k Hk].
    destruct (Forall2_lookup_l _ _ _ _ _ Hmap Hk) as (node & Hnode & Heq).
    destruct (snapshot f st' (n + i)) as [props|] eqn:Hsnap'; [|done]. simplify_eq/=.
    exists f, props. split; [done|].
    eapply (occurs_child cn _ pprops arr); [done| |done|].
    + unfold get. by rewrite Harr.
    + by eapply list_elem_of_lookup_2.
Qed.

(** *** Where the rows of the flattened array come from *)
Section FlattenNodes.
Variables childrenPropName identifierPropName hasChildrenFlagPropName
          treeLevelPropName parentIdPropName : string.
Variable known : value → Prop.
Hypothesis id_not_level : identifierPropName ≠ treeLevelPropName.
Hypothesis id_not_parent : identifierPropName ≠ parentIdPropName.
Hypothesis id_not_flag : identifierPropName ≠ hasChildrenFlagPropName.
Hypothesis id_not_children : identifierPropName ≠ childrenPropName.
Hypothesis children_not_level : childrenPropName ≠ treeLevelPropName.
Hypothesis children_not_parent : childrenPropName ≠ parentIdPropName.

Local Abbreviation allKnown :=
  (Forall (λ row, known (getProp row identifierPropName))).

Lemma allKnown_alter k out :
  allKnown out → allKnown (alter (markAsParent hasChildrenFlagPropName childrenPropName) k out).
Proof.
  intros Hout. revert k. induction Hout as [|x out Hx Hout IH]; intros [|k]; simpl.
  - constructor.
  - constructor.
  - constructor; [|done].
    by rewrite markAsParent_identifier.
  - constructor; [done | apply IH].
Qed.

Section Loop.
Variable recurse : value → list value → Z → value → outcome (list value).
Hypothesis recurse_known :
  ∀ children outputArray treeLevel parentId outputArray',
    nodesFrom childrenPropName identifierPropName known children →
    allKnown outputArray →
    recurse (VArr children) outputArray treeLevel parentId = Returns outputArray' →
    allKnown outputArray'.

Lemma flattenItems_known items :
  nodesFrom childrenPropName identifierPropName known items →
  ∀ outputArray treeLevel parentId outputArray',
    allKnown outputArray →
    flattenItems recurse childrenPropName identifierPropName hasChildrenFlagPropName
      treeLevelPropName parentIdPropName items outputArray treeLevel parentId
    = Returns outputArray' →
    allKnown outputArray'.
Proof.
  induction 1 as [|props rest Hknown Hkids _ _ IH]; intros out lvl pid out' Hout Hflat.
  - simpl in Hflat. by simplify_eq.
  - simpl in Hflat.
    destruct (findById identifierPropName out (get props identifierPropName))
      as [found| |]; simpl in Hflat; [|done..].
    destruct (negb match found with Some itm => truthy itm | None => false end);
      simpl in Hflat.
    + rewrite !get_set_ne in Hflat by done.
      set (pushed := VObj (set (set props treeLevelPropName (VNum lvl)) parentIdPropName
                             (if truthy pid then pid else VNull))) in *.
      assert (allKnown (out ++ [pushed])) as Hout1.
      { apply Forall_app. split; [done|]. constructor; [|constructor].
        unfold pushed. simpl. by rewrite !get_set_ne. }
      destruct (get props childrenPropName) as [| | | | | |children|] eqn:Hc;
        simpl in Hflat; try (by eapply IH).
      destruct (recurse (VArr children) (out ++ [pushed]) (lvl + 1)
                  (get props identifierPropName)) as [out2| |] eqn:Hrec;
        simpl in Hflat; [|done..].
      eapply IH; [|done]. apply allKnown_alter.
      eapply recurse_known; [by apply Hkids|done..].
    + destruct (get props childrenPropName) as [| | | | | |children|] eqn:Hc;
        simpl in Hflat; try (by eapply IH).
      destruct (recurse (VArr children) out (lvl + 1) (get props identifierPropName))
        as [out2| |] eqn:Hrec; simpl in Hflat; [|done..].
      eapply IH; [|done]. eapply recurse_known; [by apply Hkids|done..].
Qed.
End Loop.

Lemma flatten_known options fuel :
  orDefault (Utilities.childrenPropName options) "children" = childrenPropName →
  orDefault (Utilities.identifierPropName options) "id" = identifierPropName →
  orDefault (Utilities.hasChildrenFlagPropName options) "__hasChildren"
    = hasChildrenFlagPropName →
  orDefault (Utilities.treeLevelPropName options) "__treeLevel" = treeLevelPropName →
  orDefault (Utilities.parentIdPropName options) "__parentId" = parentIdPropName →
  ∀ items outputArray treeLevel parentId outputArray',
    nodesFrom childrenPropName identifierPropName known items →
    allKnown outputArray →
    convertHierarchicalViewToFlatArrayByOutputArrayReference fuel (VArr items)
      outputArray options treeLevel parentId = Returns outputArray' →
    allKnown outputArray'.
Proof.
  intros Hc Hi Hf Hl Hp.
  induction fuel as [|fuel IH]; intros items out lvl pid out' Hnodes Hout Hflat; [done|].
  rewrite flatten_unfold, Hc, Hi, Hf, Hl, Hp in Hflat.
  eapply flattenItems_known; [|done..].
  intros children out0 lvl0 pid0 out0' Hnodes0 Hout0 Hrec. cbv beta in Hrec. by eapply IH.
Qed.
End FlattenNodes.

(** *** The copies of the rows of the tree *)

(** The copy of a row is made when the copies of the rows it refers to
    are. *)
Lemma copyProps_total copyRow o :
  (∀ k items (r : loc), (k, CKids items) ∈ o → inr r ∈ items → is_Some (copyRow r)) →
  is_Some (copyProps copyRow o).
Proof.
  induction o as [|[k c] o IH]; intros Hrefs; simpl; [by eexists|].
  destruct IH as [rest Hrest].
  { intros k' items r Hin. apply (Hrefs k'). by right. }
  rewrite Hrest. destruct c as [v|items].
  - destruct v; by eexists.
  - destruct (mapM_is_Some_2
                (λ e : value + loc, match e with
                                    | inl v => Some (extendDeep v)
                                    | inr l' => VObj <$> copyRow l'
                                    end) items) as [arr Harr].
    { apply Forall_forall. intros [v|r] Hin; simpl; [by eexists|].
      destruct (Hrefs k items r) as [c Hc]; [by left|done|]. rewrite Hc. by eexists. }
    rewrite Harr. by eexists.
Qed.

Section ChainFacts.
Variable parent : loc → loc → Prop.
Variable isRoot : loc → Prop.
Hypothesis parent_functional : ∀ p q x, parent p x → parent q x → p = q.
Hypothesis root_has_no_parent : ∀ p r, isRoot r → ¬ parent p r.

Lemma chainTo_head x path : chainTo parent isRoot x path → ∃ rest, path = x :: rest.
Proof. destruct 1; by eexists. Qed.

Lemma chainTo_unique x path : chainTo parent isRoot x path →
  ∀ path', chainTo parent isRoot x path' → path = path'.
Proof.
  induction 1 as [r Hr|p x path Hpath IH Hpx]; intros path' Hpath'.
  - destruct Hpath' as [r' Hr'|p' r' rest Hrest Hparent]; [done|].
    by destruct (root_has_no_parent p' r').
  - destruct Hpath' as [r' Hr'|p' x' rest Hrest Hparent].
    + by destruct (root_has_no_parent p r').
    + rewrite (parent_functional p p' x') in IH by done. by rewrite (IH rest).
Qed.

Lemma chainTo_suffix x path y :
  chainTo parent isRoot x path → y ∈ path →
  ∃ rest, chainTo parent isRoot y rest ∧ (length rest ≤ length path)%nat.
Proof.
  induction 1 as [r Hr|p x path Hpath IH Hpx]; intros Hy.
  - apply list_elem_of_singleton in Hy as ->. exists [r]. split; [by constructor|done].
  - apply elem_of_cons in Hy as [->|Hy].
    + exists (x :: path). split; [by econstructor|done].
    + destruct (IH Hy) as (rest & Hrest & Hlen). exists rest. split; [done|]. simpl. lia.
Qed.

Lemma chainTo_NoDup x path : chainTo parent isRoot x path → NoDup path.
Proof.
  induction 1 as [r Hr|p x path Hpath IH Hpx]; [apply NoDup_singleton|].
  constructor; [|done]. intros Hin.
  destruct (chainTo_suffix _ _ _ Hpath Hin) as (rest & Hrest & Hlen).
  assert (chainTo parent isRoot x (x :: path)) as Hlong by (by econstructor).
  rewrite (chainTo_unique _ _ Hrest _ Hlong) in Hlen. simpl in Hlen. lia.
Qed.

Lemma chainTo_within (P : loc → Prop) x path :
  (∀ r, isRoot r → P r) → (∀ p y, parent p y → P y) →
  chainTo parent isRoot x path → Forall P path.
Proof.
  intros Hroot Hparent. induction 1 as [r Hr|p x path Hpath IH Hpx].
  - repeat constructor. by apply Hroot.
  - constructor; [by eapply Hparent|done].
Qed.

(** A store whose rows from [n] on, [size] of them, refer to their
    children only: the copy of a row that hangs from a root is made, with
    fuel for the number of the rows. *)
Variable st : store.
Variables n size : nat.
Hypothesis rows_there : ∀ x : loc, (n ≤ x < n + size)%nat → is_Some (st !! x).
Hypothesis kids_are_children : kidsRel n parent st.
Hypothesis roots_within : ∀ r, isRoot r → (n ≤ r < n + size)%nat.
Hypothesis children_within : ∀ p x, parent p x → (n ≤ x < n + size)%nat.

Lemma chainTo_length x path : chainTo parent isRoot x path → (length path ≤ size)%nat.
Proof.
  intros Hpath. transitivity (length (seq n size)); [|by rewrite length_seq].
  apply submseteq_length.
  apply NoDup_submseteq; [by eapply chainTo_NoDup|].
  intros y Hy. apply elem_of_seq.
  pose proof (chainTo_within (λ l, n ≤ l < n + size)%nat _ _
                roots_within children_within Hpath) as Hall.
  rewrite Forall_forall in Hall. specialize (Hall y Hy). simpl in Hall. lia.
Qed.

Lemma snapshot_chain fuel : ∀ x path,
  chainTo parent isRoot x path → (size < fuel + length path)%nat →
  is_Some (snapshot fuel st x).
Proof.
  induction fuel as [|fuel IH]; intros x path Hpath Hfuel.
  { pose proof (chainTo_length _ _ Hpath). simpl in Hfuel. lia. }
  assert (n ≤ x < n + size)%nat as Hx.
  { destruct (chainTo_head _ _ Hpath) as [rest ->].
    pose proof (chainTo_within (λ l, n ≤ l < n + size)%nat _ _
                  roots_within children_within Hpath) as Hall.
    by apply Forall_cons in Hall as [? _]. }
  simpl. destruct (rows_there x Hx) as [o Ho]. rewrite Ho. simpl.
  apply copyProps_total. intros k items r Hk Hr.
  apply (IH r (r :: path)).
  - econstructor; [done|]. eapply kids_are_children; [|done..]. lia.
  - simpl. lia.
Qed.
End ChainFacts.

Lemma kidsRel_weaken n (R R' : loc → loc → Prop) st :
  (∀ l r, R l r → R' l r) → kidsRel n R st → kidsRel n R' st.
Proof. intros Himpl Hkids l o k items r Hl Ho Hk Hr. by eapply Himpl, Hkids. Qed.



(** ** modifyDatasetToAddTreeItemsMapping *)

Lemma sameBut_refl k st : sameBut k st st.
Proof. split; [done|]. intros l o Hl. by exists o. Qed.

Lemma sameBut_insert k st st2 (p : loc) po v :
  sameBut k st st2 → st2 !! p = Some po →
  sameBut k st (<[p := set po k v]> st2).
Proof.
  intros [Hlen Hsame] Hpo. split; [by rewrite length_insert|].
  intros l o Hl. destruct (Hsame l o Hl) as (o2 & Ho2 & Hk).
  destruct (decide (p = l)) as [<-|Hne].
  - exists (set po k v). split.
    + apply list_lookup_insert_eq. by eapply lookup_lt_Some.
    + intros k' Hk'. simplify_eq. rewrite own_set_ne by done. by apply Hk.
  - exists o2. split; [|done]. by rewrite list_lookup_insert_ne.
Qed.

Lemma sameBut_get k st st2 (l : loc) o o2 k' :
  sameBut k st st2 → st !! l = Some o → st2 !! l = Some o2 → k' ≠ k →
  get o2 k' = get o k'.
Proof.
  intros [_ Hsame] Hl Hl2 Hk. destruct (Hsame l o Hl) as (o2' & Ho2' & Hown).
  simplify_eq. unfold get. by rewrite Hown.
Qed.

Lemma concat_keys a x b s :
  x = VArr b →
  s ∈ toStr <$> dedupePrimitiveArray (concat a x) ↔ s ∈ toStr <$> a ∨ s ∈ toStr <$> b.
Proof. intros ->. simpl. by rewrite dedupePrimitiveArray_keys, fmap_app, elem_of_app. Qed.

Section RollUpFacts.
Variable getItemById : value → option loc.
Variables columnId parentPropName treeItemsPropName : string.
Variable st : rows.
Variable items : list loc.
Hypothesis items_not_column : treeItemsPropName ≠ columnId.
Hypothesis items_not_parent : treeItemsPropName ≠ parentPropName.
Hypothesis no_null_row : getItemById VNull = None.
Hypothesis items_NoDup : NoDup items.
Hypothesis items_rows : ∀ l : loc, l ∈ items → is_Some (st !! l).
Hypothesis parents_first : parentsFirst getItemById parentPropName st items.

Local Abbreviation parent := (parentOf getItemById parentPropName st).
Local Abbreviation above := (ancestorOrSelf getItemById parentPropName st).
Local Abbreviation rolled := (rolledUp getItemById columnId parentPropName st).
Local Abbreviation earlier := (before items).

(** The tree items of the row at [x] are an array whose string forms are [K]. *)
Local Abbreviation holds := (λ (st2 : rows) (x : loc) (K : string → Prop),
  ∃ o arr, st2 !! x = Some o ∧ get o treeItemsPropName = VArr arr ∧
           ∀ s, s ∈ toStr <$> arr ↔ K s).

Lemma above_index (i : nat) l x :
  items !! i = Some l → above l x → ∃ j : nat, (j ≤ i)%nat ∧ items !! j = Some x.
Proof.
  intros Hi Habove. revert i Hi.
  induction Habove as [l|l p x Hstep _ IH]; intros i Hi.
  - exists i. by split.
  - destruct (parents_first i l p Hi Hstep) as (j & Hj & Hp).
    destruct (IH j Hp) as (j' & Hj' & Hx). exists j'. split; [lia|done].
Qed.

Lemma earlier_S (i : nat) l x :
  items !! i = Some l → earlier (S i) x ↔ earlier i x ∨ x = l.
Proof.
  intros Hi. split.
  - intros (j & Hj & Hx). destruct (decide (j = i)) as [->|Hne].
    + right. congruence.
    + left. exists j. split; [lia|done].
  - intros [(j & Hj & Hx) | ->].
    + exists j. split; [lia|done].
    + exists i. split; [lia|done].
Qed.

Lemma rolled_S (i : nat) l ol x s :
  items !! i = Some l → st !! l = Some ol →
  rolled (earlier (S i)) x s ↔
  rolled (earlier i) x s ∨ (above l x ∧ s = toStr (get ol columnId)).
Proof.
  intros Hi Hl. split.
  - intros (d & o & Hd & Habove & Ho & ->).
    apply (earlier_S i l d Hi) in Hd as [Hd| ->].
    + left. by exists d, o.
    + right. by simplify_eq.
  - intros [(d & o & Hd & Habove & Ho & ->)|[Habove ->]].
    + exists d, o. split_and!; try done. apply (earlier_S i l d Hi). by left.
    + exists l, ol. split_and!; try done. apply (earlier_S i l l Hi). by right.
Qed.

Lemma rolled_step M x p s : parent x = Some p → rolled M x s → rolled M p s.
Proof.
  intros Hstep (d & o & Hd & Habove & Ho & ->). exists d, o. split_and!; try done.
  by eapply rtc_r.
Qed.

(** The [while] loop, started at the row [l] of index [i] and arrived at
    [item]: the rows in [visited] have the value of [l] among their tree
    items, the others are as they were. *)
Lemma walkUp_rolls (i : nat) l ol :
  items !! i = Some l → st !! l = Some ol →
  ∀ (fuel : nat) st2 (item : loc) (jitem : nat) (visited : list loc),
    items !! jitem = Some item → (jitem < fuel)%nat → (jitem ≤ i)%nat →
    sameBut treeItemsPropName st st2 →
    l ∈ visited → item ∈ visited →
    (∀ x, x ∈ visited →
          above l x ∧ ∃ j : nat, items !! j = Some x ∧ (jitem ≤ j)%nat) →
    (∀ x, above l x → x ∈ visited ∨ ∃ p, parent item = Some p ∧ above p x) →
    (∀ x, x ∈ visited →
          holds st2 x (λ s, rolled (earlier i) x s ∨ s = toStr (get ol columnId))) →
    (∀ x, earlier i x → x ∉ visited → holds st2 x (rolled (earlier i) x)) →
    ∃ st3,
      walkUp fuel getItemById parentPropName treeItemsPropName st2 item (parent item)
      = Returns st3 ∧
      sameBut treeItemsPropName st st3 ∧
      ∀ x, earlier (S i) x → holds st3 x (rolled (earlier (S i)) x).
Proof.
  intros Hi Hl fuel.
  induction fuel as [|fuel IH];
    intros st2 item jitem visited Hitem Hfuel Hji Hsame Hlv Hiv Hvis Hreach Hdone Htodo;
    [lia|].
  destruct (parent item) as [p|] eqn:Hparent.
  - (* one step up *)
    destruct (parents_first jitem item p Hitem Hparent) as (jp & Hjp & Hp).
    assert (p ∉ visited) as Hpv.
    { intros Hin. destruct (Hvis p Hin) as (_ & j & Hj & Hle).
      pose proof (NoDup_lookup _ _ _ _ items_NoDup Hp Hj). lia. }
    assert (earlier i p) as Hpe by (exists jp; split; [lia|done]).
    destruct (Htodo p Hpe Hpv) as (po & a & Hpo & Ha & Hka).
    destruct (Hdone item Hiv) as (io & b & Hio & Hb & Hkb).
    simpl. rewrite Hpo, Hio, Ha.
    set (po' := set po treeItemsPropName
                  (VArr (dedupePrimitiveArray (concat a (get io treeItemsPropName))))).
    assert (getItemById (get po' parentPropName) = parent p) as ->.
    { destruct (items_rows p) as [op Hop]; [by eapply list_elem_of_lookup_2|].
      unfold parentOf. rewrite Hop. simpl. f_equal.
      unfold po'. rewrite get_set_ne by done.
      by eapply sameBut_get. }
    apply (IH _ p jp (p :: visited)); try done; try lia.
    + by apply sameBut_insert.
    + by right.
    + by left.
    + intros x [->|Hx]%elem_of_cons.
      * split; [|by exists jp]. destruct (Hvis item Hiv) as [Habove _].
        by eapply rtc_r.
      * destruct (Hvis x Hx) as (Habove & j & Hj & Hle).
        split; [done|]. exists j. split; [done|lia].
    + intros x Habove. destruct (Hreach x Habove) as [Hx|(p' & Hp' & Hp'x)].
      * left. by right.
      * simplify_eq. apply rtc_inv in Hp'x as [<-|(y & Hy & Hyx)].
        -- left. by left.
        -- right. by exists y.
    + intros x [->|Hx]%elem_of_cons.
      * exists po', (dedupePrimitiveArray (concat a (get io treeItemsPropName))).
        split_and!.
        -- apply list_lookup_insert_eq. by eapply lookup_lt_Some.
        -- unfold po'. by rewrite get_set_eq.
        -- intros s. rewrite (concat_keys a _ b) by done. rewrite Hka, Hkb.
           split; [|tauto]. intros [?|[?|?]]; [tauto| |tauto].
           left. by eapply rolled_step.
      * destruct (Hdone x Hx) as (o & arr & Ho & Harr & Hk).
        exists o, arr. split_and!; try done.
        rewrite list_lookup_insert_ne; [done|]. by intros ->.
    + intros x Hxe Hxv. apply not_elem_of_cons in Hxv as [Hxp Hxv].
      destruct (Htodo x Hxe Hxv) as (o & arr & Ho & Harr & Hk).
      exists o, arr. split_and!; try done.
      by rewrite list_lookup_insert_ne.
  - (* the top *)
    exists st2. split_and!; [done..|].
    intros x Hx. apply (earlier_S i l x Hi) in Hx.
    destruct (decide (x ∈ visited)) as [Hxv|Hxv].
    + destruct (Hdone x Hxv) as (o & arr & Ho & Harr & Hk).
      exists o, arr. split_and!; try done. intros s.
      rewrite Hk, (rolled_S i l ol) by done.
      destruct (Hvis x Hxv) as [Habove _]. tauto.
    + destruct Hx as [Hx | ->]; [|done].
      destruct (Htodo x Hx Hxv) as (o & arr & Ho & Harr & Hk).
      exists o, arr. split_and!; try done. intros s.
      rewrite Hk, (rolled_S i l ol) by done. split; [tauto|].
      intros [?|[Habove _]]; [done|].
      destruct (Hreach x Habove) as [?|(? & ? & _)]; done.
Qed.

Lemma walkUp_top fuel st2 (item : loc) :
  walkUp fuel getItemById parentPropName treeItemsPropName st2 item None = Returns st2.
Proof. by destruct fuel. Qed.

Lemma earlier_all (i : nat) x :
  (length items ≤ i)%nat → earlier i x ↔ earlier (length items) x.
Proof.
  intros Hi. split; intros (j & Hj & Hx); exists j; (split; [|done]).
  - by eapply lookup_lt_Some.
  - lia.
Qed.

(** The [for] loop from the index [i] on. *)
Lemma rollUp_rolls (fuel : nat) :
  (length items ≤ fuel)%nat →
  ∀ todo (i : nat) st2,
    drop i items = todo →
    sameBut treeItemsPropName st st2 →
    (∀ x, earlier i x → holds st2 x (rolled (earlier i) x)) →
    ∃ st3,
      rollUp fuel getItemById columnId parentPropName treeItemsPropName todo st2
      = Returns st3 ∧
      sameBut treeItemsPropName st st3 ∧
      ∀ x, x ∈ items → holds st3 x (rolled (λ d, d ∈ items) x).
Proof.
  intros Hfuel todo.
  induction todo as [|l rest IH]; intros i st2 Hdrop Hsame Hdone.
  - exists st2. split_and!; [done..|].
    assert (length items ≤ i)%nat as Hi.
    { apply (f_equal length) in Hdrop. rewrite length_drop in Hdrop. simpl in Hdrop. lia. }
    intros x Hx. apply list_elem_of_lookup in Hx as [j Hj].
    destruct (Hdone x) as (o & arr & Ho & Harr & Hk).
    { exists j. split; [|done]. apply lookup_lt_Some in Hj. lia. }
    exists o, arr. split_and!; try done. intros s. rewrite Hk.
    split; intros (d & od & Hd & Hrest); exists d, od; (split; [|done]).
    + destruct Hd as (jd & _ & Hjd). by eapply list_elem_of_lookup_2.
    + apply list_elem_of_lookup in Hd as [jd Hjd]. exists jd. split; [|done].
      apply lookup_lt_Some in Hjd. lia.
  - assert (items !! i = Some l) as Hi.
    { rewrite <- (Nat.add_0_r i), <- lookup_drop, Hdrop. done. }
    assert (drop (S i) items = rest) as Hdrop'.
    { rewrite (drop_S _ _ _ Hi) in Hdrop. by simplify_eq. }
    destruct (items_rows l) as [ol Hol]; [by eapply list_elem_of_lookup_2|].
    pose proof Hsame as [_ Hrows]. destruct (Hrows l ol Hol) as (o2 & Ho2 & _).
    simpl. rewrite Ho2.
    set (o1 := set o2 treeItemsPropName (VArr [get o2 columnId])).
    set (st1 := <[l := o1]> st2).
    assert (sameBut treeItemsPropName st st1) as Hsame1 by (by apply sameBut_insert).
    assert (st1 !! l = Some o1) as Ho1.
    { apply list_lookup_insert_eq. by eapply lookup_lt_Some. }
    assert (get o1 parentPropName = get ol parentPropName) as Hpv
      by (by eapply sameBut_get).
    assert (get o2 columnId = get ol columnId) as Hcv
      by (eapply sameBut_get; [exact Hsame|done|done|by apply not_eq_sym]).
    (* with or without the test for [null], the walk starts at the parent *)
    assert ((if negb (strictEq (get o1 parentPropName) VNull)
             then walkUp fuel getItemById parentPropName treeItemsPropName st1 l
                    (getItemById (get o1 parentPropName))
             else Returns st1)
            = walkUp fuel getItemById parentPropName treeItemsPropName st1 l (parent l))
      as ->.
    { unfold parentOf. rewrite Hol. simpl. rewrite Hpv.
      destruct (strictEq (get ol parentPropName) VNull) eqn:Hnull; [|done].
      apply strictEq_true in Hnull. rewrite Hnull, no_null_row.
      by rewrite walkUp_top. }
    destruct (walkUp_rolls i l ol Hi Hol fuel st1 l i [l]) as (st3 & -> & Hsame3 & Hdone3);
      try done.
    + apply lookup_lt_Some in Hi. lia.
    + by left.
    + by left.
    + intros x ->%list_elem_of_singleton. split; [apply rtc_refl|]. by exists i.
    + intros x Habove. apply rtc_inv in Habove as [->|(p & Hp & Hpx)].
      * left. by left.
      * right. by exists p.
    + intros x ->%list_elem_of_singleton.
      exists o1, [get o2 columnId]. split_and!; [done|apply get_set_eq|].
      intros s. simpl. rewrite list_elem_of_singleton, Hcv. split; [by right|].
      intros [(d & od & (jd & Hjd & Hd) & Habove & _)|?]; [|done].
      destruct (above_index jd d l Hd Habove) as (j' & Hj' & Hx).
      pose proof (NoDup_lookup _ _ _ _ items_NoDup Hi Hx). lia.
    + intros x Hx Hxl. apply not_elem_of_cons in Hxl as [Hxl _].
      destruct (Hdone x Hx) as (o & arr & Ho & Harr & Hk).
      exists o, arr. split_and!; try done.
      unfold st1. rewrite list_lookup_insert_ne; done.
    + simpl. by apply (IH (S i)).
Qed.
End RollUpFacts.

Example rollUp_of_the_chain :
  modifyDatasetToAddTreeItemsMapping 3 [0; 1; 2]%nat idColumn chainById chainRows
  = Returns
      [ [("id", VNum 1); ("__parentId", VNull);
         ("__treeItems", VArr [VNum 1; VNum 2; VNum 3])];
        [("id", VNum 2); ("__parentId", VNum 1); ("__treeItems", VArr [VNum 2; VNum 3])];
        [("id", VNum 3); ("__parentId", VNum 2); ("__treeItems", VArr [VNum 3])] ].
Proof. vm_compute. reflexivity. Qed.

(** C3, the claim as it stands fails: with the rows of the chain handed
    over children first, the first row walks up to a parent that has no tree
    items yet, and [concat] is called on [undefined]. *)
Lemma rollUp_children_first_throws :
  modifyDatasetToAddTreeItemsMapping 3 [2; 1; 0]%nat idColumn chainById chainRows = Throws.
Proof. vm_compute. reflexivity. Qed.

(** C3, as amended.  For the chain of the claim the tree items are those
    of the claim.  In general, when in the array of the items the parent of
    each row comes before the row, the rows are distinct, and the data view
    has no row for the identifier [null]: given fuel for the length of the
    array the call returns; it changes the tree-items property only; and the
    tree items of each row are an array whose string forms are those of the
    tree-column values of the row and of all its descendants. *)
Theorem rollUp_holds_descendants :
  modifyDatasetToAddTreeItemsMapping 3 [0; 1; 2]%nat idColumn chainById chainRows
  = Returns
      [ [("id", VNum 1); ("__parentId", VNull);
         ("__treeItems", VArr [VNum 1; VNum 2; VNum 3])];
        [("id", VNum 2); ("__parentId", VNum 1); ("__treeItems", VArr [VNum 2; VNum 3])];
        [("id", VNum 3); ("__parentId", VNum 2); ("__treeItems", VArr [VNum 3])] ] ∧
  ∀ (fuel : nat) (items : list loc) (treeDataColumn : Utilities.Column.t)
    (getItemById : value → option loc) (st : rows),
    let columnId := Utilities.Column.id treeDataColumn in
    let parentName :=
      orDefault (Utilities.Column.treeData treeDataColumn ≫= TreeData.parentPropName)
        "__parentId" in
    let itemsName :=
      orDefault (Utilities.Column.treeData treeDataColumn ≫= TreeData.itemMapPropName)
        "__treeItems" in
    itemsName ∉ [columnId; parentName] →
    getItemById VNull = None →
    NoDup items →
    (∀ l : loc, l ∈ items → is_Some (st !! l)) →
    parentsFirst getItemById parentName st items →
    (length items ≤ fuel)%nat →
    ∃ st',
      modifyDatasetToAddTreeItemsMapping fuel items treeDataColumn getItemById st
      = Returns st' ∧
      sameBut itemsName st st' ∧
      ∀ x : loc, x ∈ items →
        ∃ o arr,
          st' !! x = Some o ∧ get o itemsName = VArr arr ∧
          ∀ s, s ∈ toStr <$> arr ↔
               rolledUp getItemById columnId parentName st (λ d, d ∈ items) x s.
Proof.
  split; [apply rollUp_of_the_chain|].
  intros fuel items treeDataColumn getItemById st cid pn ti Hnames Hnull Hnodup Hrows
    Hfirst Hfuel.
  repeat rewrite not_elem_of_cons in Hnames. destruct Hnames as (Hn1 & Hn2 & _).
  unfold modifyDatasetToAddTreeItemsMapping. fold cid pn ti.
  apply (rollUp_rolls getItemById cid pn ti st items Hn1 Hn2 Hnull Hnodup Hrows Hfirst
           fuel Hfuel items 0%nat st); [done | apply sameBut_refl |].
  intros x (j & Hj & _). lia.
Qed.

Lemma rollUp_holds_descendants_witness :
  ∃ st',
    modifyDatasetToAddTreeItemsMapping 3 [0; 1; 2]%nat idColumn chainById chainRows
    = Returns st' ∧
    sameBut "__treeItems" chainRows st' ∧
    ∀ x : loc, x ∈ [0; 1; 2]%nat →
      ∃ o arr,
        st' !! x = Some o ∧ get o "__treeItems" = VArr arr ∧
        ∀ s, s ∈ toStr <$> arr ↔
             rolledUp chainById "id" "__parentId" chainRows (λ d, d ∈ [0; 1; 2]%nat) x s.
Proof.
  apply (proj2 rollUp_holds_descendants 3%nat [0; 1; 2]%nat idColumn chainById chainRows).
  - apply (bool_decide_eq_true_1 _). vm_compute. reflexivity.
  - reflexivity.
  - apply (bool_decide_eq_true_1 _). vm_compute. reflexivity.
  - intros l Hl.
    repeat (apply elem_of_cons in Hl as [->|Hl]; [by eexists|]).
    by apply elem_of_nil in Hl.
  - intros [|[|[|i]]] l p Hi Hp; simpl in Hi; simplify_eq; vm_compute in Hp; simplify_eq.
    + exists 0%nat. split; [lia|done].
    + exists 1%nat. split; [lia|done].
  - simpl. lia.
Defined.

(** ** Arrays of items: addToArrayWhenNotExists, uniqueArray, uniqueObjectArray *)

Lemma strictEq_refl v : isPrimitive v = true → v ≠ VNaN → strictEq v v = true.
Proof. intros Hv Hnan. rewrite strictEq_refl_prim. by destruct v. Qed.

Lemma strictEq_NaN v : strictEq v VNaN = false.
Proof. by destruct v. Qed.

Lemma NaN_or_not v : v = VNaN ∨ v ≠ VNaN.
Proof. destruct v; by auto. Qed.

Lemma existsb_strictEq l x :
  isPrimitive x = true → x ≠ VNaN → existsb (λ y, strictEq y x) l = true ↔ x ∈ l.
Proof.
  intros Hx Hnan. rewrite existsb_exists. split.
  - intros (y & Hy%list_elem_of_In & Heq). by apply strictEq_true in Heq as ->.
  - intros Hin. exists x. split; [by apply list_elem_of_In|].
    by apply strictEq_refl.
Qed.

(** [NaN] is found nowhere. *)
Lemma findIndexOf_NaN l i : findIndexOf l VNaN i = -1.
Proof.
  revert i. induction l as [|y l IH]; intros i; simpl; [done|].
  by rewrite strictEq_NaN.
Qed.

Lemma findIndexOf_app pre rest x i :
  findIndexOf (pre ++ rest) x i =
  if existsb (λ y, strictEq y x) pre then findIndexOf pre x i
  else findIndexOf rest x (i + Z.of_nat (length pre)).
Proof.
  revert i. induction pre as [|y pre IH]; intros i; simpl.
  - by rewrite Z.add_0_r.
  - destruct (strictEq y x); simpl; [done|].
    rewrite IH. destruct (existsb _ pre); [done|]. f_equal. lia.
Qed.

Lemma findIndexOf_found l x i :
  existsb (λ y, strictEq y x) l = true → i ≤ findIndexOf l x i < i + Z.of_nat (length l).
Proof.
  revert i. induction l as [|y l IH]; intros i; simpl; [done|].
  destruct (strictEq y x); simpl; [lia|].
  intros Hl. specialize (IH (i + 1) Hl). lia.
Qed.

Lemma findIndexOf_none l x i :
  existsb (λ y, strictEq y x) l = false → findIndexOf l x i = -1.
Proof.
  revert i. induction l as [|y l IH]; intros i; simpl; [done|].
  destruct (strictEq y x); simpl; [done|]. apply IH.
Qed.

(** X1.  For an item that is a primitive other than [null], the call
    returns.  When the item is not [NaN]: an item that is in the array
    already leaves the array as it is, any other item is appended, and a
    second call with the same item changes nothing.  [NaN] is found in no
    array, so it is appended by every call. *)
Theorem addToArrayWhenNotExists_primitive (inputArray : list value) (inputItem : value) :
  isPrimitive inputItem = true → inputItem ≠ VNull →
  ∃ arr',
    addToArrayWhenNotExists inputArray inputItem = Returns arr' ∧
    (inputItem ≠ VNaN →
       (inputItem ∈ inputArray → arr' = inputArray) ∧
       (inputItem ∉ inputArray → arr' = inputArray ++ [inputItem]) ∧
       addToArrayWhenNotExists arr' inputItem = Returns arr') ∧
    (inputItem = VNaN →
       arr' = inputArray ++ [VNaN] ∧
       addToArrayWhenNotExists arr' inputItem = Returns (arr' ++ [VNaN])).
Proof.
  intros Hprim Hnull.
  assert (∀ arr, addToArrayWhenNotExists arr inputItem
                 = Returns (if findIndexOf arr inputItem 0 <? 0
                            then arr ++ [inputItem] else arr)) as Hcall.
  { intros arr. by destruct inputItem. }
  destruct (NaN_or_not inputItem) as [->|Hnan].
  { exists (inputArray ++ [VNaN]). rewrite !Hcall, !findIndexOf_NaN. by split_and!. }
  assert (∀ arr, inputItem ∈ arr → (findIndexOf arr inputItem 0 <? 0) = false) as Hin.
  { intros arr Harr. apply (existsb_strictEq _ _ Hprim Hnan) in Harr.
    apply (findIndexOf_found _ _ 0) in Harr. lia. }
  assert (∀ arr, inputItem ∉ arr → (findIndexOf arr inputItem 0 <? 0) = true) as Hout.
  { intros arr Harr. rewrite findIndexOf_none; [done|].
    apply not_true_is_false. by rewrite (existsb_strictEq _ _ Hprim Hnan). }
  destruct (existsb (λ y, strictEq y inputItem) inputArray) eqn:Hex.
  - apply (existsb_strictEq _ _ Hprim Hnan) in Hex.
    exists inputArray. rewrite !Hcall, (Hin _ Hex). by split_and!.
  - assert (inputItem ∉ inputArray) as Hnot.
    { rewrite <- (existsb_strictEq _ _ Hprim Hnan). by rewrite Hex. }
    exists (inputArray ++ [inputItem]). rewrite !Hcall, (Hout _ Hnot).
    split_and!; [done| |done]. intros _. split_and!; [done..|].
    rewrite Hin; [done|]. apply elem_of_app. right. by left.
Qed.

Lemma addToArrayWhenNotExists_primitive_witness :
  ∃ arr',
    addToArrayWhenNotExists [VNum 1; VStr "a"] (VStr "a") = Returns arr' ∧
    (VStr "a" ≠ VNaN →
       (VStr "a" ∈ [VNum 1; VStr "a"] → arr' = [VNum 1; VStr "a"]) ∧
       (VStr "a" ∉ [VNum 1; VStr "a"] → arr' = [VNum 1; VStr "a"] ++ [VStr "a"]) ∧
       addToArrayWhenNotExists arr' (VStr "a") = Returns arr') ∧
    (VStr "a" = VNaN →
       arr' = [VNum 1; VStr "a"] ++ [VNaN] ∧
       addToArrayWhenNotExists arr' (VStr "a") = Returns (arr' ++ [VNaN])).
Proof. apply (addToArrayWhenNotExists_primitive [VNum 1; VStr "a"] (VStr "a")); done. Defined.

Example addToArrayWhenNotExists_NaN :
  addToArrayWhenNotExists [VNaN] VNaN = Returns [VNaN; VNaN].
Proof. reflexivity. Qed.

Lemma findIndexById_spec l id i :
  isPrimitive id = true → id ≠ VNaN →
  Forall (λ item, item ≠ VUndef ∧ item ≠ VNull) l →
  ∃ k, findIndexById l id i = Returns k ∧
       (id ∈ identifiers "id" l → i ≤ k) ∧ (id ∉ identifiers "id" l → k = -1).
Proof.
  intros Hprim Hnan Hl. revert i. induction Hl as [|item l [Hu Hn] _ IH]; intros i; simpl.
  - exists (-1). split_and!; [done| |done]. intros Hin. by apply elem_of_nil in Hin.
  - assert ((if strictEq (getProp item "id") id then Returns i
             else findIndexById l id (i + 1)) =
            match item with
            | VUndef | VNull => Throws
            | _ => if strictEq (getProp item "id") id then Returns i
                   else findIndexById l id (i + 1)
            end) as <- by (by destruct item).
    unfold identifiers. csimpl. fold (identifiers "id" l).
    destruct (strictEq (getProp item "id") id) eqn:Heq.
    + exists i. split_and!; [done|lia|]. apply strictEq_true in Heq.
      rewrite not_elem_of_cons. by intros [? _].
    + destruct (IH (i + 1)) as (k & -> & Hin & Hout). exists k.
      assert (getProp item "id" ≠ id) as Hne.
      { intros Hid. by rewrite Hid, strictEq_refl in Heq. }
      split_and!; [done| |].
      * rewrite elem_of_cons. intros [?|?]; [done|]. specialize (Hin ltac:(done)). lia.
      * rewrite not_elem_of_cons. intros [_ ?]. by apply Hout.
Qed.

(** No item has an [id] that [===] equates with [NaN]. *)
Lemma findIndexById_NaN l i :
  Forall (λ item, item ≠ VUndef ∧ item ≠ VNull) l →
  findIndexById l VNaN i = Returns (-1).
Proof.
  intros Hl. revert i. induction Hl as [|item l [Hu Hn] _ IH]; intros i; simpl; [done|].
  rewrite strictEq_NaN, IH. by destruct item.
Qed.

(** X2.  An object with an own [id] that is a primitive, and without a
    property [hasOwnProperty] of its own, is looked up by that [id] alone.
    When the [id] is not [NaN]: if an item of the array reads the same [id],
    the array is left as it is, whatever else the object holds; otherwise
    the object is appended.  An object whose [id] is [NaN] is appended in
    any case. *)
Theorem addToArrayWhenNotExists_by_id
    (inputArray : list value) (props : list (string * value)) (id : value) :
  own props "id" = Some id → isPrimitive id = true →
  own props "hasOwnProperty" = None →
  Forall (λ item, item ≠ VUndef ∧ item ≠ VNull) inputArray →
  (id ≠ VNaN → id ∈ identifiers "id" inputArray →
   addToArrayWhenNotExists inputArray (VObj props) = Returns inputArray) ∧
  (id ≠ VNaN → id ∉ identifiers "id" inputArray →
   addToArrayWhenNotExists inputArray (VObj props) = Returns (inputArray ++ [VObj props])) ∧
  (id = VNaN →
   addToArrayWhenNotExists inputArray (VObj props) = Returns (inputArray ++ [VObj props])).
Proof.
  intros Hid Hprim Hmethod Hitems. unfold addToArrayWhenNotExists, hasOwnProperty, get.
  rewrite Hmethod, Hid, Hprim.
  destruct (NaN_or_not id) as [->|Hnan].
  { rewrite findIndexById_NaN by done. by split_and!. }
  destruct (findIndexById_spec inputArray id 0 Hprim Hnan Hitems) as (k & -> & Hin & Hout).
  simpl. split_and!; [| |done].
  - intros _ Hk%Hin. by rewrite (proj2 (Z.ltb_ge k 0)).
  - intros _ Hk%Hout. by rewrite Hk.
Qed.

Lemma addToArrayWhenNotExists_by_id_witness :
  addToArrayWhenNotExists [VObj [("id", VNum 1); ("name", VStr "a")]]
    (VObj [("id", VNum 1); ("name", VStr "b")])
  = Returns [VObj [("id", VNum 1); ("name", VStr "a")]].
Proof.
  apply (addToArrayWhenNotExists_by_id [VObj [("id", VNum 1); ("name", VStr "a")]]
           [("id", VNum 1); ("name", VStr "b")] (VNum 1)).
  - reflexivity.
  - reflexivity.
  - reflexivity.
  - by repeat constructor.
  - discriminate.
  - change (VNum 1 ∈ [VNum 1]). by left.
Defined.

Lemma existsb_strictEq_false l x :
  isPrimitive x = true → x ≠ VNaN → x ∉ l → existsb (λ y, strictEq y x) l = false.
Proof.
  intros Hx Hnan Hl. apply not_true_is_false. by rewrite (existsb_strictEq _ _ Hx Hnan).
Qed.

Lemma keepFirsts_spec items : ∀ pre,
  Forall (λ x, isPrimitive x = true) (pre ++ items) →
  let kept := keepFirsts (pre ++ items) items (Z.of_nat (length pre)) in
  NoDup kept ∧ kept `sublist_of` items ∧ (VNaN ∉ kept) ∧
  (∀ x, x ∈ kept → x ∉ pre) ∧ (∀ x, x ∈ items → x ≠ VNaN → x ∈ pre ∨ x ∈ kept).
Proof.
  induction items as [|x items IH]; intros pre Hprim; simpl.
  { split_and!; [constructor|done|apply not_elem_of_nil| |].
    - intros x Hx. by apply elem_of_nil in Hx.
    - intros x Hx. by apply elem_of_nil in Hx. }
  assert (isPrimitive x = true) as Hx.
  { rewrite Forall_app, Forall_cons in Hprim. by destruct Hprim as (_ & ? & _). }
  specialize (IH (pre ++ [x])). rewrite <- app_assoc in IH. simpl in IH.
  rewrite length_app, Nat2Z.inj_add in IH. simpl in IH.
  destruct (IH Hprim) as (Hnodup & Hsub & Hnone & Hfresh & Hcovers). clear IH.
  destruct (NaN_or_not x) as [->|Hnan].
  { (* [NaN] is at no index *)
    rewrite findIndexOf_NaN. rewrite (proj2 (Z.leb_gt _ _)) by lia.
    split_and!; [done | by apply sublist_cons | done | |].
    - intros y Hy Hpre. apply (Hfresh y Hy). apply elem_of_app. by left.
    - intros y [->|Hy]%elem_of_cons Hy'; [done|].
      destruct (Hcovers y Hy Hy') as [[?| ->%list_elem_of_singleton]%elem_of_app|?]; auto.
      done. }
  rewrite findIndexOf_app.
  destruct (existsb (λ y, strictEq y x) pre) eqn:Hex.
  - (* [x] comes earlier *)
    pose proof (findIndexOf_found pre x 0 Hex) as Hlt.
    rewrite (proj2 (Z.leb_gt _ _)) by lia.
    apply (existsb_strictEq _ _ Hx Hnan) in Hex.
    split_and!; [done | by apply sublist_cons | done | |].
    + intros y Hy Hpre. apply (Hfresh y Hy). apply elem_of_app. by left.
    + intros y [->|Hy]%elem_of_cons Hy'; [by left|].
      destruct (Hcovers y Hy Hy') as [[?| ->%list_elem_of_singleton]%elem_of_app|?]; auto.
  - (* the first [x] *)
    assert (x ∉ pre) as Hnot
      by (rewrite <- (existsb_strictEq _ _ Hx Hnan); by rewrite Hex).
    simpl. rewrite strictEq_refl by done.
    rewrite (proj2 (Z.leb_le _ _)) by lia.
    split_and!.
    + constructor; [|done]. intros Hin. apply (Hfresh x Hin). apply elem_of_app. right. by left.
    + by apply sublist_skip.
    + rewrite not_elem_of_cons. split; [done|done].
    + intros y [->|Hy]%elem_of_cons; [done|].
      intros Hpre. apply (Hfresh y Hy). apply elem_of_app. by left.
    + intros y [->|Hy]%elem_of_cons Hy'; [right; by left|].
      destruct (Hcovers y Hy Hy') as [[?| ->%list_elem_of_singleton]%elem_of_app|?]; auto.
      * right. by left.
      * right. by right.
Qed.

Lemma keepFirsts_NoDup items : ∀ pre,
  Forall (λ x, isPrimitive x = true) (pre ++ items) → NoDup (pre ++ items) →
  VNaN ∉ items →
  keepFirsts (pre ++ items) items (Z.of_nat (length pre)) = items.
Proof.
  induction items as [|x items IH]; intros pre Hprim Hnodup Hnone; simpl; [done|].
  assert (isPrimitive x = true) as Hx.
  { rewrite Forall_app, Forall_cons in Hprim. by destruct Hprim as (_ & ? & _). }
  apply not_elem_of_cons in Hnone as [Hnan Hnone].
  assert (x ∉ pre) as Hnot.
  { apply NoDup_app in Hnodup as (_ & Hdisj & _). intros Hin. apply (Hdisj x Hin). by left. }
  rewrite findIndexOf_app, existsb_strictEq_false by done. simpl.
  rewrite strictEq_refl by done. rewrite (proj2 (Z.leb_le _ _)) by lia.
  f_equal. specialize (IH (pre ++ [x])). rewrite <- app_assoc in IH. simpl in IH.
  rewrite length_app, Nat2Z.inj_add in IH. simpl in IH. by apply IH.
Qed.

Lemma uniqueArray_primitives l :
  Forall (λ x, isPrimitive x = true) l →
  uniqueArray (VArr l) = Returns (VArr (keepFirsts l l 0)).
Proof.
  intros Hl. destruct l as [|x l]; [done|]. unfold uniqueArray.
  assert (forallb isPrimitive (x :: l) = true) as ->; [|done].
  apply forallb_forall. intros y Hy%list_elem_of_In.
  rewrite Forall_forall in Hl. by apply Hl.
Qed.

(** X3.  On an array of primitives [uniqueArray] returns the items without
    their repetitions, and without [NaN], which is at no index of an array:
    no item is there twice, every item of the input other than [NaN] is
    there, and the items are in the order of the input.  It changes nothing
    in an array without repetitions and without [NaN], so calling it twice
    is calling it once. *)
Theorem uniqueArray_first_occurrences (items : list value) :
  Forall (λ x, isPrimitive x = true) items →
  ∃ kept,
    uniqueArray (VArr items) = Returns (VArr kept) ∧
    NoDup kept ∧ kept `sublist_of` items ∧ (VNaN ∉ kept) ∧
    (∀ x, x ∈ items → x ≠ VNaN → x ∈ kept) ∧
    uniqueArray (VArr kept) = Returns (VArr kept).
Proof.
  intros Hprim.
  pose proof uniqueArray_primitives as Hcall.
  destruct (keepFirsts_spec items [] Hprim) as (Hnodup & Hsub & Hnone & _ & Hcovers).
  simpl in *. exists (keepFirsts items items 0).
  assert (Forall (λ x, isPrimitive x = true) (keepFirsts items items 0)) as Hkept.
  { apply Forall_forall. intros x Hx. rewrite Forall_forall in Hprim. apply Hprim.
    by eapply elem_of_sublist. }
  split_and!; [by apply Hcall|done..| |].
  - intros x Hx Hnan. by destruct (Hcovers x Hx Hnan) as [?%elem_of_nil|?].
  - rewrite Hcall by done. do 2 f_equal. by apply (keepFirsts_NoDup _ []).
Qed.

Lemma uniqueArray_first_occurrences_witness :
  ∃ kept,
    uniqueArray (VArr [VNum 1; VStr "1"; VNaN; VNum 1]) = Returns (VArr kept) ∧
    NoDup kept ∧ kept `sublist_of` [VNum 1; VStr "1"; VNaN; VNum 1] ∧ (VNaN ∉ kept) ∧
    (∀ x, x ∈ [VNum 1; VStr "1"; VNaN; VNum 1] → x ≠ VNaN → x ∈ kept) ∧
    uniqueArray (VArr kept) = Returns (VArr kept).
Proof.
  apply (uniqueArray_first_occurrences [VNum 1; VStr "1"; VNaN; VNum 1]).
  by repeat constructor.
Defined.

Example uniqueArray_drops_NaN :
  uniqueArray (VArr [VNaN; VNum 1]) = Returns (VArr [VNum 1]).
Proof. reflexivity. Qed.

Lemma firstOccurrences_seen l : ∀ seen seen',
  (∀ k, k ∈ seen ↔ k ∈ seen') → firstOccurrences seen l = firstOccurrences seen' l.
Proof.
  induction l as [|x l IH]; intros seen seen' Hsame; simpl; [done|].
  rewrite (bool_decide_ext _ _ (Hsame (toStr x))).
  destruct (bool_decide _); [by apply IH|]. f_equal. apply IH.
  intros k. rewrite !elem_of_cons. by rewrite Hsame.
Qed.

Lemma keepFirsts_firstOccurrences items : ∀ pre,
  Forall (λ x, ∃ s, x = VStr s) (pre ++ items) →
  keepFirsts (pre ++ items) items (Z.of_nat (length pre))
  = firstOccurrences (toStr <$> pre) items.
Proof.
  induction items as [|x items IH]; intros pre Hstr; simpl; [done|].
  assert (∀ y, y ∈ pre ++ x :: items → isPrimitive y = true) as Hprim.
  { intros y Hy. rewrite Forall_forall in Hstr. by destruct (Hstr y Hy) as [s ->]. }
  assert (isPrimitive x = true) as Hx by (apply Hprim, elem_of_app; right; by left).
  assert (x ≠ VNaN) as Hnan.
  { rewrite Forall_forall in Hstr.
    by destruct (Hstr x) as [s ->]; [apply elem_of_app; right; by left|]. }
  specialize (IH (pre ++ [x])). rewrite <- app_assoc in IH. simpl in IH.
  rewrite length_app, Nat2Z.inj_add, fmap_app in IH. simpl in IH.
  change (Z.of_nat 1) with 1 in IH.
  assert (toStr x ∈ toStr <$> pre ↔ x ∈ pre) as Hkey.
  { split; [|apply list_elem_of_fmap_2].
    intros (y & Hy & Hin)%list_elem_of_fmap. rewrite Forall_forall in Hstr.
    destruct (Hstr x) as [s ->]; [apply elem_of_app; right; by left|].
    destruct (Hstr y) as [s' ->]; [apply elem_of_app; by left|].
    simpl in Hy. by subst. }
  rewrite findIndexOf_app.
  destruct (existsb (λ y, strictEq y x) pre) eqn:Hex.
  - pose proof (findIndexOf_found pre x 0 Hex) as Hlt.
    rewrite (proj2 (Z.leb_gt _ _)) by lia.
    apply (existsb_strictEq _ _ Hx Hnan) in Hex.
    rewrite bool_decide_eq_true_2 by (by apply Hkey).
    rewrite IH by done. apply firstOccurrences_seen.
    intros k. rewrite elem_of_app, list_elem_of_singleton.
    split; [|by left]. intros [?| ->]; [done|by apply Hkey].
  - assert (x ∉ pre) as Hnot
      by (rewrite <- (existsb_strictEq _ _ Hx Hnan); by rewrite Hex).
    simpl. rewrite strictEq_refl by done.
    rewrite (proj2 (Z.leb_le _ _)) by lia.
    rewrite bool_decide_eq_false_2 by (by rewrite Hkey).
    f_equal. rewrite IH by done. apply firstOccurrences_seen.
    intros k. rewrite elem_of_app, list_elem_of_singleton, elem_of_cons. tauto.
Qed.

(** X4.  On an array of strings none of which is ["__proto__"],
    [uniqueArray] and [dedupePrimitiveArray] give the same array. *)
Theorem uniqueArray_dedupePrimitiveArray (items : list value) :
  Forall (λ x, ∃ s, x = VStr s ∧ s ≠ "__proto__") items →
  uniqueArray (VArr items) = Returns (VArr (dedupePrimitiveArray items)).
Proof.
  intros Hstr.
  assert (Forall (λ x, ∃ s, x = VStr s) items) as Hstr'.
  { eapply Forall_impl; [exact Hstr|]. intros x (s & -> & _). by exists s. }
  assert (Forall (λ x, toStr x ≠ "__proto__") items) as Hproto.
  { eapply Forall_impl; [exact Hstr|]. by intros x (s & -> & ?). }
  unfold dedupePrimitiveArray.
  rewrite (dedupeLoop_firstOccurrences _ [] [] []); [|apply onlyOnes_nil| |done].
  2:{ intros k. simpl. rewrite elem_of_nil. split; [by intros [? ?] | done]. }
  pose proof (keepFirsts_firstOccurrences items [] Hstr') as Hkeep. simpl in Hkeep.
  rewrite <- Hkeep. simpl. apply uniqueArray_primitives.
  eapply Forall_impl; [exact Hstr'|]. by intros x [s ->].
Qed.

Lemma uniqueArray_dedupePrimitiveArray_witness :
  uniqueArray (VArr [VStr "a"; VStr "b"; VStr "a"])
  = Returns (VArr (dedupePrimitiveArray [VStr "a"; VStr "b"; VStr "a"])).
Proof.
  apply (uniqueArray_dedupePrimitiveArray [VStr "a"; VStr "b"; VStr "a"]).
  repeat constructor; by eexists.
Defined.

Lemma sameValueZero_spec x y :
  isPrimitive x = true → sameValueZero x y = true ↔ x = y.
Proof.
  intros Hx. split.
  - destruct x, y; simpl; try done; intros Heq; apply strictEq_true; exact Heq.
  - intros <-. destruct x; simpl in *; try done.
    + by destruct b.
    + apply Z.eqb_refl.
    + apply String.eqb_refl.
Qed.

Lemma existsb_sameValueZero l x :
  isPrimitive x = true → existsb (sameValueZero x) l = true ↔ x ∈ l.
Proof.
  intros Hx. rewrite existsb_exists. split.
  - intros (y & Hy%list_elem_of_In & Heq). by apply sameValueZero_spec in Heq as ->.
  - intros Hin. exists x. split; [by apply list_elem_of_In|].
    by apply sameValueZero_spec.
Qed.

Lemma uniqueObjectLoop_spec propertyName items : ∀ map result,
  Forall (λ item, ∃ props, item = VObj props ∧
                           isPrimitive (get props propertyName) = true) items →
  map = identifiers "id" result → NoDup map →
  Forall (λ row, ∃ id name, row = VObj [("id", id); ("name", name)]) result →
  ∃ result',
    uniqueObjectLoop propertyName items map result = Returns result' ∧
    result `prefix_of` result' ∧
    Forall (λ row, ∃ id name, row = VObj [("id", id); ("name", name)]) result' ∧
    NoDup (identifiers "id" result') ∧
    (∀ item, item ∈ items → getProp item propertyName ∈ identifiers "id" result') ∧
    (∀ id, id ∈ identifiers "id" result' →
           id ∈ map ∨ id ∈ (λ item, getProp item propertyName) <$> items).
Proof.
  induction items as [|item items IH]; intros map result Hitems -> Hnodup Hshape.
  { exists result. split_and!; [done..| |by left].
    intros item Hitem. by apply elem_of_nil in Hitem. }
  apply Forall_cons in Hitems as [(props & -> & Hprim) Hitems]. simpl.
  rewrite Hprim. simpl.
  destruct (existsb (sameValueZero (get props propertyName)) (identifiers "id" result))
    eqn:Hex; simpl.
  - apply (existsb_sameValueZero _ _ Hprim) in Hex.
    destruct (IH _ result Hitems eq_refl Hnodup Hshape)
      as (result' & -> & Hpre & Hshape' & Hnodup' & Hcovers & Hfrom).
    exists result'. split_and!; [done..| |].
    + intros item [->|Hitem]%elem_of_cons; [|by apply Hcovers].
      simpl. destruct Hpre as [more ->]. unfold identifiers. rewrite fmap_app.
      apply elem_of_app. by left.
    + intros id Hid. destruct (Hfrom id Hid) as [?|?]; [by left|]. right. by right.
  - assert (get props propertyName ∉ identifiers "id" result) as Hnot.
    { rewrite <- (existsb_sameValueZero _ _ Hprim). by rewrite Hex. }
    set (row := VObj [("id", get props propertyName); ("name", get props "name")]).
    destruct (IH (identifiers "id" result ++ [get props propertyName]) (result ++ [row]))
      as (result' & -> & Hpre & Hshape' & Hnodup' & Hcovers & Hfrom); [done| | | |].
    + by rewrite identifiers_snoc.
    + apply NoDup_app. split_and!; [done| |apply NoDup_singleton].
      intros id Hid ->%list_elem_of_singleton. done.
    + apply Forall_app. split; [done|]. repeat constructor. by eexists _, _.
    + exists result'. split_and!; [done| |done..| |].
      * etrans; [|done]. by apply prefix_app_r.
      * intros item [->|Hitem]%elem_of_cons; [|by apply Hcovers].
        simpl. destruct Hpre as [more ->]. unfold identifiers. rewrite !fmap_app.
        apply elem_of_app. left. apply elem_of_app. right. by left.
      * intros id Hid.
        destruct (Hfrom id Hid) as [[?| ->%list_elem_of_singleton]%elem_of_app|?].
        -- by left.
        -- right. by left.
        -- right. by right.
Qed.

(** X5.  On an array of objects whose [propertyName] values are primitives,
    [uniqueObjectArray] returns.  Each row of the result holds [id] and
    [name] and nothing else, with the [propertyName] value of an item under
    [id]; no [id] is there twice, and the [id]s are the [propertyName]
    values of the items, each of them. *)
Theorem uniqueObjectArray_ids (items : list value) (propertyName : string) :
  Forall (λ item, ∃ props, item = VObj props ∧
                           isPrimitive (get props propertyName) = true) items →
  ∃ result,
    uniqueObjectArray (VArr items) (Some propertyName) = Returns (VArr result) ∧
    Forall (λ row, ∃ id name, row = VObj [("id", id); ("name", name)]) result ∧
    NoDup (identifiers "id" result) ∧
    ∀ id, id ∈ identifiers "id" result ↔
          id ∈ (λ item, getProp item propertyName) <$> items.
Proof.
  intros Hitems.
  destruct (uniqueObjectLoop_spec propertyName items [] [] Hitems eq_refl)
    as (result & Hloop & _ & Hshape & Hnodup & Hcovers & Hfrom);
    [constructor..|].
  exists result. split_and!; [|done..|].
  - destruct items as [|item items]; [by simpl in Hloop; simplify_eq|].
    unfold uniqueObjectArray. by rewrite Hloop.
  - intros id. split.
    + intros Hid. by destruct (Hfrom id Hid) as [?%elem_of_nil|?].
    + intros (item & -> & Hitem)%list_elem_of_fmap. by apply Hcovers.
Qed.

Lemma uniqueObjectArray_ids_witness :
  ∃ result,
    uniqueObjectArray
      (VArr [VObj [("key", VNum 1); ("name", VStr "a")];
             VObj [("key", VNum 1); ("name", VStr "b")]]) (Some "key")
    = Returns (VArr result) ∧
    Forall (λ row, ∃ id name, row = VObj [("id", id); ("name", name)]) result ∧
    NoDup (identifiers "id" result) ∧
    ∀ id, id ∈ identifiers "id" result ↔
          id ∈ (λ item, getProp item "key") <$>
                 [VObj [("key", VNum 1); ("name", VStr "a")];
                  VObj [("key", VNum 1); ("name", VStr "b")]].
Proof.
  apply (uniqueObjectArray_ids
           [VObj [("key", VNum 1); ("name", VStr "a")];
            VObj [("key", VNum 1); ("name", VStr "b")]] "key").
  repeat constructor; by eexists.
Defined.

(** ** findItemInHierarchicalStructure *)

Lemma forest_rows cn items x : forest cn items → x ∈ items → isRow x.
Proof. induction 1; intros Hx; [by apply elem_of_nil in Hx|]. by apply elem_of_cons in Hx as [->|?]; auto. Qed.

Lemma forest_app cn l1 l2 : forest cn l1 → forest cn l2 → forest cn (l1 ++ l2).
Proof. induction 1; intros Hl2; simpl; [done|]. constructor; auto. Qed.

Lemma forest_childrenOf cn items : forest cn items → forest cn (childrenOf cn items).
Proof.
  induction 1 as [|props rest Hkids _ _ _ IH]; simpl; [constructor|].
  apply forest_app; [|done].
  destruct (get props cn) eqn:Hget; try constructor. by apply Hkids.
Qed.

Lemma level_nil cn k : level cn k [] = [].
Proof. induction k; simpl; done. Qed.

Lemma height_childrenOf cn items :
  forest cn items → items ≠ [] →
  (height (VArr (childrenOf cn items)) < height (VArr items))%nat.
Proof.
  intros Hforest Hne.
  assert (∀ c, c ∈ childrenOf cn items → (height c + 2 < height (VArr items))%nat) as Hlt.
  { intros c (x & Hx & Hc)%list_elem_of_In%in_flat_map. apply list_elem_of_In in Hx, Hc.
    apply height_elem in Hx. destruct x as [| | | | | | |props]; simpl in Hc;
      try by apply elem_of_nil in Hc.
    pose proof (height_get props cn) as Hget.
    destruct (get props cn) as [| | | | | |children|]; try by apply elem_of_nil in Hc.
    apply height_elem in Hc. lia. }
  assert (2 ≤ height (VArr items))%nat.
  { destruct Hforest; [done|]. simpl. lia. }
  revert Hlt. generalize (childrenOf cn items). intros l Hl.
  assert (∀ n, (∀ c, c ∈ l → (height c + 2 < n)%nat) → (2 ≤ n)%nat →
               (height (VArr l) < n)%nat) as Hgen; [|by apply Hgen].
  clear. intros n. induction l as [|c l IH]; intros Hl Hn; simpl; [lia|].
  assert (height c + 2 < n)%nat by (apply Hl; by left).
  assert (height (VArr l) < n)%nat by (apply IH; [|done]; intros; apply Hl; by right).
  simpl in *. lia.
Qed.

Lemma filterItems_forest cn items :
  forest cn items →
  ∃ kept, filterItems (λ x, hasOwnTruthy x cn) items = Returns kept ∧
          forest cn kept ∧ childrenOf cn kept = childrenOf cn items ∧
          Forall (λ x, ∃ children, getProp x cn = VArr children) kept ∧
          (kept = [] → childrenOf cn items = []) ∧ (items = [] → kept = []).
Proof.
  induction 1
    as [|props rest Hkids _ Hshape Hrest (kept & Hkept & Hforest & Hsame & Hall & Hnil & _)];
    simpl.
  { exists []. split_and!; [done|constructor|done|constructor|done..]. }
  rewrite Hkept. unfold hasOwnTruthy. simpl. unfold hasOwnProperty.
  destruct (own props cn) as [v|] eqn:Hown; simpl.
  - assert (get props cn = v) as Hget by (unfold get; by rewrite Hown).
    rewrite Hget. destruct (truthy v) eqn:Hv.
    + destruct Hshape as [Harr|?]; [|congruence]. rewrite Hget in Harr.
      destruct v as [| | | | | |children|]; try done.
      exists (VObj props :: kept). split_and!; [done| | | |done..].
      * constructor; [done| |done]. rewrite Hget. by left.
      * simpl. by rewrite Hget, Hsame.
      * constructor; [|done]. exists children. done.
    + exists kept. split_and!; [done..| | | |done].
      * rewrite Hsame. by destruct v.
      * done.
      * intros Hk. rewrite (Hnil Hk). by destruct v.
  - assert (get props cn = VUndef) as Hget by (unfold get; by rewrite Hown).
    exists kept. split_and!; [done..| | | |done].
    + simpl. by rewrite Hget.
    + done.
    + intros Hk. simpl. by rewrite Hget, (Hnil Hk).
Qed.

Lemma collectChildren_rows cn items : ∀ childElements,
  Forall (λ x, ∃ children, getProp x cn = VArr children) items →
  collectChildren cn items childElements = Returns (childElements ++ childrenOf cn items).
Proof.
  induction items as [|x items IH]; intros acc Hall; simpl.
  - by rewrite app_nil_r.
  - apply Forall_cons in Hall as [(children & Hx) Hall].
    destruct x as [| | | | | | |props]; try done. simpl in *.
    unfold hasOwnProperty, get in *. destruct (own props cn) as [v|]; [|done]. subst v.
    simpl. rewrite IH by done. by rewrite app_assoc.
Qed.

(** The search goes level by level. *)
Lemma findItem_levels predicate cn fuel : ∀ items,
  cn ≠ "" → forest cn items → (height (VArr items) ≤ fuel)%nat →
  ∃ r,
    findItemInHierarchicalStructure fuel items predicate cn = Returns r ∧
    ((r = VUndef ∧ ∀ k, List.find predicate (level cn k items) = None) ∨
     (∃ k, List.find predicate (level cn k items) = Some r ∧
           ∀ j, (j < k)%nat → List.find predicate (level cn j items) = None)).
Proof.
  intros items Hcn. apply String.eqb_neq in Hcn.
  revert items. induction fuel as [|fuel IH]; intros items Hforest Hheight.
  { simpl in Hheight. lia. }
  simpl. rewrite Hcn.
  destruct (filterItems_forest cn items Hforest)
    as (kept & -> & Hkept & Hsame & Hall & Hnil & Hempty). simpl.
  destruct (List.find predicate items) as [x|] eqn:Hfind.
  - (* a row of the first level *)
    apply find_some in Hfind as Hx. destruct Hx as [Hx%list_elem_of_In Hp].
    apply (forest_rows _ _ _ Hforest) in Hx. destruct x; try done. simpl.
    eexists. split; [done|]. right. exists 0%nat. split; [done|]. intros j Hj. lia.
  - simpl. destruct kept as [|x kept].
    + exists VUndef. split; [done|]. left. split; [done|].
      intros [|k]; simpl; [done|]. by rewrite (Hnil eq_refl), level_nil.
    + rewrite collectChildren_rows by done. rewrite app_nil_l, Hsame. simpl.
      assert (items ≠ []) as Hne.
      { intros Hitems. by specialize (Hempty Hitems). }
      pose proof (height_childrenOf cn items Hforest Hne) as Hlt.
      destruct (IH (childrenOf cn items)) as (r & -> & Hr);
        [by apply forest_childrenOf | lia |].
      exists r. split; [done|]. destruct Hr as [[-> Hnone]|(k & Hk & Hbefore)].
      * left. split; [done|]. intros [|k]; simpl; [done | apply Hnone].
      * right. exists (S k). split; [done|].
        intros [|j] Hj; simpl; [done|]. apply Hbefore. lia.
Qed.

Lemma childrenOf_elem cn items c :
  c ∈ childrenOf cn items ↔
  ∃ props children, VObj props ∈ items ∧ get props cn = VArr children ∧ c ∈ children.
Proof.
  unfold childrenOf. rewrite list_elem_of_In, in_flat_map. split.
  - intros (x & Hx%list_elem_of_In & Hc%list_elem_of_In).
    destruct x as [| | | | | | |props]; simpl in Hc; try by apply elem_of_nil in Hc.
    destruct (get props cn) as [| | | | | |children|] eqn:Hget; try by apply elem_of_nil in Hc.
    by exists props, children.
  - intros (props & children & Hx & Hget & Hc). exists (VObj props).
    split; [by apply list_elem_of_In|]. simpl. rewrite Hget. by apply list_elem_of_In.
Qed.

Lemma level_mono cn k : ∀ l1 l2,
  (∀ x, x ∈ l1 → x ∈ l2) → ∀ x, x ∈ level cn k l1 → x ∈ level cn k l2.
Proof.
  induction k as [|k IH]; intros l1 l2 Hsub x; simpl; [by apply Hsub|].
  apply IH. intros c (props & children & Hin & Hget & Hc)%childrenOf_elem.
  apply childrenOf_elem. exists props, children. auto.
Qed.

Lemma occurs_level cn node items :
  occurs cn node items → ∃ k, node ∈ level cn k items.
Proof.
  induction 1 as [items Hrow Hin|props children items Hin Hget _ [k Hk]].
  - by exists 0%nat.
  - exists (S k). simpl. eapply level_mono; [|done].
    intros c Hc. apply childrenOf_elem. by exists props, children.
Qed.

Lemma occurs_childrenOf cn node items :
  occurs cn node (childrenOf cn items) → occurs cn node items.
Proof.
  intros Hoccurs.
  inversion Hoccurs as [? Hrow Hin|props' children' ? Hin Hget' Hbelow]; subst.
  - apply childrenOf_elem in Hin as (props & children & Hp & Hget & Hc).
    eapply occurs_below; [done..|]. by apply occurs_here.
  - apply childrenOf_elem in Hin as (props & children & Hp & Hget & Hc).
    eapply occurs_below; [done..|]. by eapply occurs_below.
Qed.

Lemma level_occurs cn k : ∀ items node,
  forest cn items → node ∈ level cn k items → occurs cn node items.
Proof.
  induction k as [|k IH]; intros items node Hforest Hnode; simpl in Hnode.
  - apply occurs_here; [|done]. by eapply forest_rows.
  - apply occurs_childrenOf, IH; [|done]. by apply forest_childrenOf.
Qed.


Ltac forest_by_computation :=
  repeat first
    [ apply forest_nil
    | apply forest_row;
      [ let Hc := fresh "Hc" in
        intros ? Hc; vm_compute in Hc; first [discriminate Hc | injection Hc as <-]
      | vm_compute; first [by left | by right] |] ].




Lemma filterItems_null cn items :
  cn ≠ "length" → arrayIndex cn = None → VNull ∈ items ∨ VUndef ∈ items →
  filterItems (λ x, hasOwnTruthy x cn) items = Throws.
Proof.
  intros Hlength Hindex. apply String.eqb_neq in Hlength.
  induction items as [|x items IH]; intros Hin.
  { destruct Hin as [Hin|Hin]; by apply elem_of_nil in Hin. }
  simpl.
  assert (x = VNull ∨ x = VUndef ∨ VNull ∈ items ∨ VUndef ∈ items) as Hcases.
  { destruct Hin as [[->|?]%elem_of_cons|[->|?]%elem_of_cons]; auto. }
  destruct Hcases as [->|[->|Hrest]]; [reflexivity..|]. rewrite (IH Hrest).
  unfold hasOwnTruthy.
  destruct x as [| |b|n| |s|elems|props]; simpl; try done.
  - by rewrite Hlength, Hindex.
  - by rewrite Hlength, Hindex.
  - by destruct (hasOwnProperty props cn).
Qed.

(** X8.  An item that is [null] or [undefined], anywhere in the array that
    is searched, makes the call throw, also when an item before it is a
    match: the items with children are collected before the match is looked
    at. *)
Theorem findItemInHierarchicalStructure_null_item_throws
    (fuel : nat) (items : list value) (predicate : value → bool) (cn : string) :
  cn ≠ "" → cn ≠ "length" → arrayIndex cn = None →
  VNull ∈ items ∨ VUndef ∈ items →
  findItemInHierarchicalStructure (S fuel) items predicate cn = Throws.
Proof.
  intros Hcn Hlength Hindex Hin. apply String.eqb_neq in Hcn. simpl.
  by rewrite Hcn, filterItems_null.
Qed.

Lemma findItemInHierarchicalStructure_null_item_throws_witness :
  findItemInHierarchicalStructure 1 [VObj [("id", VNum 3)]; VNull] (hasId 3) "children"
  = Throws.
Proof.
  apply (findItemInHierarchicalStructure_null_item_throws 0
           [VObj [("id", VNum 3)]; VNull] (hasId 3) "children").
  - done.
  - done.
  - reflexivity.
  - left. apply elem_of_cons. right. by left.
Defined.

(** ** htmlEncode *)

Lemma entityMap_cases c :
  (entityMap c = None ∧ c ≠ "&"%char ∧ c ≠ "<"%char ∧ c ≠ ">"%char ∧
   c ≠ "034"%char ∧ c ≠ "'"%char) ∨
  (c = "&"%char ∧ entityMap c = Some "&amp;") ∨
  (c = "<"%char ∧ entityMap c = Some "&lt;") ∨
  (c = ">"%char ∧ entityMap c = Some "&gt;") ∨
  (c = "034"%char ∧ entityMap c = Some "&quot;") ∨
  (c = "'"%char ∧ entityMap c = Some "&#39;").
Proof.
  unfold entityMap.
  destruct (Ascii.eqb_spec c "&") as [->|?]; [by auto|].
  destruct (Ascii.eqb_spec c "<") as [->|?]; [by auto 10|].
  destruct (Ascii.eqb_spec c ">") as [->|?]; [by auto 10|].
  destruct (Ascii.eqb_spec c "034") as [->|?]; [by auto 10|].
  destruct (Ascii.eqb_spec c "'") as [->|?]; [by auto 10|].
  by left.
Qed.

Lemma append_String c s t : String c s +:+ t = String c (s +:+ t).
Proof. reflexivity. Qed.

Lemma append_empty_l t : "" +:+ t = t.
Proof. reflexivity. Qed.

Lemma list_ascii_of_string_app s1 s2 :
  list_ascii_of_string (s1 +:+ s2) = list_ascii_of_string s1 ++ list_ascii_of_string s2.
Proof. induction s1 as [|c s1 IH]; simpl; [done|]. by rewrite IH. Qed.

Lemma htmlEncode_string s : htmlEncode (VStr s) = replaceSpecials s.
Proof. unfold htmlEncode. simpl. by destruct s. Qed.

(** X9.  Whatever the input, the encoded text holds none of the
    characters [<], [>], the double quote and the single quote: each was
    replaced by its entity. *)
Theorem htmlEncode_no_markup (inputValue : value) :
  Forall (λ c, c ≠ "<"%char ∧ c ≠ ">"%char ∧ c ≠ "034"%char ∧ c ≠ "'"%char)
    (list_ascii_of_string (htmlEncode inputValue)).
Proof.
  unfold htmlEncode. generalize (if truthy inputValue then toStr inputValue else "").
  intros s. induction s as [|c s IH]; simpl; [constructor|].
  destruct (entityMap_cases c)
    as [(-> & ? & ? & ? & ? & ?)|[[-> ->]|[[-> ->]|[[-> ->]|[[-> ->]|[-> ->]]]]]];
    [by constructor|..];
    rewrite list_ascii_of_string_app; (apply Forall_app; split; [|done]);
    repeat constructor; done.
Qed.

(** X10.  Two strings with the same encoding are the same string: the
    encoding loses nothing. *)
Theorem htmlEncode_injective (s1 s2 : string) :
  htmlEncode (VStr s1) = htmlEncode (VStr s2) → s1 = s2.
Proof.
  rewrite !htmlEncode_string. revert s2.
  induction s1 as [|c1 s1 IH]; intros [|c2 s2]; simpl.
  - done.
  - intros Heq.
    destruct (entityMap_cases c2)
      as [(Hc & _)|[[_ Hc]|[[_ Hc]|[[_ Hc]|[[_ Hc]|[_ Hc]]]]]]; by rewrite Hc in Heq.
  - intros Heq.
    destruct (entityMap_cases c1)
      as [(Hc & _)|[[_ Hc]|[[_ Hc]|[[_ Hc]|[[_ Hc]|[_ Hc]]]]]]; by rewrite Hc in Heq.
  - intros Heq.
    destruct (entityMap_cases c1)
      as [(Hc1 & ? & ? & ? & ? & ?)|[[-> Hc1]|[[-> Hc1]|[[-> Hc1]|[[-> Hc1]|[-> Hc1]]]]]];
    destruct (entityMap_cases c2)
      as [(Hc2 & ? & ? & ? & ? & ?)|[[-> Hc2]|[[-> Hc2]|[[-> Hc2]|[[-> Hc2]|[-> Hc2]]]]]];
      rewrite ?Hc1, ?Hc2 in Heq; rewrite ?append_String, ?append_empty_l in Heq;
      simplify_eq; f_equal; by apply IH.
Qed.

Lemma htmlEncode_injective_witness : "a<b" = "a<b".
Proof. apply (htmlEncode_injective "a<b" "a<b"). reflexivity. Defined.

(** ** htmlEntityEncode and htmlEntityDecode *)

Lemma length_append s t :
  String.length (s +:+ t) = (String.length s + String.length t)%nat.
Proof. induction s as [|c s IH]; [done|]. simpl. by rewrite <- IH. Qed.

Lemma append_assoc s t u : (s +:+ t) +:+ u = s +:+ t +:+ u.
Proof. induction s as [|c s IH]; [done|]. by rewrite !append_String, IH. Qed.

Lemma htmlEntityEncode_unfold input :
  htmlEntityEncode input = String.concat "" (entityOfChar <$> list_ascii_of_string input).
Proof.
  unfold htmlEntityEncode. f_equal.
  assert (∀ l buf, fold_left (λ buf c, entityOfChar c :: buf) (rev l) buf
                   = (entityOfChar <$> l) ++ buf) as Hfold; [|by rewrite Hfold, app_nil_r].
  induction l as [|c l IH]; intros buf; simpl; [done|].
  by rewrite fold_left_app, IH.
Qed.

Lemma concat_empty_cons s l : String.concat "" (s :: l) = s +:+ String.concat "" l.
Proof.
  destruct l as [|s' l]; simpl; [|done].
  induction s as [|c s IH]; [done|]. by rewrite append_String, <- IH.
Qed.

Lemma htmlEntityEncode_cons c input :
  htmlEntityEncode (String c input) = entityOfChar c +:+ htmlEntityEncode input.
Proof. rewrite !htmlEntityEncode_unfold. simpl. apply concat_empty_cons. Qed.

Lemma pretty_char_code c :
  let dec := pretty (N_of_ascii c) in
  forallb isDigit (list_ascii_of_string dec) = true ∧ dec ≠ "" ∧
  fromCharCode dec = Returns (String c "").
Proof.
  assert ((forallb isDigit (list_ascii_of_string (pretty (N_of_ascii c)))
           && negb (String.eqb (pretty (N_of_ascii c)) "")
           && match fromCharCode (pretty (N_of_ascii c)) with
              | Returns s => String.eqb s (String c "")
              | _ => false
              end)%bool = true) as Hok.
  2:{ apply andb_true_iff in Hok as [[Hdigits Hne]%andb_true_iff Hchar].
      split_and!; [done| |].
      - apply String.eqb_neq. by apply negb_true_iff.
      - destruct (fromCharCode _) as [s| |]; [|done..].
        by apply String.eqb_eq in Hchar as ->. }
  destruct c as [[] [] [] [] [] [] [] []]; vm_compute; reflexivity.
Qed.

Lemma takeDigits_app dec c t :
  forallb isDigit (list_ascii_of_string dec) = true → isDigit c = false →
  takeDigits (dec +:+ String c t) = dec.
Proof.
  intros Hdec Hc. induction dec as [|d dec IH]; simpl in *; [by rewrite Hc|].
  apply andb_true_iff in Hdec as [-> Hdec]. by rewrite IH.
Qed.

Lemma dropChars_app s t : dropChars (String.length s) (s +:+ t) = t.
Proof. induction s as [|c s IH]; simpl; [by destruct t|done]. Qed.

Lemma decodeEntities_skip s t :
  decodeEntities (String.length s) (s +:+ t) = decodeEntities 0 t.
Proof. induction s as [|c s IH]; simpl; [by destruct t|done]. Qed.

Lemma bind_Returns {A B} (a : A) (f : A → outcome B) : (Returns a ≫= f) = f a.
Proof. reflexivity. Qed.

Lemma decodeEntities_unfold c s :
  decodeEntities 0 (String c s)
  = match matchEntity (String c s) with
    | Some dec =>
        char ← fromCharCode dec;
        rest ← decodeEntities (String.length dec + 2) s;
        Returns (char +:+ rest)
    | None =>
        rest ← decodeEntities 0 s;
        Returns (String c rest)
    end.
Proof. reflexivity. Qed.

(** One entity, and what follows it. *)
Lemma decodeEntities_entity c t :
  decodeEntities 0 (entityOfChar c +:+ t)
  = rest ← decodeEntities 0 t; Returns (String c rest).
Proof.
  destruct (pretty_char_code c) as (Hdigits & Hne & Hchar).
  unfold entityOfChar. revert Hdigits Hne Hchar.
  generalize (pretty (N_of_ascii c)). intros dec Hdigits Hne Hchar.
  assert (("&#" +:+ dec +:+ ";") +:+ t
          = String "&" (String "#" (dec +:+ String ";" t))) as ->.
  { by rewrite !append_assoc. }
  assert (matchEntity (String "&" (String "#" (dec +:+ String ";" t))) = Some dec)
    as Hmatch.
  { unfold matchEntity. simpl. rewrite takeDigits_app by done.
    apply String.eqb_neq in Hne. rewrite Hne.
    by rewrite dropChars_app. }
  rewrite decodeEntities_unfold, Hmatch, Hchar, bind_Returns.
  replace (String.length dec + 2)%nat
    with (String.length (String "#" (dec +:+ ";")))
    by (simpl; rewrite length_append; simpl; lia).
  assert (String "#" (dec +:+ String ";" t) = String "#" (dec +:+ ";") +:+ t) as ->.
  { by rewrite append_String, append_assoc. }
  rewrite decodeEntities_skip. reflexivity.
Qed.

(** X11.  Decoding the entities of an encoded string gives the string
    back, whatever its characters. *)
Theorem htmlEntityDecode_htmlEntityEncode (input : string) :
  htmlEntityDecode (htmlEntityEncode input) = Returns input.
Proof.
  unfold htmlEntityDecode. induction input as [|c input IH]; [done|].
  by rewrite htmlEntityEncode_cons, decodeEntities_entity, IH.
Qed.

Lemma matchEntity_other c s : c ≠ "&"%char → matchEntity (String c s) = None.
Proof.
  intros Hc. unfold matchEntity. destruct s as [|c2 s]; [done|].
  by destruct (Ascii.eqb_spec c "&").
Qed.

(** X12.  A text without the character [&] holds no entity, and is
    returned as it is. *)
Theorem htmlEntityDecode_plain_text (input : string) :
  Forall (λ c, c ≠ "&"%char) (list_ascii_of_string input) →
  htmlEntityDecode input = Returns input.
Proof.
  unfold htmlEntityDecode. induction input as [|c input IH]; [done|].
  intros [Hc Hrest]%Forall_cons.
  rewrite decodeEntities_unfold, matchEntity_other by done. by rewrite IH.
Qed.

Lemma htmlEntityDecode_plain_text_witness :
  htmlEntityDecode "a < b" = Returns "a < b".
Proof.
  apply (htmlEntityDecode_plain_text "a < b"). by repeat constructor.
Defined.

Lemma entityOfChar_chars c :
  Forall (λ x, x = "&"%char ∨ x = "#"%char ∨ x = ";"%char ∨ isDigit x = true)
    (list_ascii_of_string (entityOfChar c)).
Proof.
  destruct (pretty_char_code c) as (Hdigits & _ & _). unfold entityOfChar.
  revert Hdigits. generalize (pretty (N_of_ascii c)). intros dec Hdigits.
  rewrite !list_ascii_of_string_app, !Forall_app. split_and!.
  - simpl. repeat (constructor; [auto|]). constructor.
  - apply Forall_forall. intros x Hx%list_elem_of_In.
    rewrite forallb_forall in Hdigits. auto.
  - simpl. repeat (constructor; [auto|]). constructor.
Qed.

(** X13.  Whatever the characters of the input, the encoded text is made
    of [&], [#], [;] and digits only. *)
Theorem htmlEntityEncode_chars (input : string) :
  Forall (λ x, x = "&"%char ∨ x = "#"%char ∨ x = ";"%char ∨ isDigit x = true)
    (list_ascii_of_string (htmlEntityEncode input)).
Proof.
  induction input as [|c input IH]; [constructor|].
  rewrite htmlEntityEncode_cons, list_ascii_of_string_app.
  apply Forall_app. split; [apply entityOfChar_chars | done].
Qed.

(** ** thousandSeparatorFormatted *)

Lemma splitOn_cons sep s : ∃ w ws, splitOn sep s = w :: ws.
Proof.
  destruct s as [|c s]; simpl; [by eexists _, _|].
  destruct (Ascii.eqb c sep); [by eexists _, _|].
  destruct (splitOn sep s); by eexists _, _.
Qed.

Lemma splitOn_concat sep s : String.concat (String sep "") (splitOn sep s) = s.
Proof.
  induction s as [|c s IH]; [done|]. simpl.
  destruct (splitOn_cons sep s) as (w & ws & Hsplit). rewrite Hsplit in IH |- *.
  destruct (Ascii.eqb_spec c sep) as [->|Hne].
  - change (String.concat (String sep "") ("" :: w :: ws))
      with (String sep (String.concat (String sep "") (w :: ws))).
    by rewrite IH.
  - destruct ws as [|w' ws]; simpl in *; by rewrite <- IH.
Qed.

Lemma filter_none {A} (P : A → Prop) `{!∀ x, Decision (P x)} (l : list A) :
  Forall (λ x, ¬ P x) l → filter P l = [].
Proof. induction 1; [done|]. by rewrite filter_cons_False. Qed.

Lemma filter_all {A} (P : A → Prop) `{!∀ x, Decision (P x)} (l : list A) :
  Forall P l → filter P l = l.
Proof. induction 1; [done|]. rewrite filter_cons_True by done. by f_equal. Qed.

Lemma insertSeparators_erase separator s : ∀ prev,
  Forall (λ c, c ∉ list_ascii_of_string separator) (list_ascii_of_string s) →
  filter (λ c, c ∉ list_ascii_of_string separator)
    (list_ascii_of_string (insertSeparators separator prev s))
  = list_ascii_of_string s.
Proof.
  assert (filter (λ c, c ∉ list_ascii_of_string separator) (list_ascii_of_string separator)
          = []) as Hsep.
  { apply filter_none, Forall_forall. intros c Hc Hnot. done. }
  induction s as [|c s IH]; intros prev Hs; [done|].
  apply Forall_cons in Hs as [Hc Hs]. simpl insertSeparators.
  rewrite list_ascii_of_string_app, filter_app. simpl list_ascii_of_string.
  rewrite filter_cons_True, IH by done.
  destruct (_ && _ && _)%bool; [by rewrite Hsep|done].
Qed.

(** X14.  For each separator that the signature admits (a comma, an
    underscore, a dot, a space, or the empty string): when the separator
    does not occur in the string form of the input, taking it out of the
    result gives the string form of the input back: the call adds
    separators and changes nothing else. *)
Theorem thousandSeparatorFormatted_erase (inputValue : value) (separator : Separator) :
  inputValue ≠ VNull → inputValue ≠ VUndef →
  Forall (λ c, c ∉ list_ascii_of_string (separatorString separator))
    (list_ascii_of_string (toStr inputValue)) →
  ∃ output,
    thousandSeparatorFormatted inputValue (Some separator) = VStr output ∧
    filter (λ c, c ∉ list_ascii_of_string (separatorString separator))
      (list_ascii_of_string output)
    = list_ascii_of_string (toStr inputValue).
Proof.
  intros Hnull Hundef Hsep.
  assert (thousandSeparatorFormatted inputValue (Some separator)
          = match splitOn "." (toStr inputValue) with
            | [whole; decimals] =>
                VStr (insertSeparators (separatorString separator) None whole
                      +:+ "." +:+ decimals)
            | _ => VStr (insertSeparators (separatorString separator) None
                           (toStr inputValue))
            end) as -> by (by destruct inputValue).
  pose proof (splitOn_concat "." (toStr inputValue)) as Hjoin.
  destruct (splitOn "." (toStr inputValue)) as [|whole [|decimals [|]]];
    try (eexists; split; [done|]; by apply insertSeparators_erase).
  simpl in Hjoin. rewrite <- Hjoin in Hsep |- *.
  rewrite !list_ascii_of_string_app, !Forall_app in Hsep.
  destruct Hsep as (Hwhole & Hdot & Hdecimals).
  eexists. split; [done|].
  rewrite !list_ascii_of_string_app, !filter_app, insertSeparators_erase by done.
  by rewrite !filter_all.
Qed.

Lemma thousandSeparatorFormatted_erase_witness :
  ∃ output,
    thousandSeparatorFormatted (VStr "1234567.5") (Some Comma) = VStr output ∧
    filter (λ c, c ∉ list_ascii_of_string ",") (list_ascii_of_string output)
    = list_ascii_of_string (toStr (VStr "1234567.5")).
Proof.
  apply (thousandSeparatorFormatted_erase (VStr "1234567.5") Comma); [done..|].
  simpl. repeat constructor; by intros [?|?%elem_of_nil]%elem_of_cons.
Defined.

Lemma isDigit_isWordChar c : isDigit c = true → isWordChar c = true.
Proof. unfold isWordChar. by intros ->. Qed.

Lemma takeDigits_all s :
  Forall (λ c, isDigit c = true) (list_ascii_of_string s) → takeDigits s = s.
Proof.
  induction s as [|c s IH]; [done|]. intros [Hc Hs]%Forall_cons. simpl.
  by rewrite Hc, IH.
Qed.

Lemma insertSeparators_unfold separator prev c s :
  insertSeparators separator prev (String c s)
  = (if (Bool.eqb (match prev with Some p => isWordChar p | None => false end)
                  (isWordChar c)
         && (0 <? String.length (takeDigits (String c s)))%nat
         && (String.length (takeDigits (String c s)) mod 3 =? 0)%nat)%bool
     then separator else "")
    +:+ String c (insertSeparators separator (Some c) s).
Proof. reflexivity. Qed.

(** Three more digits at the end of a run of digits. *)
Lemma insertSeparators_three separator d s : ∀ prev,
  Forall (λ c, isDigit c = true) (list_ascii_of_string s) → s ≠ "" →
  Forall (λ c, isDigit c = true) (list_ascii_of_string d) → String.length d = 3%nat →
  insertSeparators separator prev (s +:+ d)
  = insertSeparators separator prev s +:+ separator +:+ d.
Proof.
  intros prev Hs Hne Hd Hlen. revert prev Hne.
  induction s as [|c s IH]; intros prev Hne; [done|].
  apply Forall_cons in Hs as [Hc Hs].
  assert (Forall (λ c, isDigit c = true) (list_ascii_of_string (String c (s +:+ d))))
    as Hall.
  { simpl. constructor; [done|]. rewrite list_ascii_of_string_app. by apply Forall_app. }
  rewrite append_String, !insertSeparators_unfold.
  rewrite (takeDigits_all (String c (s +:+ d))) by done.
  rewrite (takeDigits_all (String c s)) by (by constructor).
  simpl String.length. rewrite length_append, Hlen.
  replace (S (String.length s + 3)) with (S (String.length s) + 1 * 3)%nat by lia.
  rewrite Nat.Div0.mod_add.
  rewrite append_assoc. f_equal. rewrite append_String. f_equal.
  destruct s as [|c' s].
  - (* the three digits come next *)
    destruct d as [|d1 [|d2 [|d3 [|]]]]; try done.
    apply Forall_cons in Hd as [Hd1 [Hd2 [Hd3 _]%Forall_cons]%Forall_cons].
    rewrite append_empty_l, !insertSeparators_unfold. simpl takeDigits.
    rewrite Hd1, Hd2, Hd3. simpl.
    by rewrite (isDigit_isWordChar c), (isDigit_isWordChar d1),
      (isDigit_isWordChar d2), (isDigit_isWordChar d3).
  - by rewrite IH.
Qed.

Lemma insertSeparators_short separator s :
  Forall (λ c, isDigit c = true) (list_ascii_of_string s) → (String.length s ≤ 3)%nat →
  insertSeparators separator None s = s.
Proof.
  intros Hs Hlen.
  destruct s as [|c1 [|c2 [|c3 [|]]]]; simpl in Hlen; try lia; try done.
  - apply Forall_cons in Hs as [H1 _].
    rewrite !insertSeparators_unfold. simpl takeDigits. rewrite H1. simpl.
    by rewrite (isDigit_isWordChar c1).
  - apply Forall_cons in Hs as [H1 [H2 _]%Forall_cons].
    rewrite !insertSeparators_unfold. simpl takeDigits. rewrite H1, H2. simpl.
    by rewrite (isDigit_isWordChar c1), (isDigit_isWordChar c2).
  - apply Forall_cons in Hs as [H1 [H2 [H3 _]%Forall_cons]%Forall_cons].
    rewrite !insertSeparators_unfold. simpl takeDigits. rewrite H1, H2, H3. simpl.
    by rewrite (isDigit_isWordChar c1), (isDigit_isWordChar c2), (isDigit_isWordChar c3).
Qed.

Lemma splitOn_digits s :
  Forall (λ c, isDigit c = true) (list_ascii_of_string s) → splitOn "." s = [s].
Proof.
  induction s as [|c s IH]; [done|]. intros [Hc Hs]%Forall_cons. simpl.
  rewrite (IH Hs). destruct (Ascii.eqb_spec c ".") as [->|?]; [|done].
  by vm_compute in Hc.
Qed.

(** X15.  On a string of digits, with a separator that the signature
    admits, the separator goes between groups of three digits, counted from
    the right: a string of up to three digits is returned as it is, and
    three more digits at the end of a string of digits add the separator and
    the three digits at the end of the result. *)
Theorem thousandSeparatorFormatted_groups_of_three (digits : string)
    (separator : Separator) :
  Forall (λ c, isDigit c = true) (list_ascii_of_string digits) →
  ((String.length digits ≤ 3)%nat →
   thousandSeparatorFormatted (VStr digits) (Some separator) = VStr digits) ∧
  ∀ three output,
    digits ≠ "" →
    Forall (λ c, isDigit c = true) (list_ascii_of_string three) →
    String.length three = 3%nat →
    thousandSeparatorFormatted (VStr digits) (Some separator) = VStr output →
    thousandSeparatorFormatted (VStr (digits +:+ three)) (Some separator)
    = VStr (output +:+ separatorString separator +:+ three).
Proof.
  intros Hdigits.
  assert (∀ s, Forall (λ c, isDigit c = true) (list_ascii_of_string s) →
               thousandSeparatorFormatted (VStr s) (Some separator)
               = VStr (insertSeparators (separatorString separator) None s)) as Hcall.
  { intros s Hs. unfold thousandSeparatorFormatted. simpl toStr.
    by rewrite splitOn_digits. }
  split.
  - intros Hlen. by rewrite Hcall, insertSeparators_short.
  - intros three output Hne Hthree Hlen. rewrite (Hcall digits Hdigits).
    rewrite (Hcall (digits +:+ three)).
    + intros [= <-]. by rewrite insertSeparators_three.
    + rewrite list_ascii_of_string_app. by apply Forall_app.
Qed.

Lemma thousandSeparatorFormatted_groups_of_three_witness :
  thousandSeparatorFormatted (VStr ("1234" +:+ "567")) (Some Comma)
  = VStr ("1,234" +:+ "," +:+ "567").
Proof.
  apply (thousandSeparatorFormatted_groups_of_three "1234" Comma).
  - by repeat constructor.
  - done.
  - by repeat constructor.
  - reflexivity.
  - reflexivity.
Defined.

(** ** setDeepValue *)

Lemma keys_replace {V} (o : list (string * V)) k v : keys (replace o k v) = keys o.
Proof.
  induction o as [|[k1 v1] o IH]; simpl; [done|].
  destruct (String.eqb k1 k); simpl; [done|]. by rewrite IH.
Qed.

Lemma keys_set_own {V} (o : list (string * V)) k v :
  hasOwnProperty o k = true → keys (set o k v) = keys o.
Proof. intros Hown. unfold set. rewrite Hown. apply keys_replace. Qed.

Lemma setDeepPath_object path : ∀ props value,
  ∃ props', setDeepPath (VObj props) path value = Returns (VObj props') ∧
            keys props' = keys props.
Proof.
  induction path as [|e rest IH]; intros props value; simpl; [by eexists|].
  destruct rest as [|e' rest].
  - destruct (String.eqb e ""); simpl; [by eexists|].
    destruct (hasOwnProperty props e) eqn:Hown; [|by eexists].
    eexists. split; [done|]. by apply keys_set_own.
  - destruct (hasOwnProperty props e) eqn:Hown; [|by eexists].
    set (child := if isPlainObject (get props e) then get props e else VObj []).
    assert (∃ kid, child = VObj kid) as [kid ->].
    { unfold child. destruct (get props e); simpl; by eexists. }
    destruct (IH kid value) as (kid' & -> & _). simpl.
    eexists. split; [done|]. by apply keys_set_own.
Qed.

(** X16.  On an object of plain data in which no object, at any depth,
    has a property [hasOwnProperty] of its own (so that each call of
    [obj.hasOwnProperty] finds the method that objects inherit),
    [setDeepValue] returns, whatever the path, and the object has the keys
    it had, in the order it had them: no property is added and none is
    removed.  When the first component of the path is not an own property,
    the object is left as it is. *)
Theorem setDeepValue_keeps_keys
    (props : list (string * value)) (path : string + list string) (value : Js.value) :
  inheritsHasOwn (VObj props) = true →
  (∃ props', setDeepValue (VObj props) path value = Returns (VObj props') ∧
             keys props' = keys props) ∧
  ∀ e rest, pathComponents path = e :: rest → hasOwnProperty props e = false →
            setDeepValue (VObj props) path value = Returns (VObj props).
Proof.
  intros _. split; [apply setDeepPath_object|].
  intros e rest Hpath Hown. unfold setDeepValue. rewrite Hpath. simpl.
  rewrite Hown. destruct rest; [|done]. by destruct (String.eqb e "").
Qed.

Lemma setDeepValue_keeps_keys_witness :
  ∃ props',
    setDeepValue (VObj [("user", VObj [("firstName", VStr "a")]); ("age", VNum 3)])
      (inl "user.firstName") (VStr "b") = Returns (VObj props') ∧
    keys props' = ["user"; "age"].
Proof.
  destruct (setDeepValue_keeps_keys
              [("user", VObj [("firstName", VStr "a")]); ("age", VNum 3)]
              (inl "user.firstName") (VStr "b")) as [Hkeys _].
  - reflexivity.
  - exact Hkeys.
Defined.

Lemma setDeepPath_reads obj path : ∀ value,
  plainPath obj path →
  ∃ r, setDeepPath obj path value = Returns r ∧ isRow r ∧
       fold_left (λ acc part, if truthy acc then getProp acc part else acc) path r = value.
Proof.
  intros value. induction 1 as [props p Hp Hown|props e child rest Hown Hrest _ IH].
  - simpl. apply String.eqb_neq in Hp. rewrite Hp, Hown. simpl.
    eexists. split_and!; [done..|]. simpl. apply get_set_eq.
  - destruct IH as (r & Hr & Hrow & Hread).
    assert (setDeepPath (VObj props) (e :: rest) value
            = (if hasOwnProperty props e then
                 child ← setDeepPath (if isPlainObject (get props e) then get props e
                                      else VObj []) rest value;
                 assign (VObj props) e child
               else Returns (VObj props))) as ->.
    { destruct rest; [done|]. reflexivity. }
    unfold hasOwnProperty, get. rewrite Hown. simpl. rewrite Hr. simpl.
    eexists. split_and!; [done..|]. simpl. by rewrite get_set_eq.
Qed.



Lemma setDeepPath_empty path value : setDeepPath (VObj []) path value = Returns (VObj []).
Proof. destruct path as [|e [|e' rest]]; simpl; [done| |done]. by destruct (String.eqb e ""). Qed.



(** ** charArraysEqual *)

Lemma leb_lt_eq s t :
  String.leb s t = true ↔ s = t ∨ OrdersEx.String_as_OT.lt s t.
Proof.
  unfold String.leb. change (String.compare s t) with (OrdersEx.String_as_OT.compare s t).
  destruct (OrdersEx.String_as_OT.compare_spec s t) as [Heq|Hlt|Hgt].
  - split; [by left|done].
  - split; [by right|done].
  - split; [done|]. intros [->|Hlt].
    + by apply (irreflexivity OrdersEx.String_as_OT.lt) in Hgt.
    + exfalso. apply (irreflexivity OrdersEx.String_as_OT.lt t). by etrans.
Qed.

Lemma leb_trans s t u :
  String.leb s t = true → String.leb t u = true → String.leb s u = true.
Proof.
  rewrite !leb_lt_eq. intros [->|Hst] [->|Htu]; auto.
  right. by etrans.
Qed.

Lemma leb_refl s : String.leb s s = true.
Proof. apply leb_lt_eq. by left. Qed.

#[local] Instance sortsBefore_trans : Transitive (λ x y, sortsBefore x y = true).
Proof.
  intros x y z Hxy Hyz. unfold sortsBefore in *.
  destruct x, y, z; try done; by eapply leb_trans.
Qed.

Lemma sortsBefore_total x y : sortsBefore x y = true ∨ sortsBefore y x = true.
Proof.
  unfold sortsBefore.
  destruct x, y; auto using String.leb_total.
Qed.

Section SortFacts.
Context {A : Type}.
Variable before : A → A → bool.

Lemma insertSorted_perm x l : insertSorted before x l ≡ₚ x :: l.
Proof.
  induction l as [|y l IH]; simpl; [done|].
  destruct (before x y); [done|]. rewrite IH. apply Permutation_swap.
Qed.

Lemma sortBy_perm l : sortBy before l ≡ₚ l.
Proof.
  induction l as [|x l IH]; simpl; [done|]. by rewrite insertSorted_perm, IH.
Qed.

Hypothesis before_trans : ∀ x y z, before x y = true → before y z = true → before x z = true.
Hypothesis before_total : ∀ x y, before x y = true ∨ before y x = true.

Lemma insertSorted_sorted x l :
  StronglySorted (λ x y, before x y = true) l →
  StronglySorted (λ x y, before x y = true) (insertSorted before x l).
Proof.
  induction 1 as [|y l Hl IH Hy]; simpl; [by repeat constructor|].
  destruct (before x y) eqn:Hxy.
  - constructor; [by constructor|]. constructor; [done|].
    eapply Forall_impl; [exact Hy|]. intros z Hz. simpl in Hz. by eapply before_trans.
  - constructor; [done|]. rewrite insertSorted_perm. constructor; [|done].
    by destruct (before_total x y) as [Hle|Hle]; [congruence|].
Qed.

Lemma sortBy_sorted l : StronglySorted (λ x y, before x y = true) (sortBy before l).
Proof. induction l; simpl; [constructor|by apply insertSorted_sorted]. Qed.
End SortFacts.

Lemma sortDefault_perm l : sortDefault l ≡ₚ l.
Proof. apply sortBy_perm. Qed.

Lemma sortDefault_sorted l : StronglySorted (λ x y, sortsBefore x y = true) (sortDefault l).
Proof. apply sortBy_sorted; [apply sortsBefore_trans | apply sortsBefore_total]. Qed.

(** Two arrays of strings with the same items have the same sorted form. *)
Lemma sortDefault_unique l1 l2 :
  Forall (λ x, ∃ s, x = VStr s) l1 → l1 ≡ₚ l2 → sortDefault l1 = sortDefault l2.
Proof.
  intros Hstr Hperm.
  apply (StronglySorted_unique_strong (λ x y, sortsBefore x y = true));
    [|apply sortDefault_sorted..|by rewrite !sortDefault_perm].
  intros x y Hx Hy Hxy Hyx. rewrite sortDefault_perm in Hx, Hy.
  rewrite <- Hperm in Hy.
  rewrite Forall_forall in Hstr.
  destruct (Hstr x Hx) as [s ->], (Hstr y Hy) as [t ->]. simpl in *.
  f_equal. by apply String.leb_antisym.
Qed.

Lemma sameItems_spec a : ∀ b,
  Forall (λ x, isPrimitive x = true) a → length a = length b →
  ∃ same, sameItems a b = Returns same ∧ (same = true ↔ a = b ∧ VNaN ∉ a).
Proof.
  induction a as [|x a IH]; intros [|y b] Hprim Hlen; simpl in *; try done.
  { exists true. split; [done|]. split; [|done]. intros _. split; [done|apply not_elem_of_nil]. }
  apply Forall_cons in Hprim as [Hx Hprim]. rewrite Hx. simpl.
  destruct (strictEq x y) eqn:Heq; simpl.
  - apply strictEq_true in Heq as Hxy. subst y.
    assert (x ≠ VNaN) as Hnan by (intros ->; done).
    destruct (IH b Hprim) as (same & -> & Hsame); [lia|].
    exists same. split; [done|]. rewrite Hsame, not_elem_of_cons. split.
    + by intros [-> ?].
    + by intros [[= ->] [_ ?]].
  - exists false. split; [done|]. split; [done|].
    intros [[= -> _] [Hnan _]%not_elem_of_cons]. by rewrite strictEq_refl in Heq.
Qed.

(** X19.  With [orderMatters], two arrays, the first of primitives, are
    equal when they hold the same items at the same places and [NaN] is not
    among them, and only then: [NaN] differs from itself.  The arrays are
    left as they were. *)
Theorem charArraysEqual_order_matters (itemsA itemsB : list value) :
  Forall (λ x, isPrimitive x = true) itemsA →
  ∃ same,
    charArraysEqual (VArr itemsA) (VArr itemsB) true
    = Returns (VArr itemsA, VArr itemsB, same) ∧
    (same = true ↔ itemsA = itemsB ∧ VNaN ∉ itemsA).
Proof.
  intros Hprim. unfold charArraysEqual. simpl.
  destruct (Nat.eqb_spec (length itemsA) (length itemsB)) as [Hlen|Hlen]; simpl.
  - destruct (sameItems_spec itemsA itemsB Hprim Hlen) as (same & -> & Hsame).
    by exists same.
  - exists false. split; [done|]. split; [done|]. by intros [-> _].
Qed.

Lemma charArraysEqual_order_matters_witness :
  ∃ same,
    charArraysEqual (VArr [VStr "a"; VStr "b"]) (VArr [VStr "b"; VStr "a"]) true
    = Returns (VArr [VStr "a"; VStr "b"], VArr [VStr "b"; VStr "a"], same) ∧
    (same = true ↔ [VStr "a"; VStr "b"] = [VStr "b"; VStr "a"] ∧
                   VNaN ∉ [VStr "a"; VStr "b"]).
Proof.
  apply (charArraysEqual_order_matters [VStr "a"; VStr "b"] [VStr "b"; VStr "a"]).
  by repeat constructor.
Defined.

Example charArraysEqual_NaN :
  charArraysEqual (VArr [VNaN]) (VArr [VNaN]) true = Returns (VArr [VNaN], VArr [VNaN], false).
Proof. reflexivity. Qed.

(** X20.  Without [orderMatters], two arrays of strings are equal when one
    is a rearrangement of the other, and only then.  The call sorts the two
    arrays in place when they have the same length: they hold the items they
    held, in the order of their character codes. *)
Theorem charArraysEqual_any_order (itemsA itemsB : list value) :
  Forall (λ x, ∃ s, x = VStr s) itemsA → Forall (λ x, ∃ s, x = VStr s) itemsB →
  ∃ itemsA' itemsB' same,
    charArraysEqual (VArr itemsA) (VArr itemsB) false
    = Returns (VArr itemsA', VArr itemsB', same) ∧
    (same = true ↔ itemsA ≡ₚ itemsB) ∧
    itemsA' ≡ₚ itemsA ∧ itemsB' ≡ₚ itemsB ∧
    (length itemsA = length itemsB →
     StronglySorted (λ x y, sortsBefore x y = true) itemsA' ∧
     StronglySorted (λ x y, sortsBefore x y = true) itemsB').
Proof.
  intros HA HB. unfold charArraysEqual. simpl.
  destruct (Nat.eqb_spec (length itemsA) (length itemsB)) as [Hlen|Hlen]; simpl.
  - assert (Forall (λ x, isPrimitive x = true) (sortDefault itemsA)) as Hprim.
    { rewrite sortDefault_perm. eapply Forall_impl; [exact HA|]. by intros x [s ->]. }
    destruct (sameItems_spec (sortDefault itemsA) (sortDefault itemsB) Hprim)
      as (same & -> & Hsame).
    { by rewrite !sortDefault_perm. }
    exists (sortDefault itemsA), (sortDefault itemsB), same.
    split_and!; [done| |apply sortDefault_perm..|].
    + rewrite Hsame. split.
      * intros [Heq _]. by rewrite <- (sortDefault_perm itemsA), Heq, sortDefault_perm.
      * intros Hperm. split; [by apply sortDefault_unique|].
        rewrite sortDefault_perm. intros Hin. rewrite Forall_forall in HA.
        by destruct (HA _ Hin).
    + intros _. split; apply sortDefault_sorted.
  - exists itemsA, itemsB, false. split_and!; [done| |done..].
    split; [done|]. intros Hperm. by apply Permutation_length in Hperm.
Qed.

Lemma charArraysEqual_any_order_witness :
  ∃ itemsA' itemsB' same,
    charArraysEqual (VArr [VStr "b"; VStr "a"]) (VArr [VStr "a"; VStr "b"]) false
    = Returns (VArr itemsA', VArr itemsB', same) ∧
    (same = true ↔ [VStr "b"; VStr "a"] ≡ₚ [VStr "a"; VStr "b"]) ∧
    itemsA' ≡ₚ [VStr "b"; VStr "a"] ∧ itemsB' ≡ₚ [VStr "a"; VStr "b"] ∧
    (length [VStr "b"; VStr "a"] = length [VStr "a"; VStr "b"] →
     StronglySorted (λ x y, sortsBefore x y = true) itemsA' ∧
     StronglySorted (λ x y, sortsBefore x y = true) itemsB').
Proof.
  apply (charArraysEqual_any_order [VStr "b"; VStr "a"] [VStr "a"; VStr "b"]);
    repeat constructor; by eexists.
Defined.

Lemma sameItems_characters s :
  sameItems (map (λ c, VStr (String c "")) (list_ascii_of_string s))
    (map (λ c, VStr (String c "")) (list_ascii_of_string s)) = Returns true.
Proof.
  induction s as [|c s IH]; [done|]. simpl. by rewrite Ascii.eqb_refl.
Qed.

(** X21.  Only the first argument is checked to be an array.  With
    [orderMatters], a string that is not empty, given as the second
    argument, is compared character by character: it is equal to the array
    of its characters. *)
Theorem charArraysEqual_string_second_argument (s : string) :
  s ≠ "" →
  charArraysEqual (VArr (map (λ c, VStr (String c "")) (list_ascii_of_string s)))
    (VStr s) true
  = Returns (VArr (map (λ c, VStr (String c "")) (list_ascii_of_string s)), VStr s, true).
Proof.
  intros Hs. apply String.eqb_neq in Hs. unfold charArraysEqual. simpl. rewrite Hs. simpl.
  assert (length (map (λ c, VStr (String c "")) (list_ascii_of_string s))
          = String.length s) as ->.
  { rewrite length_map. clear. induction s; simpl; auto. }
  by rewrite Nat.eqb_refl, sameItems_characters.
Qed.

Lemma charArraysEqual_string_second_argument_witness :
  charArraysEqual (VArr (map (λ c, VStr (String c "")) (list_ascii_of_string "ab")))
    (VStr "ab") true
  = Returns (VArr (map (λ c, VStr (String c "")) (list_ascii_of_string "ab")),
             VStr "ab", true).
Proof. apply (charArraysEqual_string_second_argument "ab"). done. Defined.

(** ** extension.service.ts *)

Lemma removeAt_delete (items : list value) : ∀ (i : nat) (k : Z),
  ExtensionService.removeAt (VNum (k + Z.of_nat i)) items k = base.delete i items.
Proof.
  induction items as [|el items IH]; intros i k; simpl; [done|].
  destruct i as [|i].
  - rewrite Z.add_0_r, Z.eqb_refl. simpl.
    clear IH. assert (∀ j, k < j → ExtensionService.removeAt (VNum k) items j = items) as Hrest.
    { induction items as [|el' items IH]; intros j Hj; simpl; [done|].
      rewrite (proj2 (Z.eqb_neq _ _)) by lia. simpl. f_equal. apply IH. lia. }
    apply Hrest. lia.
  - rewrite (proj2 (Z.eqb_neq _ _)) by lia. simpl. f_equal.
    replace (k + Z.of_nat (S i)) with ((k + 1) + Z.of_nat i) by lia. apply IH.
Qed.

Lemma removeAt_other index (items : list value) : ∀ k,
  (∀ n, index = VNum n → n < k) →
  ExtensionService.removeAt index items k = items.
Proof.
  induction items as [|el items IH]; intros k Hindex; simpl; [done|].
  assert (strictEq index (VNum k) = false) as ->.
  { destruct index; simpl; try done. apply Z.eqb_neq. specialize (Hindex n eq_refl). lia. }
  simpl. f_equal. apply IH. intros n Hn. specialize (Hindex n Hn). lia.
Qed.

(** X22.  [removeColumnByIndex] takes out the column at the index and
    keeps the others in their order; an index past the end takes out
    nothing.  An index that is no position of an array ([undefined], as
    [getColumnIndex] gives for a column that is not in the grid, or a number
    below zero) leaves the columns as they are. *)
Theorem removeColumnByIndex_removes_one (columns : list value) :
  (∀ i : nat,
     ExtensionService.removeColumnByIndex (VArr columns) (VNum (Z.of_nat i))
     = VArr (base.delete i columns)) ∧
  (∀ index, (∀ n, index = VNum n → n < 0) →
     ExtensionService.removeColumnByIndex (VArr columns) index = VArr columns).
Proof.
  split.
  - intros i. unfold ExtensionService.removeColumnByIndex.
    by rewrite <- (removeAt_delete columns i 0).
  - intros index Hindex. unfold ExtensionService.removeColumnByIndex.
    by rewrite removeAt_other.
Qed.

Lemma removeColumnByIndex_removes_one_witness :
  ExtensionService.removeColumnByIndex (VArr [VStr "a"; VStr "b"]) VUndef
  = VArr [VStr "a"; VStr "b"].
Proof.
  apply (proj2 (removeColumnByIndex_removes_one [VStr "a"; VStr "b"]) VUndef).
  intros n Hn. discriminate Hn.
Defined.

Lemma StronglySorted_weaken {A} (R1 R2 : relation A) l :
  (∀ x y, R1 x y → R2 x y) → StronglySorted R1 l → StronglySorted R2 l.
Proof.
  intros Himpl. induction 1 as [|x l _ IH Hx]; constructor; [done|].
  eapply Forall_impl; [exact Hx|]. intros y. apply Himpl.
Qed.

Section ExtensionCreation.
Import ExtensionService.
Variable create : ExtensionName → bool.

Lemma created_calls features : ∀ s,
  calls (createExtensionByTheirColumnIndex create features s)
  = calls s ++ (Create <$> (sortBy positionBefore features).*1).
Proof.
  unfold createExtensionByTheirColumnIndex.
  induction (sortBy positionBefore features) as [|feature l IH]; intros s; simpl.
  - by rewrite app_nil_r.
  - rewrite IH. destruct (create feature.1); simpl; by rewrite <- app_assoc.
Qed.

Lemma created_names features : ∀ s name,
  name ∈ _extensionCreatedList (createExtensionByTheirColumnIndex create features s) ↔
  name ∈ _extensionCreatedList s ∨ (name ∈ features.*1 ∧ create name = true).
Proof.
  intros s name. unfold createExtensionByTheirColumnIndex.
  rewrite <- (sortBy_perm positionBefore features) at 2.
  revert s. induction (sortBy positionBefore features) as [|feature l IH]; intros s; simpl.
  - rewrite elem_of_nil. tauto.
  - rewrite IH, elem_of_cons. clear IH.
    destruct (create feature.1) eqn:Hcreate; simpl.
    + destruct (bool_decide_reflect (feature.1 ∈ _extensionCreatedList s)).
      * split; [tauto|]. intros [?|[[->|?] ?]]; auto.
      * rewrite elem_of_app, list_elem_of_singleton.
        split; [intros [[?| ->]|?]; auto; tauto|].
        intros [?|[[->|?] ?]]; auto.
    + split; [tauto|]. intros [?|[[->|?] ?]]; auto. congruence.
Qed.

Lemma features_names gridOptions s :
  (featureWithColumnIndexPositions gridOptions s).*1
  = filter (λ name, requested gridOptions name = true ∧ notCreated name s = true)
      [checkboxSelector; rowMoveManager; rowDetailView].
Proof.
  unfold featureWithColumnIndexPositions, pushFeature.
  rewrite !filter_cons, filter_nil. simpl.
  destruct (enableCheckboxSelector gridOptions), (notCreated checkboxSelector s),
    (enableRowMoveManager gridOptions), (notCreated rowMoveManager s),
    (enableRowDetailView gridOptions), (notCreated rowDetailView s);
    simpl; repeat case_decide; try done; naive_solver.
Qed.

Lemma positionBefore_trans f g h :
  positionBefore f g = true → positionBefore g h = true → positionBefore f h = true.
Proof. unfold positionBefore. rewrite !Z.leb_le. lia. Qed.

Lemma positionBefore_total f g : positionBefore f g = true ∨ positionBefore g f = true.
Proof. unfold positionBefore. rewrite !Z.leb_le. lia. Qed.

Lemma features_positions gridOptions s feature :
  feature ∈ featureWithColumnIndexPositions gridOptions s →
  feature.2 = columnIndexPosition gridOptions s feature.1.
Proof.
  unfold featureWithColumnIndexPositions, pushFeature, columnIndexPosition.
  destruct gridOptions as [e1 p1 e2 p2 e3 p3 e4]. simpl.
  destruct (notCreated checkboxSelector s) eqn:H1, (notCreated rowMoveManager s) eqn:H2,
    (notCreated rowDetailView s) eqn:H3, e1, e2, e3, p1, p2, p3; simpl;
    intros Hin;
    repeat (apply elem_of_cons in Hin as [->|Hin]; [simpl; by rewrite ?H1, ?H2, ?H3|]);
    by apply elem_of_nil in Hin.
Qed.

Lemma StronglySorted_names gridOptions s (features : list (ExtensionName * Z)) :
  Forall (λ feature, feature.2 = columnIndexPosition gridOptions s feature.1) features →
  StronglySorted (λ f g, f.2 ≤ g.2) features →
  StronglySorted (λ f g, columnIndexPosition gridOptions s f
                         ≤ columnIndexPosition gridOptions s g) features.*1.
Proof.
  intros Hpos Hsorted.
  induction Hsorted as [|f l _ IH Hf]; [constructor|].
  apply Forall_cons in Hpos as [Hf_pos Hl_pos]. simpl. constructor; [by apply IH|].
  apply Forall_fmap, Forall_forall. intros g Hg. simpl.
  rewrite Forall_forall in Hf, Hl_pos.
  rewrite <- Hf_pos, <- (Hl_pos g Hg). by apply Hf.
Qed.

(** X23.  The features that take a column of their own (the checkbox
    selector, the row move manager, the row detail view) are created in the
    order of their column index positions, lowest first, where the position
    of a feature is the [columnIndexPosition] of its options, or, without
    one, the number of the features that were pushed before it; each feature
    that the options ask for and that was not created before is created
    once, and no other.  The draggable grouping plugin comes after them. *)
Theorem createExtensionsBeforeGridCreation_order (gridOptions : GridOption) (s : t) :
  ∃ created : list ExtensionName,
    calls (createExtensionsBeforeGridCreation create gridOptions s)
    = calls s ++ (Create <$> created)
      ++ (if (enableDraggableGrouping gridOptions && notCreated draggableGrouping s)%bool
          then [NewDraggableGroupingPlugin] else []) ∧
    StronglySorted (λ f g, columnIndexPosition gridOptions s f
                           ≤ columnIndexPosition gridOptions s g) created ∧
    NoDup created ∧
    ∀ name, name ∈ created ↔
            requested gridOptions name = true ∧ name ∉ _extensionCreatedList s.
Proof.
  set (features := featureWithColumnIndexPositions gridOptions s).
  exists (sortBy positionBefore features).*1.
  assert ((sortBy positionBefore features).*1 ≡ₚ features.*1) as Hperm
    by (by rewrite sortBy_perm).
  assert (∀ name, name ∈ features.*1 ↔
                  requested gridOptions name = true ∧ name ∉ _extensionCreatedList s)
    as Hnames.
  { intros name. unfold features. rewrite features_names, list_elem_of_filter.
    unfold notCreated. rewrite negb_true_iff, bool_decide_eq_false.
    split; [tauto|]. intros [Hreq Hnot]. split; [done|].
    destruct name; simpl in Hreq; try done; set_solver. }
  split_and!.
  - unfold createExtensionsBeforeGridCreation. fold features.
    assert (notCreated draggableGrouping
              (createExtensionByTheirColumnIndex create features s)
            = notCreated draggableGrouping s) as ->.
    { unfold notCreated. f_equal. apply bool_decide_ext. rewrite created_names.
      split; [|by left]. intros [?|[Hin _]]; [done|].
      apply Hnames in Hin as [Hreq _]. done. }
    destruct (_ && _)%bool; simpl; rewrite created_calls; [|by rewrite app_nil_r].
    by rewrite <- app_assoc.
  - apply StronglySorted_names.
    + apply Forall_forall. intros feature Hin. apply features_positions.
      by rewrite <- (sortBy_perm positionBefore).
    + eapply StronglySorted_weaken; [|apply (sortBy_sorted positionBefore)].
      * intros f g. unfold positionBefore. rewrite Z.leb_le. lia.
      * apply positionBefore_trans.
      * apply positionBefore_total.
  - rewrite Hperm. unfold features. rewrite features_names.
    apply NoDup_filter. repeat constructor; set_solver.
  - intros name. by rewrite Hperm.
Qed.

Lemma features_nil gridOptions s :
  (∀ name, requested gridOptions name = true → name ∈ _extensionCreatedList s) →
  featureWithColumnIndexPositions gridOptions s = [].
Proof.
  intros Hall. unfold featureWithColumnIndexPositions, pushFeature, notCreated.
  pose proof (Hall checkboxSelector) as H1. pose proof (Hall rowMoveManager) as H2.
  pose proof (Hall rowDetailView) as H3. simpl in H1, H2, H3.
  destruct (enableCheckboxSelector gridOptions); simpl;
    [rewrite (bool_decide_eq_true_2 _ (H1 eq_refl)); simpl|];
    (destruct (enableRowMoveManager gridOptions); simpl;
       [rewrite (bool_decide_eq_true_2 _ (H2 eq_refl)); simpl|]);
    (destruct (enableRowDetailView gridOptions); simpl;
       [rewrite (bool_decide_eq_true_2 _ (H3 eq_refl)); simpl|]); done.
Qed.

(** X24.  When every [create] returns an instance, a second call creates
    nothing: what the first call created is found in the list of the created
    extensions, and the service is left as the first call left it. *)
Theorem createExtensionsBeforeGridCreation_twice (gridOptions : GridOption) (s : t) :
  (∀ name, create name = true) →
  createExtensionsBeforeGridCreation create gridOptions
    (createExtensionsBeforeGridCreation create gridOptions s)
  = createExtensionsBeforeGridCreation create gridOptions s.
Proof.
  intros Hcreate.
  set (s1 := createExtensionsBeforeGridCreation create gridOptions s).
  assert (∀ name, requested gridOptions name = true → name ∈ _extensionCreatedList s1)
    as Hrequested.
  { intros name Hreq.
    assert (name ∈ _extensionCreatedList
              (createExtensionByTheirColumnIndex create
                 (featureWithColumnIndexPositions gridOptions s) s)) as Hin.
    { apply created_names. rewrite features_names, list_elem_of_filter.
      unfold notCreated. rewrite negb_true_iff, bool_decide_eq_false.
      destruct (decide (name ∈ _extensionCreatedList s)); [by left|]. right.
      split; [|done]. split; [done|]. destruct name; simpl in Hreq; try done; set_solver. }
    unfold s1, createExtensionsBeforeGridCreation.
    destruct (_ && _)%bool; [|done]. simpl. case_bool_decide; [done|].
    apply elem_of_app. by left. }
  assert (enableDraggableGrouping gridOptions = true →
          draggableGrouping ∈ _extensionCreatedList s1) as Hdraggable.
  { intros Hen. unfold s1, createExtensionsBeforeGridCreation. rewrite Hen. simpl.
    unfold notCreated.
    destruct (bool_decide_reflect
                (draggableGrouping ∈ _extensionCreatedList
                   (createExtensionByTheirColumnIndex create
                      (featureWithColumnIndexPositions gridOptions s) s))) as [Hin|Hnot];
      simpl; [done|].
    rewrite bool_decide_eq_false_2 by done. apply elem_of_app. right. by left. }
  unfold createExtensionsBeforeGridCreation at 1.
  rewrite (features_nil gridOptions s1 Hrequested).
  change (createExtensionByTheirColumnIndex create [] s1) with s1.
  destruct (enableDraggableGrouping gridOptions) eqn:Hen; simpl; [|done].
  unfold notCreated. by rewrite (bool_decide_eq_true_2 _ (Hdraggable eq_refl)).
Qed.
End ExtensionCreation.

Lemma createExtensionsBeforeGridCreation_twice_witness :
  ExtensionService.createExtensionsBeforeGridCreation (λ _, true) selectorOptions
    (ExtensionService.createExtensionsBeforeGridCreation (λ _, true) selectorOptions
       freshExtensionService)
  = ExtensionService.createExtensionsBeforeGridCreation (λ _, true) selectorOptions
      freshExtensionService.
Proof. by apply createExtensionsBeforeGridCreation_twice. Defined.

Example createExtensionsBeforeGridCreation_selectorOptions :
  ExtensionService.calls
    (ExtensionService.createExtensionsBeforeGridCreation (λ _, true) selectorOptions
       freshExtensionService)
  = [ ExtensionService.Create ExtensionService.rowMoveManager;
      ExtensionService.Create ExtensionService.checkboxSelector;
      ExtensionService.NewDraggableGroupingPlugin ].
Proof. vm_compute. reflexivity. Qed.

(** ** extensionCommonUtils.ts *)

Section PickerOrder.
Import ExtensionCommonUtils.
Variable grid : SlickGrid.

(** The column is shown in the grid. *)
Local Abbreviation shown :=
  (λ column, strictEq (getColumnIndex grid (getProp column "id")) VUndef = false).

Lemma fillOrdered_cons props columns current :
  fillOrdered grid (VObj props :: columns) current
  = if strictEq (getColumnIndex grid (get props "id")) VUndef then
      ordered ← fillOrdered grid columns current;
      Returns (VObj props :: ordered)
    else
      ordered ← fillOrdered grid columns (tail current);
      Returns (match current with
               | next :: _ => next
               | [] => VUndef
               end :: ordered).
Proof. reflexivity. Qed.

Lemma fillOrdered_spec columns : ∀ current,
  Forall isRow columns →
  ∃ ordered,
    fillOrdered grid columns current = Returns ordered ∧
    length ordered = length columns ∧
    (∀ (i : nat) column, columns !! i = Some column →
       ordered !! i =
       Some (if strictEq (getColumnIndex grid (getProp column "id")) VUndef then column
             else default VUndef (current !! length (filter shown (take i columns))))) ∧
    ordered ≡ₚ filter (λ column, ¬ shown column) columns
               ++ take (length (filter shown columns)) current
               ++ replicate (length (filter shown columns) - length current) VUndef.
Proof.
  induction columns as [|column columns IH]; intros current Hrows.
  { exists []. split_and!; [done..| |done]. intros i column Hi. done. }
  apply Forall_cons in Hrows as [Hrow Hrows]. destruct column as [| | | | | | |props]; try done.
  rewrite fillOrdered_cons, !filter_cons. simpl getProp.
  destruct (strictEq (getColumnIndex grid (get props "id")) VUndef) eqn:Hidx.
  - (* a hidden column stays *)
    destruct (IH current Hrows) as (ordered & -> & Hlen & Hat & Hperm).
    exists (VObj props :: ordered). rewrite bind_Returns.
    rewrite decide_True by (simpl; congruence).
    rewrite decide_False by (simpl; congruence).
    split_and!; [done|by simpl; rewrite Hlen| |by simpl; rewrite Hperm].
    intros [|i] column Hi; simpl in *.
    + simplify_eq. simpl. by rewrite Hidx.
    + rewrite (Hat i column Hi). rewrite filter_cons, decide_False by (simpl; congruence).
      done.
  - (* a shown column gives its place to the next column of the grid *)
    destruct (IH (tail current) Hrows) as (ordered & -> & Hlen & Hat & Hperm).
    eexists. rewrite bind_Returns.
    rewrite decide_False by (simpl; congruence).
    rewrite decide_True by (simpl; congruence).
    split_and!; [done|by simpl; rewrite Hlen| |].
    + intros [|i] column Hi; simpl in *.
      * simplify_eq. simpl. rewrite Hidx. by destruct current.
      * rewrite (Hat i column Hi). rewrite filter_cons, decide_True by (simpl; congruence).
        simpl. by rewrite lookup_tail.
    + rewrite Hperm. simpl length. destruct current as [|next current]; simpl.
      * rewrite take_nil, Nat.sub_0_r. simpl. apply Permutation_middle.
      * apply Permutation_middle.
Qed.

(** X25.  The new order of the columns of the picker has a column at each
    position: a column that is not shown in the grid keeps its position; the
    positions of the columns that are shown are filled with the columns of
    the grid, in the order of the grid ([undefined] once they run out).
    When the columns of the grid are the shown columns of the picker in some
    order, the new order holds each column of the picker once. *)
Theorem updateColumnPickerOrder_keeps_hidden_in_place (columns : list value) :
  Forall isRow columns →
  ∃ ordered,
    updateColumnPickerOrder grid columns = Returns ordered ∧
    length ordered = length columns ∧
    (∀ (i : nat) column, columns !! i = Some column →
       ordered !! i =
       Some (if strictEq (getColumnIndex grid (getProp column "id")) VUndef then column
             else default VUndef
                    (getColumns grid !! length (filter shown (take i columns))))) ∧
    (getColumns grid ≡ₚ filter shown columns → ordered ≡ₚ columns).
Proof.
  intros Hrows.
  destruct (fillOrdered_spec columns (getColumns grid) Hrows)
    as (ordered & Hcall & Hlen & Hat & Hperm).
  exists ordered. split_and!; [done..|].
  intros Hgrid. rewrite Hperm. apply Permutation_length in Hgrid as Hsame.
  rewrite <- Hsame, Nat.sub_diag, firstn_all, app_nil_r, Hgrid.
  rewrite (Permutation_app_comm _ (filter shown columns)).
  apply filter_app_complement.
Qed.
End PickerOrder.

Example updateColumnPickerOrder_pickerColumns :
  ExtensionCommonUtils.updateColumnPickerOrder pickerGrid pickerColumns
  = Returns [ VObj [("id", VStr "b")]; VObj [("id", VStr "c")]; VObj [("id", VStr "a")] ].
Proof. vm_compute. reflexivity. Qed.

Lemma updateColumnPickerOrder_keeps_hidden_in_place_witness :
  ∃ ordered,
    ExtensionCommonUtils.updateColumnPickerOrder pickerGrid pickerColumns = Returns ordered ∧
    length ordered = length pickerColumns ∧
    (∀ (i : nat) column, pickerColumns !! i = Some column →
       ordered !! i =
       Some (if strictEq (ExtensionCommonUtils.getColumnIndex pickerGrid
                            (getProp column "id")) VUndef
             then column
             else default VUndef
                    (ExtensionCommonUtils.getColumns pickerGrid
                     !! length (filter (λ column,
                                  strictEq (ExtensionCommonUtils.getColumnIndex pickerGrid
                                              (getProp column "id")) VUndef = false)
                                  (take i pickerColumns))))) ∧
    (ExtensionCommonUtils.getColumns pickerGrid
     ≡ₚ filter (λ column, strictEq (ExtensionCommonUtils.getColumnIndex pickerGrid
                                     (getProp column "id")) VUndef = false) pickerColumns →
     ordered ≡ₚ pickerColumns).
Proof.
  apply (updateColumnPickerOrder_keeps_hidden_in_place pickerGrid pickerColumns).
  by repeat constructor.
Defined.

(** ** sortTreeChild *)
Lemma forest_elem cn items props children :
  forest cn items → VObj props ∈ items → get props cn = VArr children →
  forest cn children.
Proof.
  induction 1 as [|props' rest Hkids _ _ _ IH]; intros Hin Hget.
  - by apply elem_of_nil in Hin.
  - apply elem_of_cons in Hin as [[= ->]|Hin]; [by apply Hkids | by apply IH].
Qed.

Lemma forest_objects cn items : forest cn items → forallb isPlainObject items = true.
Proof. induction 1; simpl; done. Qed.

Lemma set_same {V} (o : list (string * V)) k v : own o k = Some v → set o k v = o.
Proof.
  intros Hown. unfold set, hasOwnProperty. rewrite Hown.
  induction o as [|[k1 v1] o IH]; simpl in *; [done|].
  destruct (String.eqb_spec k1 k) as [->|Hne]; [by injection Hown as -> | by rewrite IH].
Qed.

Lemma get_own_array props k children :
  get props k = VArr children → own props k = Some (VArr children).
Proof. unfold get. by destruct (own props k) as [v|]; [intros -> |]. Qed.

Section SortIdle.
Context {A : Type}.
Variable before : A → A → bool.
Hypothesis before_always : ∀ x y, before x y = true.

Lemma sortBy_idle l : sortBy before l = l.
Proof.
  induction l as [|x l IH]; simpl; [done|]. rewrite IH.
  destruct l as [|y l]; simpl; [done|]. by rewrite before_always.
Qed.
End SortIdle.

Section TreeSort.
Context {FieldType : Type}.
Variable FieldType_string : FieldType.
Variable sortByFieldType : FieldType → value → value → Z → Z.

Lemma sortChildren_rearranged recurse cn items :
  Forall (λ x, ∃ props, x = VObj props ∧
            ∀ children, get props cn = VArr children →
              ∃ children', recurse children = Returns children' ∧
                           rearrangedRows cn children children') items →
  ∃ items', sortChildren recurse cn items = Returns items' ∧
            Forall2 (rearranged cn) items items'.
Proof.
  induction 1 as [|x items (props & -> & Hkids) _ (items' & Hrest & Hall)].
  - exists []. split; [done|constructor].
  - simpl. rewrite Hrest. destruct (get props cn) as [| | | | | |children|] eqn:Hget;
      try (eexists; split; [reflexivity|]; constructor; [constructor|done]).
    destruct (Hkids children eq_refl) as (children' & -> & moved & Hperm & Hmoved).
    unfold hasOwnProperty. rewrite (get_own_array _ _ _ Hget). simpl.
    eexists; split; [reflexivity|]. constructor; [|done].
    by apply (rearranged_children cn props children moved children').
Qed.

Lemma sortChildren_same recurse cn items :
  Forall (λ x, ∃ props, x = VObj props ∧
            ∀ children, get props cn = VArr children →
              recurse children = Returns children) items →
  sortChildren recurse cn items = Returns items.
Proof.
  induction 1 as [|x items (props & -> & Hkids) _ IH]; [done|].
  simpl. rewrite IH. destruct (get props cn) as [| | | | | |children|] eqn:Hget; try done.
  rewrite (Hkids children eq_refl).
  unfold hasOwnProperty. rewrite (get_own_array _ _ _ Hget). simpl.
  by rewrite (set_same _ _ _ (get_own_array _ _ _ Hget)).
Qed.

Lemma forest_children_height cn items fuel props children :
  forest cn items → (height (VArr items) ≤ S fuel)%nat →
  VObj props ∈ items → get props cn = VArr children →
  forest cn children ∧ (height (VArr children) ≤ fuel)%nat.
Proof.
  intros Hforest Hheight Hin Hget. split; [by eapply forest_elem|].
  apply height_elem in Hin. pose proof (height_get props cn) as Hlt.
  rewrite Hget in Hlt. lia.
Qed.


End TreeSort.

Example sortTreeChild_unsortedForest :
  sortTreeChild tt (λ _ _ _ _, 0) 6 None unsortedForest
    {| ColumnSort.columnId := "id"; ColumnSort.sortAsc := true;
       ColumnSort.sortCol := Some numberColumn |} 0
  = Returns
      [ VObj [("id", VNum 1); ("children", VArr [VObj [("id", VNum 3)]; VObj [("id", VNum 4)]])];
        VObj [("id", VNum 2)] ].
Proof. vm_compute. reflexivity. Qed.



(** ** loadGridSorters and updateSorting *)
Lemma append_empty_r s : s +:+ "" = s.
Proof. induction s as [|c s IH]; [done|]. by rewrite append_String, IH. Qed.

Section SorterFacts.
Context {FieldType : Type}.

(** The sorters that name a column of the grid, with the column found for
    each of them. *)
Lemma find_columns (columns : list (Column.t FieldType)) (sorters : list CurrentSorter.t) :
  Forall2 (λ sorter (cs : Column.t FieldType * CurrentSorter.t),
             cs.2 = sorter ∧ cs.1 ∈ columns ∧ Column.id cs.1 = CurrentSorter.columnId sorter)
    (filter (λ sorter, CurrentSorter.columnId sorter ∈ Column.id <$> columns) sorters)
    (omap (λ sorter,
             match find (λ col, String.eqb (Column.id col) (CurrentSorter.columnId sorter))
                     columns with
             | Some gridColumn => Some (gridColumn, sorter)
             | None => None
             end) sorters).
Proof.
  induction sorters as [|sorter sorters IH]; [constructor|].
  rewrite filter_cons. simpl.
  destruct (find _ columns) as [gridColumn|] eqn:Hfind.
  - apply find_some in Hfind as [Hin Hid%String.eqb_eq]. apply list_elem_of_In in Hin.
    rewrite decide_True.
    + constructor; [|done]. done.
    + rewrite <- Hid. apply list_elem_of_fmap. by exists gridColumn.
  - rewrite decide_False; [done|].
    intros (col & Hid & Hin)%list_elem_of_fmap.
    apply list_elem_of_In in Hin.
    apply (find_none _ _ Hfind) in Hin. simpl in Hin.
    rewrite Hid, String.eqb_refl in Hin. done.
Qed.

(** What [loadGridSorters] leaves on a service bound to a grid. *)
Lemma loadGridSorters_bound (sorters : list CurrentSorter.t)
    (s : SortService.t FieldType) (grid : SlickGrid FieldType) :
  _grid s = Some grid →
  ∃ s' sortCols,
    loadGridSorters sorters s = (s', Returns sortCols) ∧
    _grid s' = Some grid ∧
    _currentLocalSorters s' =
      (λ sorter, {| CurrentSorter.columnId := CurrentSorter.columnId sorter;
                    CurrentSorter.direction := toUpperCase (CurrentSorter.direction sorter) |})
        <$> filter (λ sorter, CurrentSorter.columnId sorter ∈ Column.id <$> getColumns grid)
              sorters ∧
    Forall2 (λ sorter sortColumn,
               ColumnSort.columnId sortColumn = CurrentSorter.columnId sorter ∧
               ColumnSort.sortAsc sortColumn =
                 String.eqb (toUpperCase (CurrentSorter.direction sorter)) "ASC" ∧
               ∃ gridColumn, ColumnSort.sortCol sortColumn = Some gridColumn ∧
                             gridColumn ∈ getColumns grid ∧
                             Column.id gridColumn = CurrentSorter.columnId sorter)
      (filter (λ sorter, CurrentSorter.columnId sorter ∈ Column.id <$> getColumns grid)
         sorters)
      sortCols ∧
    last (calls s') =
      Some (SetSortColumns
              ((λ sortColumn, (ColumnSort.columnId sortColumn, ColumnSort.sortAsc sortColumn))
                 <$> sortCols)).
Proof.
  intros Hgrid. unfold loadGridSorters.
  assert (_columnDefinitions (setCurrentLocalSorters [] s) = getColumns grid) as ->.
  { unfold _columnDefinitions. simpl. by rewrite Hgrid. }
  pose proof (find_columns (getColumns grid) sorters) as Hfound.
  revert Hfound. generalize (filter (λ sorter, CurrentSorter.columnId sorter
                                       ∈ Column.id <$> getColumns grid) sorters).
  match goal with |- context [omap ?f sorters] => generalize (omap f sorters) end.
  intros found known Hfound.
  assert (∀ l (u : SortService.t FieldType), _grid u = Some grid →
            _grid (onLocalSortChanged l u) = Some grid) as Hkeep.
  { intros l u Hu. unfold onLocalSortChanged. rewrite Hu.
    by destruct (getData grid). }
  rewrite Hkeep by done.
  eexists _, _. split; [reflexivity|]. split_and!.
  - simpl. by apply Hkeep.
  - simpl. unfold onLocalSortChanged. simpl. rewrite Hgrid.
    assert (map (λ cs : Column.t FieldType * CurrentSorter.t,
                   {| CurrentSorter.columnId := Column.id cs.1 +:+ "";
                      CurrentSorter.direction := toUpperCase (CurrentSorter.direction cs.2) |})
              found
            = (λ sorter, {| CurrentSorter.columnId := CurrentSorter.columnId sorter;
                            CurrentSorter.direction :=
                              toUpperCase (CurrentSorter.direction sorter) |}) <$> known)
      as <-.
    { induction Hfound as [|sorter cs known found (H2 & _ & Hid) _ IH]; [done|].
      simpl. rewrite IH, append_empty_r, Hid, H2. done. }
    by destruct (getData grid).
  - induction Hfound as [|sorter cs known found (H2 & Hin & Hid) _ IH]; [constructor|].
    simpl. constructor; [|done]. simpl. rewrite H2. split_and!; [done|done|].
    by exists cs.1.
  - simpl. by rewrite last_snoc.
Qed.

(** X28.  On a service bound to a grid, [loadGridSorters] keeps the
    sorters that name a column of the grid, in their order, and drops the
    others without a word: the current local sorters are the kept ones,
    their direction in upper case; the sort columns it returns carry, for
    each kept sorter, a column of the grid with that identifier, ascending
    when the direction reads ASC in whatever case; and the last call made
    hands these sort columns to the grid. *)
Theorem loadGridSorters_keeps_known_columns (sorters : list CurrentSorter.t)
    (s : SortService.t FieldType) (grid : SlickGrid FieldType) :
  _grid s = Some grid →
  ∃ s' sortCols,
    loadGridSorters sorters s = (s', Returns sortCols) ∧
    _currentLocalSorters s' =
      (λ sorter, {| CurrentSorter.columnId := CurrentSorter.columnId sorter;
                    CurrentSorter.direction := toUpperCase (CurrentSorter.direction sorter) |})
        <$> filter (λ sorter, CurrentSorter.columnId sorter ∈ Column.id <$> getColumns grid)
              sorters ∧
    Forall2 (λ sorter sortColumn,
               ColumnSort.columnId sortColumn = CurrentSorter.columnId sorter ∧
               ColumnSort.sortAsc sortColumn =
                 String.eqb (toUpperCase (CurrentSorter.direction sorter)) "ASC" ∧
               ∃ gridColumn, ColumnSort.sortCol sortColumn = Some gridColumn ∧
                             gridColumn ∈ getColumns grid ∧
                             Column.id gridColumn = CurrentSorter.columnId sorter)
      (filter (λ sorter, CurrentSorter.columnId sorter ∈ Column.id <$> getColumns grid)
         sorters)
      sortCols ∧
    last (calls s') =
      Some (SetSortColumns
              ((λ sortColumn, (ColumnSort.columnId sortColumn, ColumnSort.sortAsc sortColumn))
                 <$> sortCols)).
Proof.
  intros Hgrid.
  destruct (loadGridSorters_bound sorters s grid Hgrid)
    as (s' & sortCols & Hload & _ & Hsorters & Hcolumns & Hlast).
  by exists s', sortCols.
Qed.

(** [emitSortChanged] publishes, and does nothing else. *)
Lemma emitSortChanged_publishes (remote : bool) (s : SortService.t FieldType) :
  _currentLocalSorters (emitSortChanged remote s) = _currentLocalSorters s ∧
  ∃ added, calls (emitSortChanged remote s) = calls s ++ added ∧
           Forall (λ c, ∃ event published, c = Publish event published) added.
Proof.
  unfold emitSortChanged.
  destruct remote; [destruct (_gridOptions s ≫= backendServiceApi)|]; simpl;
    (split; [done|]);
    first [ by exists []; rewrite app_nil_r
          | eexists [_]; split; [done|]; repeat constructor; by eexists _, _ ].
Qed.

(** X29.  On a grid with a backend service, [updateSorting] leaves the
    local sort alone: the current local sorters stay as they were, and the
    calls it adds sort no data view and set no sort column on the grid.
    The backend is refreshed only when asked to, and only after the
    sorters were handed to the backend service as they are. *)
Theorem updateSorting_backend_leaves_local_sort (sorters : list CurrentSorter.t)
    (emitChangedEvent triggerBackendQuery : bool) (s : SortService.t FieldType)
    (gridOptions : GridOption) (backendApi : BackendServiceApi) :
  _gridOptions s = Some gridOptions →
  enableSorting gridOptions = true →
  backendServiceApi gridOptions = Some backendApi →
  ∃ s' added,
    updateSorting (Some sorters) emitChangedEvent triggerBackendQuery s = (s', Returns tt) ∧
    _currentLocalSorters s' = _currentLocalSorters s ∧
    calls s' = calls s ++ added ∧
    Forall (λ c, match c with
                 | LocalSort _ | SetSortColumns _ => False
                 | _ => True
                 end) added ∧
    (RefreshBackendDataset ∈ added →
       triggerBackendQuery = true ∧
       ∃ rest, added = BackendUpdateSorters sorters :: RefreshBackendDataset :: rest).
Proof.
  intros Hoptions Henabled Hapi. unfold updateSorting.
  rewrite Hoptions, Henabled, Hapi.
  cbv zeta.
  generalize (emitSortChanged_publishes (bool_decide (is_Some (Some backendApi)))).
  generalize (emitSortChanged (FieldType := FieldType)
                (bool_decide (is_Some (Some backendApi)))).
  intros emit Hemit.
  assert (∀ (u : SortService.t FieldType) before,
            _currentLocalSorters u = _currentLocalSorters s →
            calls u = calls s ++ before →
            Forall (λ c, match c with
                         | LocalSort _ | SetSortColumns _ => False
                         | _ => True
                         end) before →
            (RefreshBackendDataset ∈ before →
               triggerBackendQuery = true ∧
               ∃ rest, before = BackendUpdateSorters sorters :: RefreshBackendDataset :: rest) →
            ∃ s' added,
              (if emitChangedEvent then (emit u, Returns tt) else (u, Returns tt))
                = (s', Returns tt) ∧
              _currentLocalSorters s' = _currentLocalSorters s ∧
              calls s' = calls s ++ added ∧
              Forall (λ c, match c with
                           | LocalSort _ | SetSortColumns _ => False
                           | _ => True
                           end) added ∧
              (RefreshBackendDataset ∈ added →
                 triggerBackendQuery = true ∧
                 ∃ rest, added = BackendUpdateSorters sorters :: RefreshBackendDataset :: rest))
    as Hend.
  { intros u before Hlocal Hcalls Hbefore Hrefresh. destruct emitChangedEvent.
    - destruct (Hemit u) as (Hsame & published & Hpublished & Hall).
      exists (emit u), (before ++ published). split_and!; [done|congruence| | |].
      + by rewrite Hpublished, Hcalls, (assoc_L (++)).
      + apply Forall_app. split; [done|].
        eapply Forall_impl; [exact Hall|]. by intros c (event & l & ->).
      + intros [Hin|Hin]%elem_of_app.
        * destruct (Hrefresh Hin) as (-> & rest & ->). split; [done|]. by eexists.
        * rewrite Forall_forall in Hall. by destruct (Hall _ Hin) as (event & l & ?).
    - by exists u, before. }
  destruct (service backendApi) as [backendApiService|].
  - destruct (updateSorters backendApiService).
    + destruct (triggerBackendQuery && backendUtilities (record (BackendUpdateSorters sorters) s))
        eqn:Htrigger.
      * apply (Hend _ [BackendUpdateSorters sorters; RefreshBackendDataset]).
        -- done.
        -- simpl. by rewrite <- (assoc_L (++)).
        -- by repeat constructor.
        -- intros _. apply andb_true_iff in Htrigger as [-> _]. split; [done|]. by eexists.
      * apply (Hend _ [BackendUpdateSorters sorters]); [done|done|by repeat constructor|].
        intros Hin. apply elem_of_cons in Hin as [?|Hin]; [done|]. by apply elem_of_nil in Hin.
    + apply (Hend s []); [done|by rewrite app_nil_r|constructor|].
      intros Hin. by apply elem_of_nil in Hin.
  - apply (Hend s []); [done|by rewrite app_nil_r|constructor|].
    intros Hin. by apply elem_of_nil in Hin.
Qed.

(** X30.  On a grid without a backend service, and bound to a grid,
    [updateSorting] that emits publishes last the event of a changed sort,
    with the sorters that were kept: those that name a column of the grid,
    their direction in upper case. *)
Theorem updateSorting_local_publishes_kept_sorters (sorters : list CurrentSorter.t)
    (triggerBackendQuery : bool) (s : SortService.t FieldType)
    (grid : SlickGrid FieldType) (gridOptions : GridOption) :
  _grid s = Some grid →
  getOptions grid = Some gridOptions →
  enableSorting gridOptions = true →
  backendServiceApi gridOptions = None →
  ∃ s',
    updateSorting (Some sorters) true triggerBackendQuery s = (s', Returns tt) ∧
    last (calls s') = Some (Publish "onSortChanged" (_currentLocalSorters s')) ∧
    _currentLocalSorters s' =
      (λ sorter, {| CurrentSorter.columnId := CurrentSorter.columnId sorter;
                    CurrentSorter.direction := toUpperCase (CurrentSorter.direction sorter) |})
        <$> filter (λ sorter, CurrentSorter.columnId sorter ∈ Column.id <$> getColumns grid)
              sorters.
Proof.
  intros Hgrid Hoptions Henabled Hapi. unfold updateSorting.
  assert (_gridOptions s = Some gridOptions) as -> by (unfold _gridOptions; by rewrite Hgrid).
  rewrite Henabled, Hapi. simpl.
  destruct (loadGridSorters_bound sorters s grid Hgrid)
    as (s1 & sortCols & -> & _ & Hsorters & _ & _).
  simpl. unfold emitSortChanged. simpl.
  eexists. split; [reflexivity|]. simpl. by rewrite last_snoc.
Qed.
End SorterFacts.

Example loadGridSorters_threeSorters :
  _currentLocalSorters (loadGridSorters threeSorters twoColumnService).1 =
    [ {| CurrentSorter.columnId := "id"; CurrentSorter.direction := "DESC" |};
      {| CurrentSorter.columnId := "a"; CurrentSorter.direction := "ASC" |} ] ∧
  calls (loadGridSorters threeSorters twoColumnService).1 =
    [ LocalSort [ {| ColumnSort.columnId := "id"; ColumnSort.sortAsc := false;
                     ColumnSort.sortCol := Some numberColumn |};
                  {| ColumnSort.columnId := "a"; ColumnSort.sortAsc := true;
                     ColumnSort.sortCol := Some directionColumn |} ];
      SetSortColumns [("id", false); ("a", true)] ].
Proof. split; vm_compute; reflexivity. Qed.

Lemma loadGridSorters_keeps_known_columns_witness :
  ∃ s' sortCols,
    loadGridSorters threeSorters twoColumnService = (s', Returns sortCols) ∧
    _currentLocalSorters s' =
      (λ sorter, {| CurrentSorter.columnId := CurrentSorter.columnId sorter;
                    CurrentSorter.direction := toUpperCase (CurrentSorter.direction sorter) |})
        <$> filter (λ sorter, CurrentSorter.columnId sorter
                                ∈ Column.id <$> getColumns twoColumnGrid) threeSorters ∧
    Forall2 (λ sorter sortColumn,
               ColumnSort.columnId sortColumn = CurrentSorter.columnId sorter ∧
               ColumnSort.sortAsc sortColumn =
                 String.eqb (toUpperCase (CurrentSorter.direction sorter)) "ASC" ∧
               ∃ gridColumn, ColumnSort.sortCol sortColumn = Some gridColumn ∧
                             gridColumn ∈ getColumns twoColumnGrid ∧
                             Column.id gridColumn = CurrentSorter.columnId sorter)
      (filter (λ sorter, CurrentSorter.columnId sorter
                           ∈ Column.id <$> getColumns twoColumnGrid) threeSorters)
      sortCols ∧
    last (calls s') =
      Some (SetSortColumns
              ((λ sortColumn, (ColumnSort.columnId sortColumn, ColumnSort.sortAsc sortColumn))
                 <$> sortCols)).
Proof.
  apply (loadGridSorters_keeps_known_columns threeSorters twoColumnService twoColumnGrid).
  reflexivity.
Defined.

Lemma updateSorting_backend_leaves_local_sort_witness :
  ∃ s' added,
    updateSorting (Some threeSorters) true true backendService = (s', Returns tt) ∧
    _currentLocalSorters s' = _currentLocalSorters backendService ∧
    calls s' = calls backendService ++ added ∧
    Forall (λ c : call unit, match c with
                 | LocalSort _ | SetSortColumns _ => False
                 | _ => True
                 end) added ∧
    (RefreshBackendDataset ∈ added →
       true = true ∧
       ∃ rest, added = BackendUpdateSorters threeSorters :: RefreshBackendDataset :: rest).
Proof.
  apply (updateSorting_backend_leaves_local_sort threeSorters true true backendService
           backendOptions
           {| service := Some {| updateSorters := true; getCurrentSorters := Some [] |} |});
    reflexivity.
Defined.

Example updateSorting_backendService :
  calls (updateSorting (Some threeSorters) true true backendService).1 =
    [ BackendUpdateSorters threeSorters; RefreshBackendDataset; Publish "onSortChanged" [] ].
Proof. vm_compute. reflexivity. Qed.

Lemma updateSorting_local_publishes_kept_sorters_witness :
  ∃ s',
    updateSorting (Some threeSorters) true true twoColumnService = (s', Returns tt) ∧
    last (calls s') = Some (Publish "onSortChanged" (_currentLocalSorters s')) ∧
    _currentLocalSorters s' =
      (λ sorter, {| CurrentSorter.columnId := CurrentSorter.columnId sorter;
                    CurrentSorter.direction := toUpperCase (CurrentSorter.direction sorter) |})
        <$> filter (λ sorter, CurrentSorter.columnId sorter
                                ∈ Column.id <$> getColumns twoColumnGrid) threeSorters.
Proof.
  apply (updateSorting_local_publishes_kept_sorters threeSorters true twoColumnService
           twoColumnGrid
           {| enableSorting := true; enableTreeData := false; backendServiceApi := None |});
    reflexivity.
Defined.
